(** * CONSORT deep-research agent: control loop, retrieval merge, hydration
    and document assembly

    A shallow embedding of the Python sources under [Agent/]:

    - [agent/state.py], [agent/nodes.py], [agent/graph.py]: the LangGraph
      state, the six node functions and the two routers;
    - [retrieval/client.py]: [search] and [multi_query_search];
    - [search/you_client.py]: [search_term] and [hydrate_terms];
    - [latex/generator.py]: [_escape_latex] and [sections_to_latex];
    - [main.py]: the [generate] command;

    and of [file_reader.py] ([chunk_text]), [Agent/ingest/chunker.py] and
    [Agent/ingest/uploader.py] ([chunk_documents], [upload_chunks]) and
    [data_generator/orchestrator.py] ([run] and its checkpoint).

    Conventions of the embedding.

    - A Python exception is an [outcome] value [Raise e]; a node that raises
      aborts the run (LangGraph re-raises it from [invoke]).
    - Values that come out of [json.loads] stay dynamically typed ([json]);
      the state fields that receive them ([research_queries],
      [unfamiliar_terms], [evaluation_result]) hold such values, as in
      Python, whatever the [TypedDict] annotations say.
    - Every call that leaves the process (chat completion, embedding, vector
      search, web search) is answered by a [World]: a record of reply
      functions indexed by the super-step of the graph and by the position of
      the call inside that super-step.  [json.loads] is a field of the world
      as well (a pure function of the text).
    - Relevance scores are floats in the source; they are only compared,
      never computed with, and are modelled by integers (any order embedding
      of the non-NaN scores).  JSON numbers are integers.
    - The text that an f-string gives a list or an object (Python's [repr])
      is not computed; the field [container_str] of the world stands for it.
    - The body of a [logger] call is not modelled, but its arguments are
      evaluated eagerly by Python, so the [len(...)] and slice expressions
      passed to [logger.info] are.
    - The graph is the one [build_graph] declares; the step limit that the
      LangGraph runtime may impose on [invoke] is configuration of the
      library and is not modelled ([fuel] only bounds the evaluation). *)

From Stdlib Require Import Ascii String ZArith.
From stdpp Require Import base option list strings gmap sorting pretty.

Local Open Scope string_scope.
Local Open Scope list_scope.
Local Open Scope nat_scope.
#[local] Set Warnings "-register-all".

(** ** Exceptions and results *)

Inductive exn : Type :=
  | IndexError
  | AttributeError
  | TypeError
  | UpstreamError (msg : string).

Inductive outcome (A : Type) : Type :=
  | Ok (a : A)
  | Raise (e : exn).
Arguments Ok {A} a.
Arguments Raise {A} e.

#[global] Instance outcome_ret : MRet outcome := λ A a, Ok a.
#[global] Instance outcome_bind : MBind outcome := λ A B f m,
  match m with
  | Ok a => f a
  | Raise e => Raise e
  end.

Definition is_ok {A} (m : outcome A) : bool :=
  match m with Ok _ => true | Raise _ => false end.

(** ** Python values produced by [json.loads] *)

Module Py.

Inductive json : Type :=
  | JNull
  | JBool (b : bool)
  | JNum (n : Z)
  | JStr (s : string)
  | JList (l : list json)
  | JDict (kvs : list (string * json)).

(** [d.get(key, default)] on a parsed object (keys are unique after
    [json.loads]; the first binding is the one looked up). *)
Fixpoint dict_get (kvs : list (string * json)) (key : string) (default : json) : json :=
  match kvs with
  | [] => default
  | (k, v) :: rest => if decide (k = key) then v else dict_get rest key default
  end.

(** [v == s] for a string literal [s]. *)
Definition eq_str (v : json) (s : string) : bool :=
  match v with
  | JStr t => bool_decide (t = s)
  | _ => false
  end.

(** Truth value of an object ([if v:] / [not v]). *)
Definition truthy (v : json) : bool :=
  match v with
  | JNull => false
  | JBool b => b
  | JNum n => negb (n =? 0)%Z
  | JStr s => negb (bool_decide (s = ""))
  | JList l => negb (bool_decide (l = []))
  | JDict kvs => negb (bool_decide (kvs = []))
  end.

(** [len(v)]: defined on strings, lists and dicts. *)
Definition len (v : json) : outcome nat :=
  match v with
  | JStr s => Ok (String.length s)
  | JList l => Ok (length l)
  | JDict kvs => Ok (length kvs)
  | _ => Raise TypeError
  end.

Fixpoint chars (s : string) : list json :=
  match s with
  | EmptyString => []
  | String a s' => JStr (String a EmptyString) :: chars s'
  end.

(** [for x in v]: the elements of a list, the characters of a string, the
    keys of a dict. *)
Definition iter (v : json) : outcome (list json) :=
  match v with
  | JList l => Ok l
  | JStr s => Ok (chars s)
  | JDict kvs => Ok (JStr ∘ fst <$> kvs)
  | _ => Raise TypeError
  end.

(** [v[:n]] is defined on strings and lists only. *)
Definition sliceable (v : json) : bool :=
  match v with
  | JStr _ | JList _ => true
  | _ => false
  end.

(** Hashable values as dictionary keys.  [True == 1] and [False == 0] in
    Python, so booleans and integers share keys. *)
Inductive key : Type :=
  | KNone
  | KInt (n : Z)
  | KStr (s : string).

#[global] Instance key_eq_dec : EqDecision key.
Proof. solve_decision. Defined.

#[global] Instance key_countable : Countable key.
Proof.
  refine (inj_countable'
    (λ k, match k with
          | KNone => inl ()
          | KInt n => inr (inl n)
          | KStr s => inr (inr s)
          end)
    (λ x, match x with
          | inl _ => KNone
          | inr (inl n) => KInt n
          | inr (inr s) => KStr s
          end) _).
  by intros [].
Defined.

End Py.
Export Py.

(** ** retrieval/client.py *)

Module Retrieval.

Record RetrievedChunk : Type := {
  text : string;
  score : Z;
  source_file : string;
  page_number : Z;
  metadata : list (string * json);
}.

(** A hit of the vector store: an optional payload and a similarity score.
    The payload is the one written at ingestion. *)
Record Payload : Type := {
  p_text : option string;
  p_source_file : option string;
  p_page_number : option Z;
  p_other : list (string * json);
}.

Record ScoredPoint : Type := {
  hit_payload : option Payload;
  hit_score : Z;
}.

Definition empty_payload : Payload :=
  {| p_text := None; p_source_file := None; p_page_number := None; p_other := [] |}.

(** The body of the [for hit in results] loop of [search]. *)
Definition chunk_of_hit (hit : ScoredPoint) : RetrievedChunk :=
  let payload := default empty_payload (hit_payload hit) in
  {| text := default "" (p_text payload);
     score := hit_score hit;
     source_file := default "" (p_source_file payload);
     page_number := default 0%Z (p_page_number payload);
     metadata :=
       from_option (λ s, [("source_file", JStr s)]) [] (p_source_file payload) ++
       from_option (λ n, [("page_number", JNum n)]) [] (p_page_number payload) ++
       p_other payload |}.

(** [QdrantRetriever.search(query, top_k)].  [embed_reply] answers
    [self._embed(query)], [qdrant_reply] answers [self._qdrant.search(...)];
    neither call is guarded, so a failure of either leaves [search] as the
    exception. *)
Definition search
    (embed_reply : json → outcome (list Z))
    (qdrant_reply : list Z → nat → outcome (list ScoredPoint))
    (query : json) (top_k : nat) : outcome (list RetrievedChunk) :=
  query_vector ← embed_reply query;
  results ← qdrant_reply query_vector top_k;
  let chunks := fmap (M:=list) chunk_of_hit results in
  if sliceable query then Ok chunks else Raise TypeError.

(** The inner loop of [multi_query_search]: de-duplicate by exact text. *)
Definition add_chunk (acc : gset string * list RetrievedChunk) (chunk : RetrievedChunk)
    : gset string * list RetrievedChunk :=
  let '(seen_texts, all_chunks) := acc in
  if decide (text chunk ∈ seen_texts) then acc
  else ({[text chunk]} ∪ seen_texts, all_chunks ++ [chunk]).

Definition add_results (acc : gset string * list RetrievedChunk)
    (results : list RetrievedChunk) : gset string * list RetrievedChunk :=
  foldl add_chunk acc results.

(** [list.sort(key=lambda c: c.score, reverse=True)]: Python's sort is
    stable, also under [reverse=True]; elements of equal score keep their
    order.  Modelled by a stable insertion sort. *)
Fixpoint insert_desc (c : RetrievedChunk) (l : list RetrievedChunk) : list RetrievedChunk :=
  match l with
  | [] => [c]
  | d :: l' =>
      if bool_decide (score c < score d)%Z then d :: insert_desc c l'
      else c :: d :: l'
  end.

Fixpoint sort_by_score_desc (l : list RetrievedChunk) : list RetrievedChunk :=
  match l with
  | [] => []
  | c :: l' => insert_desc c (sort_by_score_desc l')
  end.

(** The outer loop, one [search] per query; [search_at i] is the [i]-th call
    of this invocation. *)
Fixpoint mqs_loop (search_at : nat → json → nat → outcome (list RetrievedChunk))
    (i : nat) (queries : list json) (top_k_per_query : nat)
    (acc : gset string * list RetrievedChunk)
    : outcome (gset string * list RetrievedChunk) :=
  match queries with
  | [] => Ok acc
  | q :: rest =>
      results ← search_at i q top_k_per_query;
      mqs_loop search_at (S i) rest top_k_per_query (add_results acc results)
  end.

Definition multi_query_search
    (search_at : nat → json → nat → outcome (list RetrievedChunk))
    (queries : json) (top_k_per_query : nat) : outcome (list RetrievedChunk) :=
  qs ← iter queries;
  acc ← mqs_loop search_at 0 qs top_k_per_query (∅, []);
  Ok (sort_by_score_desc acc.2).

(** Specification-side helpers: the fragments in the order in which the
    queries deliver them, and the first occurrence of every text. *)
Fixpoint arrivals (search_at : nat → json → nat → outcome (list RetrievedChunk))
    (i : nat) (queries : list json) (top_k : nat) : outcome (list RetrievedChunk) :=
  match queries with
  | [] => Ok []
  | q :: rest =>
      results ← search_at i q top_k;
      more ← arrivals search_at (S i) rest top_k;
      Ok (results ++ more)
  end.

Definition first_seen (raw : list RetrievedChunk) : list RetrievedChunk :=
  (add_results (∅, []) raw).2.

(** The invariant of the de-duplication loop: [seen_texts] holds exactly the
    texts of [all_chunks], and no text occurs twice. *)
Definition seen_ok (acc : gset string * list RetrievedChunk) : Prop :=
  acc.1 = list_to_set (text <$> acc.2) ∧ NoDup (text <$> acc.2).

Definition score_ge (c d : RetrievedChunk) : Prop := (score d ≤ score c)%Z.
Definition score_gt (c d : RetrievedChunk) : Prop := (score d < score c)%Z.

End Retrieval.

(** ** search/you_client.py *)

Module YouSearch.

Record WebSearchResult : Type := {
  query : string;
  snippet : string;
  url : string;
  title : string;
}.

(** One entry of the list that [YouSearchAPIWrapper.results] returns, when
    it is a mapping read through [item.get(...)]. *)
Record WebItem : Type := {
  w_snippet : option string;
  w_description : option string;
  w_url : option string;
  w_title : option string;
}.

(** An entry of that list: a mapping, or an object without a [get] method
    (the [Document] objects that some wrapper versions return). *)
Inductive raw_item : Type :=
  | ItemDict (item : WebItem)
  | ItemObject.

(** What the wrapper hands back: a list, a single string ("some wrapper
    versions return a single string"), or anything else. *)
Inductive raw_results : Type :=
  | RawList (items : list raw_item)
  | RawStr (s : string)
  | RawOther.

(** The [WebSearchResult(...)] built for one entry: [item.get] on an object
    without that method raises [AttributeError]. *)
Definition result_of_item (query : string) (item : raw_item)
    : outcome WebSearchResult :=
  match item with
  | ItemDict item =>
      Ok {| query := query;
            snippet := default (default "" (w_description item)) (w_snippet item);
            url := default "" (w_url item);
            title := default "" (w_title item) |}
  | ItemObject => Raise AttributeError
  end.

(** [search_term(term)], with [term_str] the text of [term] as the f-string
    formats it and [wrapper_reply] the answer of [self._wrapper.results].
    Only that call sits in [try ... except Exception: return []]; the loop
    over the entries comes after it. *)
Definition search_term (wrapper_reply : string → outcome raw_results)
    (term_str : string) : outcome (list WebSearchResult) :=
  let query := "definition of " +:+ term_str +:+ " in clinical trials" in
  match wrapper_reply query with
  | Raise _ => Ok []
  | Ok (RawList items) => mapM (result_of_item query) items
  | Ok (RawStr s) =>
      Ok [ {| query := query; snippet := s; url := ""; title := "" |} ]
  | Ok RawOther => Ok []
  end.

(** A term as the loop of [hydrate_terms] uses it: as text inside the
    f-strings, and as a dictionary key ([definitions[term] = ...], a
    [TypeError] on an unhashable term).  The text of a list or of an object
    is Python's [repr] of it, which [container_str] stands for. *)
Definition term_str (container_str : json → string) (term : json) : string :=
  match term with
  | JNull => "None"
  | JBool b => if b then "True" else "False"
  | JNum n => pretty n
  | JStr s => s
  | JList _ | JDict _ => container_str term
  end.

Definition term_key (term : json) : outcome key :=
  match term with
  | JNull => Ok KNone
  | JBool b => Ok (KInt (if b then 1 else 0))
  | JNum n => Ok (KInt n)
  | JStr s => Ok (KStr s)
  | JList _ | JDict _ => Raise TypeError
  end.

(** [" ".join(r.snippet for r in results[:2] if r.snippet)] *)
Definition combine_snippets (results : list WebSearchResult) : string :=
  String.concat " "
    (filter (λ s, s ≠ "") (snippet <$> take 2 results)).

Definition placeholder_definition (term_str : string) : string :=
  "No definition found for '" +:+ term_str +:+ "'.".

(** The body of [for term in terms] in [hydrate_terms]: the lookup first,
    then the assignment to [definitions[term]]. *)
Definition hydrate_term (container_str : json → string)
    (wrapper_reply : string → outcome raw_results)
    (definitions : gmap key string) (term : json) : outcome (gmap key string) :=
  let text := term_str container_str term in
  results ← search_term wrapper_reply text;
  k ← term_key term;
  if bool_decide (results ≠ [])
  then Ok (<[k := combine_snippets results]> definitions)
  else Ok (<[k := placeholder_definition text]> definitions).

(** [wrapper_at i] is the wrapper's answer to the [i]-th lookup. *)
Fixpoint hydrate_loop (container_str : json → string)
    (wrapper_at : nat → string → outcome raw_results)
    (i : nat) (terms : list json) (definitions : gmap key string)
    : outcome (gmap key string) :=
  match terms with
  | [] => Ok definitions
  | term :: rest =>
      definitions' ← hydrate_term container_str (wrapper_at i) definitions term;
      hydrate_loop container_str wrapper_at (S i) rest definitions'
  end.

Definition hydrate_terms (container_str : json → string)
    (wrapper_at : nat → string → outcome raw_results)
    (terms : json) : outcome (gmap key string) :=
  ts ← iter terms;
  hydrate_loop container_str wrapper_at 0 ts ∅.

End YouSearch.

(** ** agent/state.py: the checklist item *)

Module Item.

Record ConsortItem : Type := {
  id : string;
  section : string;
  topic : string;
  description : string;
  group : string;
}.

End Item.

(** ** latex/generator.py *)

Module Latex.
Import Item.

(** [latex/templates.py] is not part of the sources at hand; its constants
    are parameters of the assembler.  [CONSORT_TABLE_ROW] stands for
    [CONSORT_TABLE_ROW.format(item_id=, section=, topic=, description=)]. *)
Record Templates : Type := {
  PREAMBLE : string;
  BEGIN_DOCUMENT : string;
  END_DOCUMENT : string;
  SECTION_COMMANDS : gmap string string;
  CONSORT_TABLE_HEADER : string;
  CONSORT_TABLE_ROW : string → string → string → string → string;
  CONSORT_TABLE_FOOTER : string;
}.

Definition newline : string := String "010"%char EmptyString.

(** [text.replace(char, escaped)] for a one-character [char]. *)
Fixpoint replace (char : ascii) (escaped : string) (text : string) : string :=
  match text with
  | EmptyString => EmptyString
  | String a rest =>
      (if decide (a = char) then escaped else String a EmptyString)
        +:+ replace char escaped rest
  end.

Definition replacements : list (ascii * string) :=
  [ ("&"%char, "\&");
    ("%"%char, "\%");
    ("$"%char, "\$");
    ("#"%char, "\#");
    ("_"%char, "\_");
    ("{"%char, "\{");
    ("}"%char, "\}");
    ("~"%char, "\textasciitilde{}");
    ("^"%char, "\textasciicircum{}") ].

Definition _escape_latex (text : string) : string :=
  foldl (λ text '(char, escaped), replace char escaped text) text replacements.

Section Assembler.
Context (tpl : Templates).

Definition section_marker (section_name : string) : string :=
  default ("\section{" +:+ section_name +:+ "}") (SECTION_COMMANDS tpl !! section_name).

Definition topic_marker (item : ConsortItem) : list string :=
  [ "\subsection{" +:+ topic item +:+ "}";
    "\label{sec:" +:+ id item +:+ "}" ].

Definition fragment_block (item : ConsortItem) (fragment : string) : list string :=
  [ ""; "% --- CONSORT Item " +:+ id item +:+ ": " +:+ topic item +:+ " ---"; fragment ].

Definition placeholder (item : ConsortItem) : string :=
  newline +:+ "% CONSORT Item " +:+ id item +:+ ": No evidence available." +:+ newline.

(** One iteration of the first [for item in consort_items] loop; the loop
    state is [(parts, current_section, current_topic)]. *)
Definition assemble_item (latex_sections : gmap string string)
    (st : list string * string * string) (item : ConsortItem)
    : list string * string * string :=
  let '(parts, current_section, current_topic) := st in
  let item_id := id item in
  let section_name := section item in
  let topic := topic item in
  let '(parts, current_section, current_topic) :=
    if decide (section_name ≠ current_section)
    then (parts ++ [""; section_marker section_name], section_name, "")
    else (parts, current_section, current_topic) in
  let '(parts, current_topic) :=
    if decide (topic ≠ current_topic)
    then (parts ++ topic_marker item, topic)
    else (parts, current_topic) in
  let fragment := default "" (latex_sections !! item_id) in
  let parts :=
    if decide (fragment ≠ "")
    then parts ++ fragment_block item fragment
    else parts ++ [placeholder item] in
  (parts, current_section, current_topic).

Definition table_row (item : ConsortItem) : string :=
  CONSORT_TABLE_ROW tpl
    (_escape_latex (id item))
    (_escape_latex (section item))
    (_escape_latex (topic item))
    (_escape_latex (substring 0 80 (description item) +:+ "...")).

(** The list [parts] just before ["\n".join(parts)]. *)
Definition sections_parts (consort_items : list ConsortItem)
    (latex_sections : gmap string string) : list string :=
  let parts := [PREAMBLE tpl; ""; BEGIN_DOCUMENT tpl; ""] in
  let '(parts, _, _) :=
    foldl (assemble_item latex_sections) (parts, "", "") consort_items in
  let parts := parts ++ [""; CONSORT_TABLE_HEADER tpl] in
  let parts := foldl (λ parts item, parts ++ [table_row item]) parts consort_items in
  let parts := parts ++ [CONSORT_TABLE_FOOTER tpl] in
  parts ++ [""; END_DOCUMENT tpl].

Definition sections_to_latex (consort_items : list ConsortItem)
    (latex_sections : gmap string string) : string :=
  String.concat newline (sections_parts consort_items latex_sections).

(** Specification-side description of the document body: the lines that one
    item contributes, given the labels of the item before it (the empty
    string before the first item). *)
Definition item_body (latex_sections : gmap string string) (item : ConsortItem) : list string :=
  let fragment := default "" (latex_sections !! id item) in
  if decide (fragment ≠ "") then fragment_block item fragment else [placeholder item].

Definition item_block (latex_sections : gmap string string)
    (prev_section prev_topic : string) (item : ConsortItem) : list string :=
  let new_section := bool_decide (section item ≠ prev_section) in
  let current_topic := if new_section then "" else prev_topic in
  (if new_section then [""; section_marker (section item)] else []) ++
  (if bool_decide (topic item ≠ current_topic) then topic_marker item else []) ++
  item_body latex_sections item.

Fixpoint body_blocks (latex_sections : gmap string string)
    (prev_section prev_topic : string) (items : list ConsortItem) : list string :=
  match items with
  | [] => []
  | item :: rest =>
      item_block latex_sections prev_section prev_topic item ++
      body_blocks latex_sections (section item) (topic item) rest
  end.

(** The same, following the words of the specification: each marker exactly
    when its own label differs from that of the previous item. *)
Definition item_block_as_specified (latex_sections : gmap string string)
    (prev_section prev_topic : string) (item : ConsortItem) : list string :=
  (if bool_decide (section item ≠ prev_section)
   then [""; section_marker (section item)] else []) ++
  (if bool_decide (topic item ≠ prev_topic) then topic_marker item else []) ++
  item_body latex_sections item.

Fixpoint body_as_specified (latex_sections : gmap string string)
    (prev_section prev_topic : string) (items : list ConsortItem) : list string :=
  match items with
  | [] => []
  | item :: rest =>
      item_block_as_specified latex_sections prev_section prev_topic item ++
      body_as_specified latex_sections (section item) (topic item) rest
  end.

Definition parts_as_specified (consort_items : list ConsortItem)
    (latex_sections : gmap string string) : list string :=
  [PREAMBLE tpl; ""; BEGIN_DOCUMENT tpl; ""] ++
  body_as_specified latex_sections "" "" consort_items ++
  [""; CONSORT_TABLE_HEADER tpl] ++
  (table_row <$> consort_items) ++
  [CONSORT_TABLE_FOOTER tpl; ""; END_DOCUMENT tpl].

End Assembler.

End Latex.

(** ** agent/state.py, agent/nodes.py, agent/graph.py *)

Module Agent.
Import Item Latex.

Record RetrievedChunkDict : Type := {
  text : string;
  score : Z;
  source_file : string;
  page_number : Z;
}.

Record AgentState : Type := {
  consort_items : list ConsortItem;
  current_item_index : nat;
  research_queries : json;
  retrieved_chunks : list RetrievedChunkDict;
  unfamiliar_terms : json;
  web_search_results : gmap key string;
  evaluation_result : json;
  hop_count : nat;
  section_drafts : gmap string string;
  latex_sections : gmap string string;
  final_latex : string;
}.

(** A node returns a partial state: a dict with some of the keys.  LangGraph
    writes each returned key over the state (no reducer is declared). *)
Inductive assignment : Type :=
  | Set_current_item_index (v : nat)
  | Set_research_queries (v : json)
  | Set_retrieved_chunks (v : list RetrievedChunkDict)
  | Set_unfamiliar_terms (v : json)
  | Set_web_search_results (v : gmap key string)
  | Set_evaluation_result (v : json)
  | Set_hop_count (v : nat)
  | Set_section_drafts (v : gmap string string)
  | Set_latex_sections (v : gmap string string)
  | Set_final_latex (v : string).

Definition assign (s : AgentState) (a : assignment) : AgentState :=
  let '(Build_AgentState items idx queries chunks terms defs verdict hops drafts latex final) := s in
  match a with
  | Set_current_item_index v => Build_AgentState items v queries chunks terms defs verdict hops drafts latex final
  | Set_research_queries v => Build_AgentState items idx v chunks terms defs verdict hops drafts latex final
  | Set_retrieved_chunks v => Build_AgentState items idx queries v terms defs verdict hops drafts latex final
  | Set_unfamiliar_terms v => Build_AgentState items idx queries chunks v defs verdict hops drafts latex final
  | Set_web_search_results v => Build_AgentState items idx queries chunks terms v verdict hops drafts latex final
  | Set_evaluation_result v => Build_AgentState items idx queries chunks terms defs v hops drafts latex final
  | Set_hop_count v => Build_AgentState items idx queries chunks terms defs verdict v drafts latex final
  | Set_section_drafts v => Build_AgentState items idx queries chunks terms defs verdict hops v latex final
  | Set_latex_sections v => Build_AgentState items idx queries chunks terms defs verdict hops drafts v final
  | Set_final_latex v => Build_AgentState items idx queries chunks terms defs verdict hops drafts latex v
  end.

Definition merge (s : AgentState) (update : list assignment) : AgentState :=
  foldl assign s update.

(** What a chat completion is asked: the data interpolated into the prompt
    of each node. *)
Inductive request : Type :=
  | PlanRequest (item : ConsortItem)
  | EvaluateRequest (item : ConsortItem) (evidence : list RetrievedChunkDict)
  | DraftRequest (item : ConsortItem) (evidence : list RetrievedChunkDict)
      (definitions : gmap key string)
  | LatexRequest (draft : string).

(** The collaborators of one run.  The first index is the super-step of the
    graph, the second the position of the call within that step. *)
Record World : Type := {
  json_loads : string → option json;
  chat : nat → nat → request → outcome string;
  embed : nat → nat → json → outcome (list Z);
  qdrant_search : nat → nat → list Z → nat → outcome (list Retrieval.ScoredPoint);
  you_results : nat → nat → string → outcome YouSearch.raw_results;
  (* [str(v)] for a list or an object [v], as an f-string formats it *)
  container_str : json → string;
}.

Section Nodes.
Context (tpl : Templates) (w : World).

(** [state["consort_items"][idx]] *)
Definition current_item (state : AgentState) : outcome ConsortItem :=
  match consort_items state !! current_item_index state with
  | Some item => Ok item
  | None => Raise IndexError
  end.

(** Lines 139-146 of [plan_research]: the planner's text as a query list. *)
Definition parse_queries (raw : string) : json :=
  match json_loads w raw with
  | Some (JList l) => JList l
  | Some _ => JList [JStr raw]
  | None => JList [JStr raw]
  end.

Definition plan_research (t : nat) (state : AgentState) : outcome (list assignment) :=
  item ← current_item state;
  raw ← chat w t 0 (PlanRequest item);
  let queries := parse_queries raw in
  Ok [ Set_research_queries queries;
       Set_retrieved_chunks [];
       Set_hop_count 0;
       Set_evaluation_result (JStr "");
       Set_unfamiliar_terms (JList []);
       Set_web_search_results (web_search_results state) ].

Definition chunk_dict (c : Retrieval.RetrievedChunk) : RetrievedChunkDict :=
  {| text := Retrieval.text c;
     score := Retrieval.score c;
     source_file := Retrieval.source_file c;
     page_number := Retrieval.page_number c |}.

(** The merge loop of [retrieve]; [seen] is rebuilt from [existing]. *)
Definition merge_chunk (acc : gset string * list RetrievedChunkDict) (cd : RetrievedChunkDict)
    : gset string * list RetrievedChunkDict :=
  let '(seen, existing) := acc in
  if decide (text cd ∈ seen) then acc
  else ({[text cd]} ∪ seen, existing ++ [cd]).

Definition merge_chunks (existing chunk_dicts : list RetrievedChunkDict)
    : list RetrievedChunkDict :=
  (foldl merge_chunk (list_to_set (text <$> existing), existing) chunk_dicts).2.

Definition search_at (t i : nat) (query : json) (top_k : nat)
    : outcome (list Retrieval.RetrievedChunk) :=
  Retrieval.search (embed w t i) (qdrant_search w t i) query top_k.

Definition retrieve (t : nat) (state : AgentState) : outcome (list assignment) :=
  let queries := research_queries state in
  chunks ← Retrieval.multi_query_search (search_at t) queries 5;
  let chunk_dicts := fmap (M:=list) chunk_dict chunks in
  let existing := merge_chunks (retrieved_chunks state) chunk_dicts in
  Ok [ Set_retrieved_chunks existing;
       Set_hop_count (hop_count state + 1)%nat ].

(** Lines 255-259 of [evaluate]: the evaluator's text as a result object. *)
Definition parse_evaluation (raw : string) : json :=
  match json_loads w raw with
  | Some result => result
  | None =>
      JDict [ ("verdict", JStr "sufficient");
              ("details", JStr raw);
              ("unfamiliar_terms", JList []);
              ("follow_up_queries", JList []) ]
  end.

(** [result.get(key, default)]: only a dict has [get]. *)
Definition result_get (result : json) (key : string) (default : json) : outcome json :=
  match result with
  | JDict kvs => Ok (dict_get kvs key default)
  | _ => Raise AttributeError
  end.

(** Lines 261-266: the hop ceiling. *)
Definition force_sufficient (verdict : json) (hop_count : nat) : json :=
  if eq_str verdict "need_more" && bool_decide (3 ≤ hop_count)%nat
  then JStr "sufficient"
  else verdict.

Definition truncate_text (c : RetrievedChunkDict) : RetrievedChunkDict :=
  {| text := substring 0 500 (text c);
     score := score c;
     source_file := source_file c;
     page_number := page_number c |}.

Definition evaluate (t : nat) (state : AgentState) : outcome (list assignment) :=
  item ← current_item state;
  let chunks := retrieved_chunks state in
  let hop_count := hop_count state in
  raw ← chat w t 0 (EvaluateRequest item (truncate_text <$> take 15 chunks));
  let result := parse_evaluation raw in
  verdict ← result_get result "verdict" (JStr "sufficient");
  let verdict := force_sufficient verdict hop_count in
  follow_ups ← result_get result "follow_up_queries" (JList []);
  unfamiliar ← result_get result "unfamiliar_terms" (JList []);
  _ ← len unfamiliar;
  _ ← len follow_ups;
  let update := [ Set_evaluation_result verdict; Set_unfamiliar_terms unfamiliar ] in
  if truthy follow_ups
  then Ok (update ++ [Set_research_queries follow_ups])
  else Ok update.

Definition web_search (t : nat) (state : AgentState) : outcome (list assignment) :=
  let terms := unfamiliar_terms state in
  if negb (truthy terms)
  then Ok [ Set_web_search_results (web_search_results state) ]
  else
    new_defs ← YouSearch.hydrate_terms (container_str w) (you_results w t) terms;
    (* {**old, **new_defs}: a new definition replaces an old one *)
    let merged := new_defs ∪ web_search_results state in
    Ok [ Set_web_search_results merged;
         Set_evaluation_result (JStr "sufficient") ].

(** The request that [synthesize] sends to the drafting model. *)
Definition synthesize_request (item : ConsortItem) (state : AgentState) : request :=
  DraftRequest item (take 20 (retrieved_chunks state)) (web_search_results state).

Definition synthesize (t : nat) (state : AgentState) : outcome (list assignment) :=
  let idx := current_item_index state in
  item ← current_item state;
  draft ← chat w t 0 (synthesize_request item state);
  let drafts := <[id item := draft]> (section_drafts state) in
  let next_idx := (idx + 1)%nat in
  Ok [ Set_section_drafts drafts;
       Set_current_item_index next_idx ].

Definition no_evidence_comment (item_id : string) : string :=
  "% No evidence found for CONSORT item " +:+ item_id +:+ newline.

(** The [for item in consort_items] loop of [generate_latex]; the [k]-th
    item is formatted by the [k]-th chat reply of the step. *)
Fixpoint latex_loop (t k : nat) (drafts : gmap string string)
    (items : list ConsortItem) (latex_sections : gmap string string)
    : outcome (gmap string string) :=
  match items with
  | [] => Ok latex_sections
  | item :: rest =>
      let item_id := id item in
      let draft := default "" (drafts !! item_id) in
      if decide (draft = "")
      then latex_loop t (S k) drafts rest
             (<[item_id := no_evidence_comment item_id]> latex_sections)
      else
        latex_fragment ← chat w t k (LatexRequest draft);
        latex_loop t (S k) drafts rest (<[item_id := latex_fragment]> latex_sections)
  end.

Definition generate_latex (t : nat) (state : AgentState) : outcome (list assignment) :=
  let drafts := section_drafts state in
  let consort_items := consort_items state in
  latex_sections ← latex_loop t 0 drafts consort_items ∅;
  let final_latex := sections_to_latex tpl consort_items latex_sections in
  Ok [ Set_latex_sections latex_sections;
       Set_final_latex final_latex ].

(** *** graph.py *)

Inductive node : Type :=
  | n_plan_research
  | n_retrieve
  | n_evaluate
  | n_web_search
  | n_synthesize
  | n_generate_latex
  | END.

#[global] Instance node_eq_dec : EqDecision node.
Proof. solve_decision. Defined.

Definition _route_after_evaluate (state : AgentState) : node :=
  let verdict := evaluation_result state in
  if eq_str verdict "need_more" then n_retrieve
  else if eq_str verdict "need_web" then n_web_search
  else n_synthesize.

Definition _route_after_synthesize (state : AgentState) : node :=
  let idx := current_item_index state in
  let total := length (consort_items state) in
  if bool_decide (idx < total)%nat then n_plan_research else n_generate_latex.

Definition entry_point : node := n_plan_research.

(** The function registered for a node by [add_node]. *)
Definition node_fn (n : node) (t : nat) (state : AgentState) : outcome (list assignment) :=
  match n with
  | n_plan_research => plan_research t state
  | n_retrieve => retrieve t state
  | n_evaluate => evaluate t state
  | n_web_search => web_search t state
  | n_synthesize => synthesize t state
  | n_generate_latex => generate_latex t state
  | END => Ok []
  end.

(** The edges of [build_graph], read on the state after the node's update. *)
Definition next_node (n : node) (state : AgentState) : node :=
  match n with
  | n_plan_research => n_retrieve
  | n_retrieve => n_evaluate
  | n_evaluate => _route_after_evaluate state
  | n_web_search => n_evaluate
  | n_synthesize => _route_after_synthesize state
  | n_generate_latex => END
  | END => END
  end.

Definition config : Type := node * AgentState.

(** One super-step: run the node, merge its update, follow the edge. *)
Definition step (t : nat) (c : config) : outcome config :=
  let '(n, state) := c in
  update ← node_fn n t state;
  let state' := merge state update in
  Ok (next_node n state', state').

Definition create_initial_state (items : list ConsortItem) : AgentState :=
  {| consort_items := items;
     current_item_index := 0;
     research_queries := JList [];
     retrieved_chunks := [];
     unfamiliar_terms := JList [];
     web_search_results := ∅;
     evaluation_result := JStr "";
     hop_count := 0;
     section_drafts := ∅;
     latex_sections := ∅;
     final_latex := "" |}.

Inductive run_result : Type :=
  | Finished (final_state : AgentState)
  | Failed (e : exn)
  | Running (c : config).

(** [app.invoke]: super-steps until [END]; [fuel] bounds their number. *)
Fixpoint run (fuel : nat) (t : nat) (c : config) : run_result :=
  match c.1 with
  | END => Finished c.2
  | _ =>
      match fuel with
      | 0 => Running c
      | S fuel' =>
          match step t c with
          | Raise e => Failed e
          | Ok c' => run fuel' (S t) c'
          end
      end
  end.

Definition invoke (fuel : nat) (items : list ConsortItem) : run_result :=
  run fuel 0 (entry_point, create_initial_state items).

(** The configurations a run passes through, with the nodes executed so
    far (oldest first). *)
Inductive reachable (items : list ConsortItem) : list node → config → Prop :=
  | reach_init :
      reachable items [] (entry_point, create_initial_state items)
  | reach_step hist c c' :
      reachable items hist c →
      c.1 ≠ END →
      step (length hist) c = Ok c' →
      reachable items (hist ++ [c.1]) c'.

(** Specification-side helpers. *)

(** The verdict as the Judgment engine gave it at step [t], before the hop
    ceiling is applied. *)
Definition engine_verdict (t : nat) (state : AgentState) : outcome json :=
  item ← current_item state;
  raw ← chat w t 0 (EvaluateRequest item (truncate_text <$> take 15 (retrieved_chunks state)));
  result_get (parse_evaluation raw) "verdict" (JStr "sufficient").

(** The nodes that [run] executes, in order. *)
Fixpoint trace (fuel : nat) (t : nat) (c : config) : list node :=
  match c.1 with
  | END => []
  | n =>
      match fuel with
      | 0 => []
      | S fuel' =>
          match step t c with
          | Raise e => [n]
          | Ok c' => n :: trace fuel' (S t) c'
          end
      end
  end.

Definition invoke_trace (fuel : nat) (items : list ConsortItem) : list node :=
  trace fuel 0 (entry_point, create_initial_state items).

(** The invariant of the hop counter: at most three hops, and fewer than
    three whenever the next node is [retrieve]. *)
Definition hop_inv (c : config) : Prop :=
  hop_count c.2 ≤ 3 ∧ (c.1 = n_retrieve → hop_count c.2 < 3).

(** How often [synthesize] ran in a history. *)
Definition count_synthesize (hist : list node) : nat :=
  length (filter (λ n, n = n_synthesize) hist).

(** The invariant of the outer loop over the checklist. *)
Definition cover_inv (items : list ConsortItem) (hist : list node) (c : config) : Prop :=
  let idx := current_item_index c.2 in
  consort_items c.2 = items ∧
  count_synthesize hist = idx ∧
  dom (section_drafts c.2) = list_to_set (id <$> take idx items) ∧
  match c.1 with
  | n_plan_research => idx ≤ length items
  | n_retrieve | n_evaluate | n_web_search | n_synthesize => idx < length items
  | n_generate_latex | END => idx = length items
  end.

(** [advance k hist c]: [k] super-steps from [c], extending the history. *)
Fixpoint advance (k : nat) (hist : list node) (c : config) : option (list node * config) :=
  match k with
  | 0 => Some (hist, c)
  | S k' =>
      if decide (c.1 = END) then None
      else match step (length hist) c with
           | Ok c' => advance k' (hist ++ [c.1]) c'
           | Raise _ => None
           end
  end.

End Nodes.

End Agent.

(** ** Agent/main.py: the [generate] command *)

Module Cli.
Import Item Latex Agent.

(** How [cmd_generate] ends: the report is written, the process exits with
    a status, an exception leaves [app.invoke], or the graph is still
    running when the fuel of the evaluation is used up. *)
Inductive cli_result : Type :=
  | Written (final_latex : string)
  | Exit (status : nat)
  | Uncaught (e : exn)
  | StillRunning.

(** [cmd_generate], from [app.invoke(initial_state)] on; the checklist is
    the one [create_initial_state] loaded. *)
Definition cmd_generate (tpl : Templates) (w : World) (fuel : nat)
    (items : list ConsortItem) : cli_result :=
  match invoke tpl w fuel items with
  | Finished final_state =>
      let final_latex := final_latex final_state in
      if decide (final_latex = "") then Exit 1 else Written final_latex
  | Failed e => Uncaught e
  | Running _ => StillRunning
  end.

End Cli.

(** ** The escape of one character (specification side) *)

Module LatexSpec.

(** What [_escape_latex] makes of a single character. *)
Definition escape_char (a : ascii) : string :=
  if decide (a = "&"%char) then "\&"
  else if decide (a = "%"%char) then "\%"
  else if decide (a = "$"%char) then "\$"
  else if decide (a = "#"%char) then "\#"
  else if decide (a = "_"%char) then "\_"
  else if decide (a = "{"%char) then "\{"
  else if decide (a = "}"%char) then "\}"
  else if decide (a = "~"%char) then "\textasciitilde{}"
  else if decide (a = "^"%char) then "\textasciicircum{}"
  else String a EmptyString.

Definition special (a : ascii) : Prop :=
  a ∈ ["&"; "%"; "$"; "#"; "_"; "{"; "}"; "~"; "^"]%char.

Fixpoint string_to_list (s : string) : list ascii :=
  match s with
  | EmptyString => []
  | String a rest => a :: string_to_list rest
  end.

End LatexSpec.

(** ** What [hydrate_terms] stores for a term (specification side) *)

Module HydrationSpec.
Import YouSearch.

(** The definition that the loop of [hydrate_terms] writes for a term, given
    the results of its lookup. *)
Definition definition_of (results : list WebSearchResult) (term_str : string) : string :=
  if bool_decide (results ≠ []) then combine_snippets results
  else placeholder_definition term_str.

End HydrationSpec.

(** ** Measures on runs of the graph (specification side) *)

Module RunSpec.
Import Item Latex Agent.

Definition count_node (n : node) (hist : list node) : nat :=
  length (filter (λ m, m = n) hist).

(** The retrievals executed since the last [plan_research]. *)
Definition retrievals_since_plan (hist : list node) : nat :=
  foldl (λ acc n,
           if decide (n = n_plan_research) then 0
           else if decide (n = n_retrieve) then S acc
           else acc) 0 hist.

(** A measure that every super-step except the return from [web_search]
    increases: eight units per finished item, and within an item the plan,
    then retrieval and evaluation alternating, then synthesis. *)
Definition progress (total : nat) (c : config) : nat :=
  let idx := current_item_index c.2 in
  let hops := hop_count c.2 in
  match c.1 with
  | n_plan_research => 8 * idx
  | n_retrieve => 8 * idx + 1 + 2 * hops
  | n_evaluate => 8 * idx + 2 * hops
  | n_web_search => 8 * idx + 2 * hops + 1
  | n_synthesize => 8 * idx + 7
  | n_generate_latex => 8 * total
  | END => 8 * total + 1
  end.

Definition is_running (r : run_result) : bool :=
  match r with Running _ => true | _ => false end.

(** The invariant of the merge loop of [retrieve]: [seen] holds exactly the
    texts of [existing]. *)
Definition seen_consistent (acc : gset string * list RetrievedChunkDict) : Prop :=
  acc.1 = list_to_set (text <$> acc.2).

End RunSpec.

(** ** file_reader.py *)

Module FileReader.

Definition CHUNK_SIZE : Z := 800.
Definition CHUNK_OVERLAP : Z := 100.

Section Text.
(** Characters are abstract; [isspace] is Python's notion of white space. *)
Context {C : Type} (isspace : C → bool).

(** [str.strip()], as [lstrip] followed by [rstrip]. *)
Fixpoint lstrip (s : list C) : list C :=
  match s with
  | c :: s' => if isspace c then lstrip s' else s
  | [] => []
  end.

Definition rstrip (s : list C) : list C := reverse (lstrip (reverse s)).

Definition strip (s : list C) : list C := rstrip (lstrip s).

(** [not s.strip()] *)
Definition blank (s : list C) : bool :=
  match strip s with [] => true | _ :: _ => false end.

(** An index of a slice: a negative index counts from the end, and the
    result is clamped to [0 .. len]. *)
Definition slice_index (len i : Z) : Z :=
  if bool_decide (i < 0)%Z then Z.max (i + len) 0 else Z.min i len.

(** [s[start:stop]] *)
Definition slice (s : list C) (start stop : Z) : list C :=
  let a := slice_index (Z.of_nat (length s)) start in
  let b := slice_index (Z.of_nat (length s)) stop in
  take (Z.to_nat (b - a)) (drop (Z.to_nat a) s).

(** The [while start < len(text)] loop of [chunk_text]; [None] when the
    fuel runs out before the loop ends. *)
Fixpoint chunk_loop (fuel : nat) (text : list C) (chunk_size overlap : Z)
    (start : Z) (chunks : list (list C)) : option (list (list C)) :=
  match fuel with
  | 0 => None
  | S fuel =>
      if bool_decide (start < Z.of_nat (length text))%Z then
        let end_ := (start + chunk_size)%Z in
        let chunk := slice text start end_ in
        if blank chunk then
          chunk_loop fuel text chunk_size overlap (end_ - overlap)%Z chunks
        else
          chunk_loop fuel text chunk_size overlap (end_ - overlap)%Z
            (chunks ++ [chunk])
      else Some chunks
  end.

Definition chunk_text (fuel : nat) (text : list C) (chunk_size overlap : Z)
    : option (list (list C)) :=
  if match text with [] => true | _ => false end || blank text then Some []
  else chunk_loop fuel (strip text) chunk_size overlap 0 [].

(** The window of [chunk_size] characters that starts at the [k]-th
    multiple of the stride [chunk_size - overlap] (specification side). *)
Definition window (text : list C) (chunk_size overlap : Z) (k : nat) : list C :=
  take (Z.to_nat chunk_size) (drop (k * Z.to_nat (chunk_size - overlap)) text).

End Text.

End FileReader.

(** ** ingest/chunker.py, ingest/uploader.py *)

Module Ingest.

(** A document segment or a chunk: [{"text": ..., "metadata": {...}}]. *)
Record Segment : Type := {
  text : string;
  metadata : gmap string json;
}.

(** *** chunker.py *)

Section Chunker.
(** [splitter.split_text], the splitter being built once from [chunk_size]
    and [chunk_overlap]. *)
Context (split_text : string → list string).

(** The inner loop [for idx, chunk_text in enumerate(splits)]. *)
Definition chunks_of (doc : Segment) : list Segment :=
  imap (λ idx chunk_text,
          {| text := chunk_text;
             metadata := <["chunk_index" := JNum (Z.of_nat idx)]> (metadata doc) |})
       (split_text (text doc)).

Definition chunk_documents (documents : list Segment) : list Segment :=
  foldl (λ chunks doc, chunks ++ chunks_of doc) [] documents.

End Chunker.

(** *** uploader.py *)

Definition BATCH_SIZE : nat := 10.

Record PointStruct : Type := {
  id : string;
  vector : list Z;
  payload : gmap string json;
}.

Record Settings : Type := {
  qdrant_collection_name : string;
  embedding_dimensions : Z;
}.

(** The calls [upload_chunks] makes to the vector store and to the
    embedding service, in the order it makes them. *)
Inductive call : Type :=
  | GetCollections
  | CreateCollection (collection_name : string) (size : Z)
  | EmbeddingsCreate (texts : list string)
  | Upsert (collection_name : string) (points : list PointStruct).

(** What the collaborators answer.  The replies to the embedding and upsert
    calls are indexed by the batch; [uuid4 n] is the [n]-th identifier
    drawn. *)
Record Services : Type := {
  get_collections : outcome (list string);
  create_collection : outcome ();
  embeddings_create : nat → list string → outcome (list (list Z));
  upsert : nat → list PointStruct → outcome ();
  uuid4 : nat → string;
}.

Section Uploader.
Context (s : Services) (settings : Settings).

Definition _ensure_collection (collection_name : string) (vector_size : Z)
    : list call * outcome () :=
  match get_collections s with
  | Raise e => ([GetCollections], Raise e)
  | Ok collections =>
      if bool_decide (collection_name ∈ collections) then
        ([GetCollections], Ok ())
      else
        ([GetCollections; CreateCollection collection_name vector_size],
         create_collection s)
  end.

(** [{"text": chunk["text"], **chunk["metadata"]}]: a key of the metadata
    replaces an earlier key of the same name. *)
Definition payload_of (chunk : Segment) : gmap string json :=
  metadata chunk ∪ {[ "text" := JStr (text chunk) ]}.

(** The comprehension over [zip(batch, embeddings)]; [drawn] identifiers
    have been drawn before. *)
Definition points_of (drawn : nat) (batch : list Segment)
    (embeddings : list (list Z)) : list PointStruct :=
  imap (λ i ce, {| id := uuid4 s (drawn + i);
                   vector := ce.2;
                   payload := payload_of ce.1 |})
       (zip batch embeddings).

(** [range(0, n, BATCH_SIZE)] *)
Definition batch_starts (n : nat) : list nat :=
  (λ k, k * BATCH_SIZE) <$> seq 0 ((n + BATCH_SIZE - 1) / BATCH_SIZE).

(** The [for batch_start in range(...)] loop, from batch number [batch_no]
    on; the result is the calls made and the value returned or the exception
    raised. *)
Fixpoint upload_batches (chunks : list Segment) (starts : list nat)
    (batch_no total_upserted : nat) : list call * outcome nat :=
  match starts with
  | [] => ([], Ok total_upserted)
  | batch_start :: starts =>
      let batch := take BATCH_SIZE (drop batch_start chunks) in
      let texts := text <$> batch in
      match embeddings_create s batch_no texts with
      | Raise e => ([EmbeddingsCreate texts], Raise e)
      | Ok embeddings =>
          let points := points_of total_upserted batch embeddings in
          let calls :=
            [EmbeddingsCreate texts;
             Upsert (qdrant_collection_name settings) points] in
          match upsert s batch_no points with
          | Raise e => (calls, Raise e)
          | Ok _ =>
              let rest := upload_batches chunks starts (S batch_no)
                            (total_upserted + length points) in
              (calls ++ rest.1, rest.2)
          end
      end
  end.

(** [upload_chunks(chunks, settings)]; building the two clients calls
    neither service. *)
Definition upload_chunks (chunks : list Segment) : list call * outcome nat :=
  let ensured :=
    _ensure_collection (qdrant_collection_name settings)
      (embedding_dimensions settings) in
  match ensured.2 with
  | Raise e => (ensured.1, Raise e)
  | Ok _ =>
      let uploaded :=
        upload_batches chunks (batch_starts (length chunks)) 0 0 in
      (ensured.1 ++ uploaded.1, uploaded.2)
  end.

End Uploader.

(** The points handed to the store by a sequence of calls (specification
    side). *)
Definition sent (calls : list call) : list PointStruct :=
  calls ≫= λ c, match c with Upsert _ points => points | _ => [] end.

(** The batches of texts handed to the embedding service (specification
    side). *)
Definition embedded (calls : list call) : list (list string) :=
  calls ≫= λ c, match c with EmbeddingsCreate texts => [texts] | _ => [] end.

End Ingest.

(** ** data_generator/orchestrator.py *)

Module Orchestrator.

(** The checkpoint file: missing, present but not loadable, or holding the
    JSON value that [json.load] returns for it. *)
Inductive file : Type :=
  | Absent
  | Unreadable
  | Saved (content : json).

Definition empty_checkpoint : json :=
  JDict [("trials_done", JList []); ("total_words", JNum 0);
         ("last_trial_id", JNull)].

Definition load_checkpoint (f : file) : json :=
  match f with
  | Absent => empty_checkpoint
  | Unreadable => empty_checkpoint
  | Saved content => content
  end.

Definition save_checkpoint (trials_done total_words : json)
    (last_trial_id : string) : file :=
  Saved (JDict [("trials_done", trials_done); ("total_words", total_words);
                ("last_trial_id", JStr last_trial_id)]).

(** [checkpoint.get(key, default)]: only an object has [get]. *)
Definition get (checkpoint : json) (key : string) (default : json)
    : outcome json :=
  match checkpoint with
  | JDict kvs => Ok (dict_get kvs key default)
  | _ => Raise AttributeError
  end.

Fixpoint is_prefix (p s : string) : bool :=
  match p, s with
  | EmptyString, _ => true
  | String a p', String b s' => bool_decide (a = b) && is_prefix p' s'
  | String _ _, EmptyString => false
  end.

Fixpoint is_substring (p s : string) : bool :=
  is_prefix p s ||
  match s with
  | EmptyString => false
  | String _ s' => is_substring p s'
  end.

(** [trial_id in trials_done]: an element of a list, a substring of a
    string, a key of an object; a [TypeError] on anything else. *)
Definition contains (trials_done : json) (trial_id : string) : outcome bool :=
  match trials_done with
  | JList l => Ok (existsb (λ v, eq_str v trial_id) l)
  | JStr s => Ok (is_substring trial_id s)
  | JDict kvs => Ok (existsb (λ kv, bool_decide (kv.1 = trial_id)) kvs)
  | _ => Raise TypeError
  end.

(** A value that takes part in integer arithmetic. *)
Definition as_int (v : json) : option Z :=
  match v with
  | JNum n => Some n
  | JBool b => Some (if b then 1 else 0)%Z
  | _ => None
  end.

(** [total_words += words] *)
Definition add_words (total_words : json) (words : Z) : outcome json :=
  match as_int total_words with
  | Some n => Ok (JNum (n + words))
  | None => Raise TypeError
  end.

(** [trials_done.append(trial_id)]: only a list has [append]. *)
Definition append (trials_done : json) (trial_id : string) : outcome json :=
  match trials_done with
  | JList l => Ok (JList (l ++ [JStr trial_id]))
  | _ => Raise AttributeError
  end.

(** The format [03d]: at least three characters, the sign included, padded
    with zeros. *)
Fixpoint zeros (n : nat) : string :=
  match n with
  | 0 => ""
  | S n => String "0" (zeros n)
  end.

Definition zero_pad (width : nat) (digits : string) : string :=
  zeros (width - String.length digits) +:+ digits.

Definition format_03d (n : Z) : string :=
  match n with
  | Zneg p => "-" +:+ zero_pad 2 (pretty (Npos p))
  | _ => zero_pad 3 (pretty (Z.to_N n))
  end.

(** [f"trial_{i+1:03d}"] *)
Definition trial_id (i : Z) : string := "trial_" +:+ format_03d (i + 1).

(** The two variables [Config.api_key] reads. *)
Record Environment : Type := {
  OPENAI_API_KEY : option string;
  API_KEY : option string;
}.

(** [os.environ.get("OPENAI_API_KEY") or os.environ.get("API_KEY")] *)
Definition key_of (env : Environment) : option string :=
  match OPENAI_API_KEY env with
  | Some key => if bool_decide (key = "") then API_KEY env else Some key
  | None => API_KEY env
  end.

(** [Config.api_key]; [None] stands for the [ValueError] of a missing or
    empty key. *)
Definition api_key (env : Environment) : option string :=
  match key_of env with
  | Some key => if bool_decide (key = "") then None else Some key
  | None => None
  end.

(** How [run] ends: with its dictionary; with the [ValueError] of
    [Config.api_key]; with the [AttributeError] or [TypeError] of an
    operation on a value of the checkpoint; with the exception of a trial;
    or with the division by a zero [words_per_page]. *)
Inductive ending : Type :=
  | Returned (trials_done total_words : json) (total_pages : Z)
  | ValueError
  | Raised (e : exn)
  | TrialFailed (e : exn)
  | ZeroDivisionError.

(** The checkpoint file left behind, the indices [run_trial] was called
    for, in order, and the ending. *)
Record run_result : Type := {
  disk : file;
  called : list Z;
  ended : ending;
}.

Section Run.
(** [run_trial i] is what generating trial [i] returns: its word count, or
    the exception it raises. *)
Context (run_trial : Z → outcome Z) (words_per_page : Z) (env : Environment).

(** [total_words // config.words_per_page] *)
Definition floor_div (total_words : json) : ending + Z :=
  match as_int total_words with
  | None => inl (Raised TypeError)
  | Some n =>
      if bool_decide (words_per_page = 0%Z) then inl ZeroDivisionError
      else inr (n `div` words_per_page)%Z
  end.

(** The [return] after the loop. *)
Definition return_dictionary (trials_done total_words : json) : ending :=
  match floor_div total_words with
  | inl raised => raised
  | inr total_pages => Returned trials_done total_words total_pages
  end.

(** The [for i in range(...)] loop and the [return] after it. *)
Fixpoint run_loop (indices : list Z) (disk : file)
    (trials_done total_words : json) : run_result :=
  match indices with
  | [] =>
      {| disk := disk; called := [];
         ended := return_dictionary trials_done total_words |}
  | i :: indices =>
      match contains trials_done (trial_id i) with
      | Raise e => {| disk := disk; called := []; ended := Raised e |}
      | Ok true => run_loop indices disk trials_done total_words
      | Ok false =>
          match run_trial i with
          | Raise e => {| disk := disk; called := [i]; ended := TrialFailed e |}
          | Ok words =>
              match add_words total_words words with
              | Raise e => {| disk := disk; called := [i]; ended := Raised e |}
              | Ok total_words =>
                  match append trials_done (trial_id i) with
                  | Raise e =>
                      {| disk := disk; called := [i]; ended := Raised e |}
                  | Ok trials_done =>
                      let disk :=
                        save_checkpoint trials_done total_words (trial_id i) in
                      match floor_div total_words with
                      | inl raised =>
                          {| disk := disk; called := [i]; ended := raised |}
                      | inr _ =>
                          let rest :=
                            run_loop indices disk trials_done total_words in
                          {| disk := Orchestrator.disk rest;
                             called := i :: called rest;
                             ended := ended rest |}
                      end
                  end
              end
          end
      end
  end.

Definition run (disk : file) (num_trials : Z) (resume : bool)
    (start_index : Z) : run_result :=
  let checkpoint := if resume then load_checkpoint disk else JDict [] in
  match get checkpoint "trials_done" (JList []) with
  | Raise e => {| disk := disk; called := []; ended := Raised e |}
  | Ok trials_done =>
      match get checkpoint "total_words" (JNum 0) with
      | Raise e => {| disk := disk; called := []; ended := Raised e |}
      | Ok total_words =>
          match api_key env with
          | None => {| disk := disk; called := []; ended := ValueError |}
          | Some _ =>
              run_loop (seqZ start_index num_trials) disk trials_done
                total_words
          end
      end
  end.

(** The words of a trial that was generated; [0] for one that failed
    (specification side). *)
Definition words_of (i : Z) : Z :=
  match run_trial i with Ok words => words | Raise _ => 0%Z end.

Definition generated (called : list Z) : list Z :=
  filter (λ i, is_ok (run_trial i) = true) called.

End Run.

(** The identifiers of a list of trials, as the checkpoint lists them
    (specification side). *)
Definition ids (trials : list Z) : list json :=
  (λ i, JStr (trial_id i)) <$> trials.

End Orchestrator.

(** ** Sample inputs used by the examples below *)

Module Samples.
Import Retrieval.

Definition chunk (t : string) (sc : Z) : RetrievedChunk :=
  {| text := t; score := sc; source_file := "protocol.pdf"; page_number := 1;
     metadata := [] |}.

(** A store that answers the [i]-th query of an invocation with the [i]-th
    list of [replies] (and with nothing beyond them). *)
Definition store (replies : list (list RetrievedChunk))
    : nat → json → nat → outcome (list RetrievedChunk) :=
  λ i _ _, Ok (default [] (replies !! i)).

Definition two_queries : json := JList [JStr "primary outcome"; JStr "sample size"].

(** *** A checklist, templates and worlds *)

Import Item Latex Agent.

Definition dq : string := String "034"%char EmptyString.

Definition quoted (s : string) : string := dq +:+ s +:+ dq.

(** JSON texts and the values [json.loads] gives them. *)
Definition js_queries : string :=
  "[" +:+ quoted "primary outcome" +:+ ", " +:+ quoted "sample size" +:+ "]".
Definition js_verdict (v : string) : string :=
  "{" +:+ quoted "verdict" +:+ ": " +:+ quoted v +:+ "}".
Definition js_need_web : string :=
  "{" +:+ quoted "verdict" +:+ ": " +:+ quoted "need_web" +:+ ", "
      +:+ quoted "unfamiliar_terms" +:+ ": [" +:+ quoted "ANCOVA" +:+ "]}".

(** [json.loads] on the texts used here; every other text of the examples
    is not JSON. *)
Definition sample_loads (s : string) : option json :=
  if decide (s = "[]") then Some (JList [])
  else if decide (s = "{}") then Some (JDict [])
  else if decide (s = js_queries)
    then Some (JList [JStr "primary outcome"; JStr "sample size"])
  else if decide (s = js_verdict "sufficient")
    then Some (JDict [("verdict", JStr "sufficient")])
  else if decide (s = js_verdict "need_more")
    then Some (JDict [("verdict", JStr "need_more")])
  else if decide (s = js_need_web)
    then Some (JDict [("verdict", JStr "need_web");
                      ("unfamiliar_terms", JList [JStr "ANCOVA"])])
  else None.

Definition sample_templates : Templates :=
  {| PREAMBLE := "\documentclass{article}";
     BEGIN_DOCUMENT := "\begin{document}";
     END_DOCUMENT := "\end{document}";
     SECTION_COMMANDS := ∅;
     CONSORT_TABLE_HEADER := "\begin{longtable}{llll}";
     CONSORT_TABLE_ROW := λ item_id section topic description,
       item_id +:+ " & " +:+ section +:+ " & " +:+ topic +:+ " & " +:+ description;
     CONSORT_TABLE_FOOTER := "\end{longtable}" |}.

Definition item_1a : ConsortItem :=
  {| id := "1a"; section := "Title and abstract"; topic := "Title";
     description := "Identification as a randomised trial"; group := "" |}.

Definition item_6a : ConsortItem :=
  {| id := "6a"; section := "Methods"; topic := "Outcomes";
     description := "Pre-specified primary and secondary outcomes"; group := "" |}.

Definition hit (t : string) (sc : Z) : ScoredPoint :=
  {| hit_payload :=
       Some {| p_text := Some t; p_source_file := Some "protocol.pdf";
               p_page_number := Some 1%Z; p_other := [] |};
     hit_score := sc |}.

(** The text of the two empty containers; the samples hold no other. *)
Definition sample_container_str (v : json) : string :=
  match v with
  | JDict [] => "{}"
  | _ => "[]"
  end.

(** A world whose planner answers two queries, whose store returns one hit
    per query, whose web search returns one sentence, and whose evaluator
    answers [eval_reply t] at step [t]. *)
Definition world_with (eval_reply : nat → string) : World :=
  {| json_loads := sample_loads;
     chat := λ t k req,
       match req with
       | PlanRequest _ => Ok js_queries
       | EvaluateRequest _ _ => Ok (eval_reply t)
       | DraftRequest item _ _ => Ok ("Draft of item " +:+ id item)
       | LatexRequest draft => Ok draft
       end;
     embed := λ _ _ _, Ok [1%Z; 2%Z];
     qdrant_search := λ t i _ _, Ok [hit ("passage " +:+ pretty t +:+ "." +:+ pretty i) 5];
     you_results := λ _ _ _, Ok (YouSearch.RawStr "Analysis of covariance.");
     container_str := sample_container_str |}.

Definition world_sufficient : World := world_with (λ _, js_verdict "sufficient").
Definition world_need_more : World := world_with (λ _, js_verdict "need_more").
Definition world_need_web_twice : World :=
  world_with (λ t, if bool_decide (t < 6)%nat then js_need_web else js_verdict "sufficient").
Definition world_always_need_web : World := world_with (λ _, js_need_web).
Definition world_array_verdict : World := world_with (λ _, "[]").
Definition world_garbage : World := world_with (λ _, "I think the evidence is fine.").

(** The state of item 1a in [world_always_need_web] after a hydration (the
    verdict reads "sufficient"), and after the evaluation that follows it
    (the verdict reads "need_web" again). *)
Definition hydrated_state : AgentState :=
  {| consort_items := [item_1a];
     current_item_index := 0;
     research_queries := two_queries;
     retrieved_chunks :=
       [ {| text := "passage 1.0"; score := 5; source_file := "protocol.pdf";
            page_number := 1 |};
         {| text := "passage 1.1"; score := 5; source_file := "protocol.pdf";
            page_number := 1 |} ];
     unfamiliar_terms := JList [JStr "ANCOVA"];
     web_search_results := {[ KStr "ANCOVA" := "Analysis of covariance." ]};
     evaluation_result := JStr "sufficient";
     hop_count := 1;
     section_drafts := ∅;
     latex_sections := ∅;
     final_latex := "" |}.

Definition flagged_state : AgentState :=
  assign hydrated_state (Set_evaluation_result (JStr "need_web")).

(** A world in which the term ANCOVA is flagged for item 1a (step 2) and
    again for item 6a (step 8), the web search answers only the first of the
    two hydrations (step 3), and the drafting model quotes the definition of
    ANCOVA that its request carries. *)
Definition world_rehydrate : World :=
  {| json_loads := sample_loads;
     chat := λ t k req,
       match req with
       | PlanRequest _ => Ok js_queries
       | EvaluateRequest _ _ =>
           Ok (if bool_decide (t = 2 ∨ t = 8) then js_need_web
               else js_verdict "sufficient")
       | DraftRequest item _ definitions =>
           Ok ("Draft of item " +:+ id item +:+ ". ANCOVA: "
               +:+ default "" (definitions !! KStr "ANCOVA"))
       | LatexRequest draft => Ok draft
       end;
     embed := embed world_sufficient;
     qdrant_search := qdrant_search world_sufficient;
     you_results := λ t _ _,
       if bool_decide (t = 3) then Ok (YouSearch.RawStr "Analysis of covariance.")
       else Raise (UpstreamError "web search down");
     container_str := sample_container_str |}.

(** The same world with the embedding service down. *)
Definition world_store_down : World :=
  {| json_loads := sample_loads;
     chat := chat world_sufficient;
     embed := λ _ _ _, Raise (UpstreamError "embeddings unavailable");
     qdrant_search := qdrant_search world_sufficient;
     you_results := you_results world_sufficient;
     container_str := sample_container_str |}.

Definition item_17a : ConsortItem :=
  {| id := "17a"; section := "Results"; topic := "Outcomes";
     description := "Results for each primary and secondary outcome"; group := "" |}.

(** A world whose evaluator always asks for more and whose store returns the
    same passage for every query. *)
Definition world_same_passage : World :=
  {| json_loads := sample_loads;
     chat := chat world_need_more;
     embed := embed world_need_more;
     qdrant_search := λ _ _ _ _, Ok [hit "the same passage" 5];
     you_results := you_results world_need_more;
     container_str := sample_container_str |}.

(** A world whose planner answers the empty JSON list, and one whose
    planner answers prose. *)
Definition world_empty_plan : World :=
  {| json_loads := sample_loads;
     chat := λ t k req,
       match req with
       | PlanRequest _ => Ok "[]"
       | _ => chat world_sufficient t k req
       end;
     embed := embed world_sufficient;
     qdrant_search := qdrant_search world_sufficient;
     you_results := you_results world_sufficient;
     container_str := sample_container_str |}.

(** A web search whose wrapper returns a [Document] object. *)
Definition document_wrapper : string → outcome YouSearch.raw_results :=
  λ _, Ok (YouSearch.RawList [YouSearch.ItemObject]).

(** A web search that finds pages without any text. *)
Definition silent_wrapper : string → outcome YouSearch.raw_results :=
  λ _, Ok (YouSearch.RawList
             [ YouSearch.ItemDict
                 {| YouSearch.w_snippet := None; YouSearch.w_description := None;
                    YouSearch.w_url := Some "https://example.org/ancova";
                    YouSearch.w_title := Some "ANCOVA" |} ]).

(** *** A text for [chunk_text]: leading and trailing white space, and a
    run of blanks as long as a window *)

Definition sample_text : list ascii :=
  list_ascii_of_string "  ab cd     ef g ".

(** *** Chunks and services for [upload_chunks] *)

Definition twelve_chunks : list Ingest.Segment :=
  (λ i, {| Ingest.text := pretty i;
           Ingest.metadata := {[ "source_file" := JStr "protocol.pdf" ]} |})
    <$> seq 0 12.

Definition sample_settings : Ingest.Settings :=
  {| Ingest.qdrant_collection_name := "trials";
     Ingest.embedding_dimensions := 3 |}.

Definition services_up : Ingest.Services :=
  {| Ingest.get_collections := Ok ["trials"];
     Ingest.create_collection := Ok ();
     Ingest.embeddings_create := λ _ texts, Ok ((λ _, [1; 0; 0]%Z) <$> texts);
     Ingest.upsert := λ _ _, Ok ();
     Ingest.uuid4 := pretty |}.

(** The embedding service refuses the second batch. *)
Definition services_rate_limited : Ingest.Services :=
  {| Ingest.get_collections := Ok [];
     Ingest.create_collection := Ok ();
     Ingest.embeddings_create := λ n texts,
       if bool_decide (n = 1) then Raise (UpstreamError "rate limit")
       else Ok ((λ _, [1; 0; 0]%Z) <$> texts);
     Ingest.upsert := λ _ _, Ok ();
     Ingest.uuid4 := pretty |}.

(** *** Trials for the data generator *)

Definition sample_trials (i : Z) : outcome Z := Ok (1000 + 500 * i)%Z.

Definition trials_offline (i : Z) : outcome Z :=
  Raise (UpstreamError "offline").

Definition sample_environment : Orchestrator.Environment :=
  {| Orchestrator.OPENAI_API_KEY := Some "";
     Orchestrator.API_KEY := Some "sk-test" |}.

(** The second of three trials (index [2]) fails. *)
Definition trials_third_fails (i : Z) : outcome Z :=
  if bool_decide (i = 2%Z) then Raise (UpstreamError "offline")
  else sample_trials i.

(** A checkpoint that lists an earlier trial; one that lists the first
    trial with its words; one that is a list, not an object; and one whose
    list of trials is a string. *)
Definition old_checkpoint : Orchestrator.file :=
  Orchestrator.save_checkpoint (JList [JStr "trial_009"]) (JNum 7) "trial_009".

Definition first_trial_checkpoint : Orchestrator.file :=
  Orchestrator.save_checkpoint (JList [JStr "trial_001"]) (JNum 1000) "trial_001".

Definition array_checkpoint : Orchestrator.file :=
  Orchestrator.Saved (JList []).

Definition string_checkpoint : Orchestrator.file :=
  Orchestrator.Saved (JDict [("trials_done", JStr "none")]).

End Samples.

(** * Properties *)

(** ** The error monad *)

Lemma bind_Ok {A B} (m : outcome A) (f : A → outcome B) (b : B) :
  m ≫= f = Ok b ↔ ∃ a, m = Ok a ∧ f a = Ok b.
Proof.
  destruct m as [a|e]; simpl; split.
  - eauto.
  - by intros (? & [= <-] & ?).
  - done.
  - by intros (? & ? & ?).
Qed.

Ltac inv_bind H :=
  repeat match type of H with
  | _ ≫= _ = Ok _ =>
      let x := fresh "x" in
      let Hx := fresh "Hx" in
      apply bind_Ok in H as (x & Hx & H)
  end.

(** Decompose every hypothesis saying that a monadic computation succeeded. *)
Ltac inv_ok :=
  repeat match goal with
  | H : _ ≫= _ = Ok _ |- _ =>
      let x := fresh "x" in
      let Hx := fresh "Hx" in
      apply bind_Ok in H as (x & Hx & H)
  | H : Raise _ = Ok _ |- _ => discriminate H
  | H : Ok _ = Ok _ |- _ => injection H as H
  end.

(** ** retrieval/client.py: merge, de-duplication and ranking *)

Section RetrievalFacts.
Import Retrieval.

Lemma add_chunk_seen_ok acc c : seen_ok acc → seen_ok (add_chunk acc c).
Proof.
  destruct acc as [seen all]. intros [Hseen Hnd]. simpl in *. subst seen.
  unfold add_chunk. case_decide as Hin; [done|].
  split; simpl.
  - rewrite fmap_app, list_to_set_app_L. simpl.
    rewrite (right_id_L ∅ (∪)). apply (comm_L (∪)).
  - rewrite fmap_app. simpl. apply NoDup_app. split_and!; [done| |apply NoDup_singleton].
    intros x Hx Hx'. apply list_elem_of_singleton in Hx' as ->.
    apply Hin. by apply elem_of_list_to_set.
Qed.

Lemma add_results_seen_ok raw acc : seen_ok acc → seen_ok (add_results acc raw).
Proof.
  revert acc. induction raw as [|c raw IH]; intros acc Hacc; [done|].
  apply IH. by apply add_chunk_seen_ok.
Qed.

Lemma seen_ok_empty : seen_ok (∅, []).
Proof. split; [done|]. apply NoDup_nil_2. Qed.

Lemma first_seen_NoDup raw : NoDup (text <$> first_seen raw).
Proof. apply (add_results_seen_ok raw (∅, [])), seen_ok_empty. Qed.

Lemma add_results_distinct raw acc :
  seen_ok acc →
  NoDup (text <$> raw) →
  (∀ c, c ∈ raw → text c ∉ acc.1) →
  (add_results acc raw).2 = acc.2 ++ raw.
Proof.
  revert acc. induction raw as [|c raw IH]; intros [seen all] Hok Hnd Hfresh.
  { simpl. by rewrite app_nil_r. }
  rewrite fmap_cons in Hnd. apply NoDup_cons in Hnd as [Hc Hnd].
  unfold add_results. simpl.
  destruct (decide (text c ∈ seen)) as [Hin|Hin].
  { exfalso. apply (Hfresh c); [left|done]. }
  change (foldl add_chunk ?a raw) with (add_results a raw).
  rewrite IH; simpl.
  - by rewrite <- app_assoc.
  - apply (add_chunk_seen_ok (seen, all) c) in Hok.
    unfold add_chunk in Hok. by rewrite decide_False in Hok.
  - done.
  - intros d Hd. rewrite elem_of_union, elem_of_singleton.
    intros [Heq|Hs].
    + apply Hc. rewrite <- Heq. by apply list_elem_of_fmap_2.
    + apply (Hfresh d); [by right|done].
Qed.

Lemma first_seen_distinct raw : NoDup (text <$> raw) → first_seen raw = raw.
Proof.
  intros Hnd. unfold first_seen.
  rewrite add_results_distinct; [done|apply seen_ok_empty|done|set_solver].
Qed.

Lemma add_results_subseteq raw acc c :
  c ∈ (add_results acc raw).2 → c ∈ acc.2 ∨ c ∈ raw.
Proof.
  revert acc. induction raw as [|d raw IH]; intros [seen all]; simpl; [by left|].
  intros Hc. apply IH in Hc as [Hc|Hc]; [|right; by right].
  unfold add_chunk in Hc. case_decide; simpl in Hc; [by left|].
  apply elem_of_app in Hc as [Hc|Hc]; [by left|].
  apply list_elem_of_singleton in Hc as ->. right; left.
Qed.

Lemma add_chunk_seen_mono acc c t :
  t ∈ acc.1 → t ∈ (add_chunk acc c).1.
Proof.
  destruct acc as [seen all]. unfold add_chunk. simpl.
  case_decide; simpl; [done|]. intros ?. apply elem_of_union. by right.
Qed.

Lemma add_results_seen raw : ∀ acc,
  (∀ t, t ∈ acc.1 → t ∈ (add_results acc raw).1) ∧
  (∀ c, c ∈ raw → text c ∈ (add_results acc raw).1).
Proof.
  induction raw as [|d raw IH]; intros acc; simpl.
  { split; [done|]. by intros c ?%elem_of_nil. }
  destruct (IH (add_chunk acc d)) as [IHmono IHin].
  split.
  - intros t Ht. by apply IHmono, add_chunk_seen_mono.
  - intros c [->|Hc]%elem_of_cons; [|by apply IHin].
    apply IHmono. destruct acc as [seen all]. unfold add_chunk.
    case_decide; simpl; [done|]. apply elem_of_union. left.
    by apply elem_of_singleton.
Qed.

(** Every delivered text is represented after de-duplication. *)
Lemma first_seen_complete raw c :
  c ∈ raw → text c ∈ text <$> first_seen raw.
Proof.
  intros Hc. apply (add_results_seen raw (∅, [])) in Hc.
  destruct (add_results_seen_ok raw (∅, []) seen_ok_empty) as [Hseen _].
  rewrite Hseen in Hc. by apply elem_of_list_to_set in Hc.
Qed.

Lemma first_seen_sound raw c : c ∈ first_seen raw → c ∈ raw.
Proof.
  intros Hc. apply add_results_subseteq in Hc as [Hc|Hc]; [|done].
  by apply elem_of_nil in Hc.
Qed.

(** *** The stable sort *)

Lemma insert_desc_Permutation c l : insert_desc c l ≡ₚ c :: l.
Proof.
  induction l as [|d l IH]; simpl; [done|].
  case_bool_decide; [|done].
  rewrite IH. apply perm_swap.
Qed.

Lemma sort_by_score_desc_Permutation l : sort_by_score_desc l ≡ₚ l.
Proof.
  induction l as [|c l IH]; simpl; [done|].
  by rewrite insert_desc_Permutation, IH.
Qed.

Lemma insert_desc_sorted c l :
  StronglySorted score_ge l → StronglySorted score_ge (insert_desc c l).
Proof.
  induction 1 as [|d l Hl IH Hd]; simpl.
  { repeat constructor. }
  case_bool_decide as Hlt.
  - constructor; [done|].
    rewrite insert_desc_Permutation. constructor; [|done].
    unfold score_ge. lia.
  - constructor; [by constructor|].
    constructor; [unfold score_ge; lia|].
    eapply Forall_impl; [exact Hd|]. unfold score_ge. intros; simpl in *. lia.
Qed.

Lemma sort_by_score_desc_sorted l : StronglySorted score_ge (sort_by_score_desc l).
Proof.
  induction l as [|c l IH]; simpl; [constructor|]. by apply insert_desc_sorted.
Qed.

Lemma insert_desc_filter v c l :
  StronglySorted score_ge l →
  filter (λ d, score d = v) (insert_desc c l)
  = filter (λ d, score d = v) (c :: l).
Proof.
  induction 1 as [|d l Hl IH Hd]; simpl; [done|].
  case_bool_decide as Hlt; [|done].
  rewrite (filter_cons _ d), IH, !filter_cons.
  destruct (decide (score d = v)) as [Hdv|Hdv], (decide (score c = v)) as [Hcv|Hcv];
    try done; lia.
Qed.

(** Stability: fragments of the same score keep their relative order. *)
Lemma sort_by_score_desc_stable v l :
  filter (λ d, score d = v) (sort_by_score_desc l) = filter (λ d, score d = v) l.
Proof.
  induction l as [|c l IH]; simpl; [done|].
  rewrite insert_desc_filter by apply sort_by_score_desc_sorted.
  by rewrite !filter_cons, IH.
Qed.

(** Ranking a ranked list changes nothing. *)
Lemma sort_by_score_desc_sorted_id l :
  StronglySorted score_ge l → sort_by_score_desc l = l.
Proof.
  induction 1 as [|c l Hl IH Hc]; simpl; [done|].
  rewrite IH. destruct Hc as [|d l' Hd _]; simpl; [done|].
  unfold score_ge in Hd. rewrite bool_decide_eq_false_2 by lia. done.
Qed.

Lemma NoDup_fmap_inj_on {A B} (f : A → B) (l : list A) x y :
  NoDup (f <$> l) → x ∈ l → y ∈ l → f x = f y → x = y.
Proof.
  induction l as [|a l IH]; [by intros _ ?%elem_of_nil|].
  rewrite fmap_cons, NoDup_cons, !elem_of_cons.
  intros [Ha Hnd] [->|Hx] [->|Hy] Hf; [done| | |by apply IH].
  - exfalso. apply Ha. rewrite Hf. by apply list_elem_of_fmap_2.
  - exfalso. apply Ha. rewrite <- Hf. by apply list_elem_of_fmap_2.
Qed.

(** With pairwise different scores the ranking is determined by the set of
    fragments alone. *)
Lemma sort_by_score_desc_perm_eq l1 l2 :
  l1 ≡ₚ l2 → NoDup (score <$> l1) →
  sort_by_score_desc l1 = sort_by_score_desc l2.
Proof.
  intros Hperm Hnd.
  apply (StronglySorted_unique_strong score_ge);
    [|apply sort_by_score_desc_sorted..|
     by rewrite !sort_by_score_desc_Permutation].
  intros x1 x2. rewrite !sort_by_score_desc_Permutation, <- Hperm.
  unfold score_ge. intros Hx1 Hx2 ? ?.
  apply (NoDup_fmap_inj_on score l1); [done..|lia].
Qed.

(** *** The query loop *)

Lemma mqs_loop_arrivals search_at qs : ∀ i k acc acc',
  mqs_loop search_at i qs k acc = Ok acc' ↔
  ∃ raw, arrivals search_at i qs k = Ok raw ∧ acc' = add_results acc raw.
Proof.
  induction qs as [|q qs IH]; intros i k acc acc'; simpl.
  { split; [intros [= <-]; by exists []|intros (raw & [= <-] & ->); done]. }
  destruct (search_at i q k) as [results|e]; simpl.
  - rewrite IH. split.
    + intros (raw & -> & ->). exists (results ++ raw). split; [done|].
      unfold add_results. by rewrite foldl_app.
    + intros (raw & Hraw & ->).
      destruct (arrivals search_at (S i) qs k) as [more|]; simpl in Hraw; [|done].
      injection Hraw as <-. exists more. split; [done|].
      unfold add_results. by rewrite foldl_app.
  - split; [done|by intros (? & ? & ?)].
Qed.

Lemma multi_query_search_spec search_at queries k out :
  multi_query_search search_at queries k = Ok out ↔
  ∃ qs raw, iter queries = Ok qs ∧ arrivals search_at 0 qs k = Ok raw ∧
            out = sort_by_score_desc (first_seen raw).
Proof.
  unfold multi_query_search. split.
  - intros H. inv_bind H. injection H as <-.
    apply mqs_loop_arrivals in Hx0 as (raw & Hraw & ->).
    by exists x, raw.
  - intros (qs & raw & -> & Hraw & ->). simpl.
    assert (mqs_loop search_at 0 qs k (∅, []) = Ok (add_results (∅, []) raw)) as ->.
    { apply mqs_loop_arrivals. eauto. }
    done.
Qed.

End RetrievalFacts.

Section RankingClaims.
Import Retrieval Samples.

(** C6 (amended).  [multi_query_search] returns delivered fragments, one
    for every delivered text, with pairwise different texts, sorted by
    descending score, fragments of equal score in first-seen order; merging
    and ranking the returned list again returns it unchanged; and two
    invocations that are delivered the same fragments in different orders
    return the same list whenever those fragments have pairwise different
    texts and pairwise different scores. *)
Theorem multi_query_search_ranked search_at queries k qs raw out :
  iter queries = Ok qs →
  arrivals search_at 0 qs k = Ok raw →
  multi_query_search search_at queries k = Ok out →
  NoDup (text <$> out) ∧
  (∀ c, c ∈ out → c ∈ raw) ∧
  (∀ c, c ∈ raw → text c ∈ text <$> out) ∧
  StronglySorted score_ge out ∧
  (∀ v, filter (λ c, score c = v) out = filter (λ c, score c = v) (first_seen raw)) ∧
  sort_by_score_desc (first_seen out) = out ∧
  (∀ search_at' queries' k' qs' raw' out',
     iter queries' = Ok qs' →
     arrivals search_at' 0 qs' k' = Ok raw' →
     multi_query_search search_at' queries' k' = Ok out' →
     raw' ≡ₚ raw → NoDup (text <$> raw) → NoDup (score <$> raw) →
     out' = out).
Proof.
  intros Hqs Hraw Hout.
  apply multi_query_search_spec in Hout as (qs0 & raw0 & Hqs0 & Hraw0 & ->).
  assert (qs0 = qs) as -> by congruence.
  assert (raw0 = raw) as -> by congruence.
  split_and!.
  - rewrite sort_by_score_desc_Permutation. apply first_seen_NoDup.
  - intros c. rewrite sort_by_score_desc_Permutation. apply first_seen_sound.
  - intros c Hc. rewrite sort_by_score_desc_Permutation. by apply first_seen_complete.
  - apply sort_by_score_desc_sorted.
  - intros v. apply sort_by_score_desc_stable.
  - rewrite first_seen_distinct.
    + apply sort_by_score_desc_sorted_id, sort_by_score_desc_sorted.
    + rewrite sort_by_score_desc_Permutation. apply first_seen_NoDup.
  - intros search_at' queries' k' qs' raw' out' Hqs' Hraw' Hout' Hperm Htexts Hscores.
    apply multi_query_search_spec in Hout' as (qs1 & raw1 & Hqs1 & Hraw1 & ->).
    assert (qs1 = qs') as -> by congruence.
    assert (raw1 = raw') as -> by congruence.
    rewrite (first_seen_distinct raw) by done.
    rewrite (first_seen_distinct raw') by (by rewrite Hperm).
    apply sort_by_score_desc_perm_eq; [done|by rewrite Hperm].
Qed.

Lemma multi_query_search_ranked_witness :
  let replies := [[chunk "alpha" 7; chunk "beta" 9]; [chunk "alpha" 3; chunk "gamma" 9]] in
  let out := [chunk "beta" 9; chunk "gamma" 9; chunk "alpha" 7] in
  multi_query_search (store replies) two_queries 5 = Ok out ∧
  NoDup (text <$> out) ∧
  StronglySorted score_ge out.
Proof.
  assert (arrivals (store [[chunk "alpha" 7; chunk "beta" 9];
                           [chunk "alpha" 3; chunk "gamma" 9]]) 0
            [JStr "primary outcome"; JStr "sample size"] 5
          = Ok [chunk "alpha" 7; chunk "beta" 9; chunk "alpha" 3; chunk "gamma" 9])
    as Hraw by reflexivity.
  assert (multi_query_search
            (store [[chunk "alpha" 7; chunk "beta" 9];
                    [chunk "alpha" 3; chunk "gamma" 9]]) two_queries 5
          = Ok [chunk "beta" 9; chunk "gamma" 9; chunk "alpha" 7])
    as Hout by (vm_compute; reflexivity).
  intros replies out. split; [exact Hout|].
  destruct (multi_query_search_ranked _ two_queries 5
              [JStr "primary outcome"; JStr "sample size"] _ _ eq_refl Hraw Hout)
    as (Hnd & _ & _ & Hsorted & _).
  exact (conj Hnd Hsorted).
Defined.

(** C6 as written fails: the same two fragments, of equal score, delivered
    in the two possible orders, come back in two different orders. *)
Lemma multi_query_search_order_matters :
  let a := chunk "alpha" 5 in
  let b := chunk "beta" 5 in
  [a; b] ≡ₚ [b; a] ∧
  multi_query_search (store [[a; b]]) (JList [JStr "q"]) 5 = Ok [a; b] ∧
  multi_query_search (store [[b; a]]) (JList [JStr "q"]) 5 = Ok [b; a] ∧
  [a; b] ≠ [b; a].
Proof.
  split_and!.
  - apply perm_swap.
  - vm_compute; reflexivity.
  - vm_compute; reflexivity.
  - discriminate.
Qed.

(** The same holds without ties when a text arrives twice with two
    scores: the first arrival decides which score is kept. *)
Example multi_query_search_first_score_wins :
  multi_query_search (store [[chunk "alpha" 5; chunk "alpha" 1; chunk "beta" 3]])
    (JList [JStr "q"]) 5 = Ok [chunk "alpha" 5; chunk "beta" 3] ∧
  multi_query_search (store [[chunk "alpha" 1; chunk "alpha" 5; chunk "beta" 3]])
    (JList [JStr "q"]) 5 = Ok [chunk "beta" 3; chunk "alpha" 1].
Proof. split; vm_compute; reflexivity. Qed.

End RankingClaims.

(** ** The control loop *)

Section LoopFacts.
Import Item Latex Agent.
Context (tpl : Templates) (w : World).

Lemma reachable_snoc_inv items hist n c' :
  reachable tpl w items (hist ++ [n]) c' →
  ∃ state, reachable tpl w items hist (n, state) ∧ n ≠ END ∧
           step tpl w (length hist) (n, state) = Ok c'.
Proof.
  inversion 1 as [Hnil|hist0 [n0 state] c0 Hreach Hne Hstep Heq]; subst.
  { by destruct hist. }
  apply app_inj_tail in Heq as [-> <-]. eauto.
Qed.

Lemma reachable_det items hist c1 c2 :
  reachable tpl w items hist c1 → reachable tpl w items hist c2 → c1 = c2.
Proof.
  intros H1. revert c2.
  induction H1 as [|hist c c' Hreach IH Hne Hstep]; intros c2 H2.
  - inversion H2 as [|hist0 ? ? ? ? ? Heq]; [done|by destruct hist0].
  - destruct c as [n state].
    apply reachable_snoc_inv in H2 as (state2 & H2 & _ & Hstep2).
    apply IH in H2. simplify_eq/=. congruence.
Qed.

(** What each node does to the state, as equations on the fields. *)

Lemma step_plan_research t state c' :
  step tpl w t (n_plan_research, state) = Ok c' →
  ∃ item raw,
    current_item state = Ok item ∧
    chat w t 0 (PlanRequest item) = Ok raw ∧
    c' = (n_retrieve,
          {| consort_items := consort_items state;
             current_item_index := current_item_index state;
             research_queries := parse_queries w raw;
             retrieved_chunks := [];
             unfamiliar_terms := JList [];
             web_search_results := web_search_results state;
             evaluation_result := JStr "";
             hop_count := 0;
             section_drafts := section_drafts state;
             latex_sections := latex_sections state;
             final_latex := final_latex state |}).
Proof.
  unfold step, node_fn, plan_research. intros H. inv_ok. subst.
  do 2 eexists. split_and!; [eassumption..|]. by destruct state.
Qed.

Lemma step_retrieve t state c' :
  step tpl w t (n_retrieve, state) = Ok c' →
  ∃ chunks,
    Retrieval.multi_query_search (search_at w t) (research_queries state) 5 = Ok chunks ∧
    c' = (n_evaluate,
          {| consort_items := consort_items state;
             current_item_index := current_item_index state;
             research_queries := research_queries state;
             retrieved_chunks :=
               merge_chunks (retrieved_chunks state) (chunk_dict <$> chunks);
             unfamiliar_terms := unfamiliar_terms state;
             web_search_results := web_search_results state;
             evaluation_result := evaluation_result state;
             hop_count := hop_count state + 1;
             section_drafts := section_drafts state;
             latex_sections := latex_sections state;
             final_latex := final_latex state |}).
Proof.
  unfold step, node_fn, retrieve. intros H. inv_ok. subst.
  eexists. split; [eassumption|]. by destruct state.
Qed.

Lemma step_evaluate t state c' :
  step tpl w t (n_evaluate, state) = Ok c' →
  ∃ verdict unfamiliar follow_ups,
    engine_verdict w t state = Ok verdict ∧
    let state' :=
      {| consort_items := consort_items state;
         current_item_index := current_item_index state;
         research_queries :=
           if truthy follow_ups then follow_ups else research_queries state;
         retrieved_chunks := retrieved_chunks state;
         unfamiliar_terms := unfamiliar;
         web_search_results := web_search_results state;
         evaluation_result := force_sufficient verdict (hop_count state);
         hop_count := hop_count state;
         section_drafts := section_drafts state;
         latex_sections := latex_sections state;
         final_latex := final_latex state |} in
    c' = (_route_after_evaluate state', state').
Proof.
  unfold step, node_fn, evaluate, engine_verdict. intros H.
  apply bind_Ok in H as (update & Hupd & H). injection H as <-.
  apply bind_Ok in Hupd as (item & Hitem & Hupd).
  apply bind_Ok in Hupd as (raw & Hraw & Hupd).
  apply bind_Ok in Hupd as (verdict & Hverdict & Hupd).
  apply bind_Ok in Hupd as (follow_ups & Hfollow & Hupd).
  apply bind_Ok in Hupd as (unfamiliar & Hunfamiliar & Hupd).
  apply bind_Ok in Hupd as (? & _ & Hupd).
  apply bind_Ok in Hupd as (? & _ & Hupd).
  exists verdict, unfamiliar, follow_ups.
  rewrite Hitem. simpl. rewrite Hraw. simpl. split; [done|].
  destruct (truthy follow_ups); injection Hupd as <-; by destruct state.
Qed.

Lemma step_web_search t state c' :
  step tpl w t (n_web_search, state) = Ok c' →
  (truthy (unfamiliar_terms state) = false ∧ c' = (n_evaluate, state)) ∨
  (truthy (unfamiliar_terms state) = true ∧
   ∃ new_defs,
     YouSearch.hydrate_terms (container_str w) (you_results w t) (unfamiliar_terms state) = Ok new_defs ∧
     c' = (n_evaluate,
           {| consort_items := consort_items state;
              current_item_index := current_item_index state;
              research_queries := research_queries state;
              retrieved_chunks := retrieved_chunks state;
              unfamiliar_terms := unfamiliar_terms state;
              web_search_results := new_defs ∪ web_search_results state;
              evaluation_result := JStr "sufficient";
              hop_count := hop_count state;
              section_drafts := section_drafts state;
              latex_sections := latex_sections state;
              final_latex := final_latex state |})).
Proof.
  unfold step, node_fn, web_search. intros H.
  apply bind_Ok in H as (update & Hupd & H). injection H as <-.
  destruct (truthy (unfamiliar_terms state)); simpl in Hupd.
  - right. split; [done|]. inv_ok. subst.
    eexists. split; [eassumption|]. by destruct state.
  - left. split; [done|]. injection Hupd as <-. by destruct state.
Qed.

Lemma step_synthesize t state c' :
  step tpl w t (n_synthesize, state) = Ok c' →
  ∃ item draft,
    current_item state = Ok item ∧
    chat w t 0 (synthesize_request item state) = Ok draft ∧
    let state' :=
      {| consort_items := consort_items state;
         current_item_index := current_item_index state + 1;
         research_queries := research_queries state;
         retrieved_chunks := retrieved_chunks state;
         unfamiliar_terms := unfamiliar_terms state;
         web_search_results := web_search_results state;
         evaluation_result := evaluation_result state;
         hop_count := hop_count state;
         section_drafts := <[id item := draft]> (section_drafts state);
         latex_sections := latex_sections state;
         final_latex := final_latex state |} in
    c' = (_route_after_synthesize state', state').
Proof.
  unfold step, node_fn, synthesize. intros H. inv_ok. subst.
  do 2 eexists. split_and!; [eassumption..|]. by destruct state.
Qed.

Lemma step_generate_latex t state c' :
  step tpl w t (n_generate_latex, state) = Ok c' →
  ∃ sections,
    latex_loop w t 0 (section_drafts state) (consort_items state) ∅ = Ok sections ∧
    c' = (END,
          {| consort_items := consort_items state;
             current_item_index := current_item_index state;
             research_queries := research_queries state;
             retrieved_chunks := retrieved_chunks state;
             unfamiliar_terms := unfamiliar_terms state;
             web_search_results := web_search_results state;
             evaluation_result := evaluation_result state;
             hop_count := hop_count state;
             section_drafts := section_drafts state;
             latex_sections := sections;
             final_latex := sections_to_latex tpl (consort_items state) sections |}).
Proof.
  unfold step, node_fn, generate_latex. intros H. inv_ok. subst.
  eexists. split; [eassumption|]. by destruct state.
Qed.

End LoopFacts.

Section SampleRuns.
Import Item Latex Agent Samples.

Example run_one_item_sufficient :
  invoke_trace sample_templates world_sufficient 20 [item_1a]
  = [n_plan_research; n_retrieve; n_evaluate; n_synthesize; n_generate_latex].
Proof. vm_compute. reflexivity. Qed.

Example run_one_item_need_more :
  invoke_trace sample_templates world_need_more 20 [item_1a]
  = [n_plan_research; n_retrieve; n_evaluate; n_retrieve; n_evaluate;
     n_retrieve; n_evaluate; n_synthesize; n_generate_latex].
Proof. vm_compute. reflexivity. Qed.

Example run_garbage_verdict :
  invoke_trace sample_templates world_garbage 20 [item_1a; item_6a]
  = [n_plan_research; n_retrieve; n_evaluate; n_synthesize;
     n_plan_research; n_retrieve; n_evaluate; n_synthesize; n_generate_latex].
Proof. vm_compute. reflexivity. Qed.

End SampleRuns.

(** ** The hop ceiling *)

Section HopCeiling.
Import Item Latex Agent.
Context (tpl : Templates) (w : World).

Lemma advance_reachable items k : ∀ hist c hist' c',
  reachable tpl w items hist c →
  advance tpl w k hist c = Some (hist', c') →
  reachable tpl w items hist' c'.
Proof.
  induction k as [|k IH]; intros hist c hist' c' Hreach Hadv; simpl in Hadv.
  { by simplify_eq. }
  case_decide as Hend; [done|].
  destruct (step tpl w (length hist) c) as [c1|] eqn:Hstep; [|done].
  eapply IH; [|exact Hadv]. by apply reach_step.
Qed.

Lemma force_sufficient_at_ceiling verdict hops :
  eq_str verdict "need_more" = true → 3 ≤ hops →
  force_sufficient verdict hops = JStr "sufficient".
Proof.
  intros Hv Hh. unfold force_sufficient. rewrite Hv. simpl.
  by rewrite bool_decide_eq_true_2.
Qed.

Lemma force_sufficient_below_ceiling verdict hops :
  hops < 3 → force_sufficient verdict hops = verdict.
Proof.
  intros Hh. unfold force_sufficient.
  rewrite (bool_decide_eq_false_2 (3 ≤ hops)) by lia. by rewrite andb_false_r.
Qed.

Lemma force_sufficient_need_more verdict hops :
  eq_str (force_sufficient verdict hops) "need_more" = true → hops < 3.
Proof.
  unfold force_sufficient.
  destruct (eq_str verdict "need_more") eqn:Hv; simpl.
  - case_bool_decide; [done|lia].
  - by rewrite Hv.
Qed.

Lemma route_after_evaluate_retrieve state :
  _route_after_evaluate state = n_retrieve →
  eq_str (evaluation_result state) "need_more" = true.
Proof.
  unfold _route_after_evaluate.
  destruct (eq_str (evaluation_result state) "need_more"); [done|].
  by destruct (eq_str (evaluation_result state) "need_web").
Qed.

Lemma hop_inv_step t c c' :
  hop_inv c → step tpl w t c = Ok c' → hop_inv c'.
Proof.
  destruct c as [n state]. intros [Hle Hlt] Hstep. simpl in *.
  destruct n.
  - apply step_plan_research in Hstep as (? & ? & _ & _ & ->).
    split; simpl; lia.
  - apply step_retrieve in Hstep as (? & _ & ->).
    split; simpl; [specialize (Hlt eq_refl); lia|done].
  - apply step_evaluate in Hstep as (verdict & ? & ? & _ & ->).
    split; simpl; [done|].
    intros Hroute%route_after_evaluate_retrieve. simpl in Hroute.
    by apply force_sufficient_need_more in Hroute.
  - apply step_web_search in Hstep as [[_ ->]|[_ (? & _ & ->)]];
      (split; simpl; [done|done]).
  - apply step_synthesize in Hstep as (? & ? & _ & _ & ->).
    split; simpl; [done|].
    unfold _route_after_synthesize. by case_bool_decide.
  - apply step_generate_latex in Hstep as (? & _ & ->).
    split; simpl; [done|done].
  - unfold step in Hstep. simpl in Hstep. injection Hstep as <-.
    split; simpl; [done|done].
Qed.

Lemma reachable_hop_inv items hist c :
  reachable tpl w items hist c → hop_inv c.
Proof.
  induction 1 as [|hist c c' _ IH _ Hstep].
  - split; simpl; [lia|done].
  - by eapply hop_inv_step.
Qed.

(** C1.  In every configuration of a run the hop count is at most 3; a
    retrieval adds exactly one hop and is followed by an evaluation; an
    evaluation whose engine verdict is "need_more" records "sufficient" and
    goes on to synthesis when the hop count is 3 or more, and records
    "need_more" and goes back to retrieval when it is below 3. *)
Theorem hop_count_never_exceeds_three items hist n state :
  reachable tpl w items hist (n, state) →
  hop_count state ≤ 3 ∧
  ∀ c', step tpl w (length hist) (n, state) = Ok c' →
    (n = n_retrieve →
       hop_count c'.2 = hop_count state + 1 ∧ c'.1 = n_evaluate) ∧
    (n = n_evaluate →
       engine_verdict w (length hist) state = Ok (JStr "need_more") →
       (3 ≤ hop_count state →
          evaluation_result c'.2 = JStr "sufficient" ∧ c'.1 = n_synthesize) ∧
       (hop_count state < 3 →
          evaluation_result c'.2 = JStr "need_more" ∧ c'.1 = n_retrieve)).
Proof.
  intros Hreach. split.
  { by apply reachable_hop_inv in Hreach as [? _]. }
  intros c' Hstep. split.
  - intros ->. by apply step_retrieve in Hstep as (? & _ & ->).
  - intros -> Hverdict.
    apply step_evaluate in Hstep as (verdict & ? & ? & Hv & ->).
    assert (verdict = JStr "need_more") as -> by congruence.
    split; intros Hhops; simpl.
    + rewrite force_sufficient_at_ceiling by done.
      split; [done|]. by unfold _route_after_evaluate.
    + rewrite force_sufficient_below_ceiling by done.
      split; [done|]. by unfold _route_after_evaluate.
Qed.

End HopCeiling.

Section HopCeilingWitness.
Import Item Latex Agent Samples.

(** With an evaluator that always answers "need_more", the third evaluation
    of the item is reached with three hops and is forced. *)
Lemma hop_count_never_exceeds_three_witness :
  match advance sample_templates world_need_more 6 []
          (entry_point, create_initial_state [item_1a]) with
  | Some (hist, (n, state)) =>
      n = n_evaluate ∧ hop_count state = 3 ∧
      ∀ c', step sample_templates world_need_more (length hist) (n, state) = Ok c' →
            evaluation_result c'.2 = JStr "sufficient" ∧ c'.1 = n_synthesize
  | None => False
  end.
Proof.
  destruct (advance sample_templates world_need_more 6 []
              (entry_point, create_initial_state [item_1a]))
    as [[hist [n state]]|] eqn:Hadv; [|by vm_compute in Hadv].
  assert (reachable sample_templates world_need_more [item_1a] hist (n, state)) as Hreach.
  { eapply advance_reachable; [apply reach_init|exact Hadv]. }
  pose proof (hop_count_never_exceeds_three
                sample_templates world_need_more [item_1a] hist n state Hreach)
    as [_ Hstep].
  vm_compute in Hadv. injection Hadv as <- <- <-.
  split; [done|]. split; [done|].
  intros c' Hc'. apply Hstep in Hc' as [_ Hev].
  apply Hev; [done|by vm_compute|simpl; lia].
Defined.

End HopCeilingWitness.

(** ** Coverage of the checklist *)

Section Coverage.
Import Item Latex Agent.
Context (tpl : Templates) (w : World).

Lemma run_END fuel t state : run tpl w fuel t (END, state) = Finished state.
Proof. by destruct fuel. Qed.

Lemma run_S fuel t c :
  c.1 ≠ END →
  run tpl w (S fuel) t c =
    match step tpl w t c with
    | Raise e => Failed e
    | Ok c' => run tpl w fuel (S t) c'
    end.
Proof. destruct c as [[] state]; simpl; congruence. Qed.

Lemma trace_S fuel t c :
  c.1 ≠ END →
  trace tpl w (S fuel) t c =
    match step tpl w t c with
    | Raise e => [c.1]
    | Ok c' => c.1 :: trace tpl w fuel (S t) c'
    end.
Proof. destruct c as [[] state]; simpl; congruence. Qed.

Lemma trace_END fuel t state : trace tpl w fuel t (END, state) = [].
Proof. by destruct fuel. Qed.

(** A finished run is a path of [reachable], and [trace] is its history. *)
Lemma run_reachable items fuel : ∀ hist c final,
  reachable tpl w items hist c →
  run tpl w fuel (length hist) c = Finished final →
  reachable tpl w items (hist ++ trace tpl w fuel (length hist) c) (END, final).
Proof.
  induction fuel as [|fuel IH]; intros hist [n state] final Hreach Hrun.
  - destruct n; simpl in Hrun; try done. injection Hrun as <-.
    simpl. by rewrite app_nil_r.
  - destruct (decide (n = END)) as [->|Hne].
    { rewrite run_END in Hrun. injection Hrun as <-.
      rewrite trace_END, app_nil_r. done. }
    rewrite run_S in Hrun by done. rewrite trace_S by done.
    destruct (step tpl w (length hist) (n, state)) as [c'|] eqn:Hstep; [|done].
    simpl. rewrite (cons_middle n), app_assoc.
    replace (S (length hist)) with (length (hist ++ [n])) in *
      by (rewrite length_app; simpl; lia).
    apply IH; [|done]. by apply (reach_step _ _ _ _ (n, state)).
Qed.

Lemma count_synthesize_snoc hist n :
  count_synthesize (hist ++ [n])
  = count_synthesize hist + (if decide (n = n_synthesize) then 1 else 0).
Proof.
  unfold count_synthesize. rewrite filter_app, length_app. f_equal.
  rewrite filter_cons, filter_nil. by case_decide.
Qed.

Lemma current_item_lookup state item :
  current_item state = Ok item →
  consort_items state !! current_item_index state = Some item.
Proof. unfold current_item. by destruct (_ !! _); intros [= ->]. Qed.

Lemma cover_inv_step items hist c c' :
  c.1 ≠ END →
  cover_inv items hist c →
  step tpl w (length hist) c = Ok c' →
  cover_inv items (hist ++ [c.1]) c'.
Proof.
  destruct c as [n state]. unfold cover_inv. simpl.
  intros Hne (Hitems & Hcount & Hdom & Hpos) Hstep.
  rewrite count_synthesize_snoc.
  destruct n; [| | | | | |done].
  - apply step_plan_research in Hstep as (item & ? & Hitem & _ & ->). simpl.
    apply current_item_lookup, lookup_lt_Some in Hitem. rewrite Hitems in Hitem.
    split_and!; [done|lia|done|done].
  - apply step_retrieve in Hstep as (? & _ & ->). simpl.
    split_and!; [done|lia|done|done].
  - apply step_evaluate in Hstep as (? & ? & ? & _ & ->). simpl.
    split_and!; [done|lia|done|].
    unfold _route_after_evaluate. by repeat case_match.
  - apply step_web_search in Hstep as [[_ ->]|[_ (? & _ & ->)]]; simpl;
      (split_and!; [done|lia|done|done]).
  - apply step_synthesize in Hstep as (item & draft & Hitem & _ & ->). simpl.
    apply current_item_lookup in Hitem. rewrite Hitems in Hitem.
    split_and!; [done|lia| |].
    + rewrite dom_insert_L, Hdom.
      replace (current_item_index state + 1) with (S (current_item_index state)) by lia.
      rewrite (take_S_r _ _ _ Hitem), fmap_app, list_to_set_app_L. simpl.
      rewrite (right_id_L ∅ (∪)). apply (comm_L (∪)).
    + unfold _route_after_synthesize. simpl. rewrite Hitems.
      case_bool_decide; lia.
  - apply step_generate_latex in Hstep as (? & _ & ->). simpl.
    split_and!; [done|lia|done|done].
Qed.

Lemma reachable_cover_inv items hist c :
  reachable tpl w items hist c → cover_inv items hist c.
Proof.
  induction 1 as [|hist c c' _ IH Hne Hstep].
  - unfold cover_inv. simpl. split_and!; [done|done|apply dom_empty_L|lia].
  - by apply cover_inv_step.
Qed.

(** C3.  When a run over a checklist with unique ids completes, the keys of
    [section_drafts] are exactly the ids of the checklist, one draft per
    item; the cursor has reached the end of the checklist and [synthesize]
    has run once per item. *)
Theorem drafts_cover_checklist items fuel final :
  NoDup (id <$> items) →
  invoke tpl w fuel items = Finished final →
  dom (section_drafts final) = list_to_set (id <$> items) ∧
  size (section_drafts final) = length items ∧
  current_item_index final = length items ∧
  count_synthesize (invoke_trace tpl w fuel items) = length items.
Proof.
  intros Hnd Hrun.
  pose proof (run_reachable items fuel [] _ final (reach_init tpl w items) Hrun) as Hreach.
  apply reachable_cover_inv in Hreach as (_ & Hcount & Hdom & Hidx).
  simpl in *. rewrite Hidx, firstn_all in Hdom.
  split_and!; [done| |done|by rewrite <- Hidx].
  rewrite <- size_dom, Hdom, size_list_to_set, length_fmap; done.
Qed.

(** The assembler alone does accept an empty checklist: the document then
    holds the frame and the empty compliance table. *)
Lemma sections_parts_empty latex_sections :
  sections_parts tpl [] latex_sections
  = [ PREAMBLE tpl; ""; BEGIN_DOCUMENT tpl; "";
      ""; CONSORT_TABLE_HEADER tpl; CONSORT_TABLE_FOOTER tpl;
      ""; END_DOCUMENT tpl ].
Proof. reflexivity. Qed.

(** C4 on the code: with an empty checklist the entry node indexes
    [consort_items[0]]; the run ends in [IndexError] in its first step and
    never reaches [generate_latex], although the assembler would have
    produced the frame with the empty compliance table. *)
Theorem empty_checklist_raises fuel :
  invoke tpl w (S fuel) [] = Failed IndexError ∧
  invoke_trace tpl w (S fuel) [] = [n_plan_research] ∧
  generate_latex tpl w 0 (create_initial_state [])
  = Ok [ Set_latex_sections ∅;
         Set_final_latex
           (String.concat newline
              [ PREAMBLE tpl; ""; BEGIN_DOCUMENT tpl; "";
                ""; CONSORT_TABLE_HEADER tpl; CONSORT_TABLE_FOOTER tpl;
                ""; END_DOCUMENT tpl ]) ].
Proof.
  split_and!; [reflexivity|reflexivity|].
  unfold generate_latex. simpl. unfold sections_to_latex.
  by rewrite sections_parts_empty.
Qed.

End Coverage.

Section CoverageWitness.
Import Item Latex Agent Samples.

Lemma drafts_cover_checklist_witness :
  match invoke sample_templates world_sufficient 20 [item_1a; item_6a] with
  | Finished final =>
      dom (section_drafts final) = list_to_set ["1a"; "6a"] ∧
      size (section_drafts final) = 2 ∧
      current_item_index final = 2
  | _ => False
  end.
Proof.
  destruct (invoke sample_templates world_sufficient 20 [item_1a; item_6a])
    as [final| |] eqn:Hrun; [|by vm_compute in Hrun..].
  assert (NoDup (id <$> [item_1a; item_6a])) as Hnd.
  { apply (bool_decide_unpack _). vm_compute. exact I. }
  destruct (drafts_cover_checklist sample_templates world_sufficient
              [item_1a; item_6a] 20 final Hnd Hrun) as (Hdom & Hsize & Hidx & _).
  exact (conj Hdom (conj Hsize Hidx)).
Defined.

End CoverageWitness.

(** ** Malformed output of the planning and judgment engines *)

Section Malformed.
Import Item Latex Agent.
Context (w : World).

Lemma parse_queries_unparsable raw :
  json_loads w raw = None → parse_queries w raw = JList [JStr raw].
Proof. unfold parse_queries. by intros ->. Qed.

Lemma parse_queries_not_a_list raw v :
  json_loads w raw = Some v → (∀ l, v ≠ JList l) →
  parse_queries w raw = JList [JStr raw].
Proof.
  unfold parse_queries. intros -> Hv. destruct v; try done. by destruct (Hv l).
Qed.

Lemma parse_evaluation_unparsable raw :
  json_loads w raw = None →
  parse_evaluation w raw
  = JDict [ ("verdict", JStr "sufficient"); ("details", JStr raw);
            ("unfamiliar_terms", JList []); ("follow_up_queries", JList []) ].
Proof. unfold parse_evaluation. by intros ->. Qed.

(** An evaluator reply that is not JSON: the node succeeds with verdict
    "sufficient", no terms, and the queries left as they are. *)
Lemma evaluate_unparsable t state item raw :
  current_item state = Ok item →
  chat w t 0 (EvaluateRequest item (truncate_text <$> take 15 (retrieved_chunks state)))
    = Ok raw →
  json_loads w raw = None →
  evaluate w t state
  = Ok [ Set_evaluation_result (JStr "sufficient"); Set_unfamiliar_terms (JList []) ].
Proof.
  intros Hitem Hraw Hloads. unfold evaluate.
  rewrite Hitem. simpl. rewrite Hraw. simpl.
  rewrite (parse_evaluation_unparsable _ Hloads). simpl.
  unfold force_sufficient. simpl. done.
Qed.

(** An evaluator reply that is JSON but not an object: [result.get] raises,
    and nothing catches it. *)
Lemma evaluate_not_an_object t state item raw v :
  current_item state = Ok item →
  chat w t 0 (EvaluateRequest item (truncate_text <$> take 15 (retrieved_chunks state)))
    = Ok raw →
  json_loads w raw = Some v →
  (∀ kvs, v ≠ JDict kvs) →
  evaluate w t state = Raise AttributeError.
Proof.
  intros Hitem Hraw Hloads Hv. unfold evaluate.
  rewrite Hitem. simpl. rewrite Hraw. simpl.
  unfold parse_evaluation. rewrite Hloads.
  destruct v; try done. by destruct (Hv kvs).
Qed.

End Malformed.

Section MalformedRuns.
Import Item Latex Agent Samples.

(** C5 on the code: the evaluator answers the JSON text [[]], which parses
    but is not an object; the run ends in [AttributeError]. *)
Theorem evaluator_array_reply_aborts_run :
  json_loads world_array_verdict "[]" = Some (JList []) ∧
  invoke_trace sample_templates world_array_verdict 20 [item_1a]
    = [n_plan_research; n_retrieve; n_evaluate] ∧
  invoke sample_templates world_array_verdict 20 [item_1a] = Failed AttributeError.
Proof. split_and!; vm_compute; reflexivity. Qed.

(** A planner that answers the JSON text [[]] hands retrieval no query. *)
Example planner_empty_array :
  parse_queries world_sufficient "[]" = JList [].
Proof. reflexivity. Qed.

End MalformedRuns.

(** ** The planning transition *)

Section Planning.
Import Item Latex Agent.
Context (w : World).

(** C9 (amended).  [plan_research] sets the hop count to 0, replaces the
    queries by the new plan, and empties the evidence, the unfamiliar terms
    and the last verdict; of the per-item fields only the term definitions
    are carried over.  The run-level fields are untouched. *)
Theorem plan_research_resets t state update :
  plan_research w t state = Ok update →
  let state' := merge state update in
  hop_count state' = 0 ∧
  (∃ item raw, current_item state = Ok item ∧
               chat w t 0 (PlanRequest item) = Ok raw ∧
               research_queries state' = parse_queries w raw) ∧
  retrieved_chunks state' = [] ∧
  unfamiliar_terms state' = JList [] ∧
  evaluation_result state' = JStr "" ∧
  web_search_results state' = web_search_results state ∧
  consort_items state' = consort_items state ∧
  current_item_index state' = current_item_index state ∧
  section_drafts state' = section_drafts state ∧
  latex_sections state' = latex_sections state ∧
  final_latex state' = final_latex state.
Proof.
  unfold plan_research. intros H. inv_ok. subst.
  destruct state. simpl. split_and!; try done. eauto.
Qed.

End Planning.

Section PlanningRuns.
Import Item Latex Agent Samples.

Lemma plan_research_resets_witness :
  match plan_research world_sufficient 0 (create_initial_state [item_1a]) with
  | Ok update =>
      let state' := merge (create_initial_state [item_1a]) update in
      hop_count state' = 0 ∧ retrieved_chunks state' = [] ∧
      research_queries state' = JList [JStr "primary outcome"; JStr "sample size"]
  | Raise _ => False
  end.
Proof.
  destruct (plan_research world_sufficient 0 (create_initial_state [item_1a]))
    as [update|] eqn:Hplan; [|by vm_compute in Hplan].
  destruct (plan_research_resets world_sufficient 0 _ update Hplan)
    as (Hhop & _ & Hchunks & _).
  split; [exact Hhop|]. split; [exact Hchunks|].
  vm_compute in Hplan. injection Hplan as <-. reflexivity.
Defined.

(** C9 as written fails: when the second item is planned, the evidence and
    the verdict of the first item are cleared as well. *)
Lemma plan_research_clears_more :
  match advance sample_templates world_sufficient 4 []
          (entry_point, create_initial_state [item_1a; item_6a]) with
  | Some (hist, (n, state)) =>
      n = n_plan_research ∧
      match step sample_templates world_sufficient (length hist) (n, state) with
      | Ok (_, state') =>
          length (retrieved_chunks state) = 2 ∧ retrieved_chunks state' = [] ∧
          evaluation_result state = JStr "sufficient" ∧ evaluation_result state' = JStr ""
      | Raise _ => False
      end
  | None => False
  end.
Proof. vm_compute. split_and!; reflexivity. Qed.

End PlanningRuns.

(** ** Hydration *)

Section Hydration.
Import Item Latex Agent.
Context (tpl : Templates) (w : World).

(** [evaluate] does not read the verdict recorded in the state. *)
Lemma evaluate_ignores_recorded_verdict t state v :
  evaluate w t (assign state (Set_evaluation_result v)) = evaluate w t state.
Proof. by destruct state. Qed.

(** The transition out of hydration as the code has it.  The step is always
    followed by [evaluate].  When there are terms to hydrate it merges the
    new definitions and records "sufficient"; the evaluation that follows
    asks the engine again and records and routes on that fresh verdict
    (subject to the hop ceiling), whatever verdict the hydration step
    recorded: the recorded "sufficient" is never read. *)
Theorem hydration_returns_to_evaluate t state c' :
  step tpl w t (n_web_search, state) = Ok c' →
  c'.1 = n_evaluate ∧
  (truthy (unfamiliar_terms state) = true →
     evaluation_result c'.2 = JStr "sufficient" ∧
     ∃ new_defs,
       YouSearch.hydrate_terms (container_str w) (you_results w t) (unfamiliar_terms state) = Ok new_defs ∧
       web_search_results c'.2 = new_defs ∪ web_search_results state) ∧
  (∀ t' c'',
     step tpl w t' c' = Ok c'' →
     ∃ verdict,
       engine_verdict w t' c'.2 = Ok verdict ∧
       evaluation_result c''.2 = force_sufficient verdict (hop_count state) ∧
       c''.1 = _route_after_evaluate c''.2) ∧
  (∀ t' v, evaluate w t' (assign c'.2 (Set_evaluation_result v)) = evaluate w t' c'.2).
Proof.
  intros Hstep.
  assert (∀ t' v, evaluate w t' (assign c'.2 (Set_evaluation_result v))
                  = evaluate w t' c'.2) as Hignored
    by (intros; apply evaluate_ignores_recorded_verdict).
  apply step_web_search in Hstep as [[Hterms ->]|[Hterms (new_defs & Hdefs & ->)]];
    (split_and!; [done| | |exact Hignored]).
  - by rewrite Hterms.
  - intros t' c'' Hstep'.
    apply step_evaluate in Hstep' as (verdict & ? & ? & Hv & ->). eauto.
  - simpl. eauto.
  - intros t' c'' Hstep'.
    apply step_evaluate in Hstep' as (verdict & ? & ? & Hv & ->). eauto.
Qed.

End Hydration.

Section HydrationRuns.
Import Item Latex Agent Samples.

Lemma hydration_returns_to_evaluate_witness :
  match advance sample_templates world_need_web_twice 3 []
          (entry_point, create_initial_state [item_1a]) with
  | Some (hist, (n, state)) =>
      n = n_web_search ∧
      match step sample_templates world_need_web_twice 3 (n, state) with
      | Ok c' =>
          c'.1 = n_evaluate ∧
          ∀ c'', step sample_templates world_need_web_twice 4 c' = Ok c'' →
                 c''.1 = _route_after_evaluate c''.2
      | Raise _ => False
      end
  | None => False
  end.
Proof.
  destruct (advance sample_templates world_need_web_twice 3 []
              (entry_point, create_initial_state [item_1a]))
    as [[hist [n state]]|] eqn:Hadv; [|by vm_compute in Hadv].
  assert (n = n_web_search) as ->.
  { vm_compute in Hadv. by injection Hadv as <- <- <-. }
  split; [done|].
  destruct (step sample_templates world_need_web_twice 3 (n_web_search, state))
    as [c'|] eqn:Hstep.
  - destruct (hydration_returns_to_evaluate
                sample_templates world_need_web_twice 3 state c' Hstep)
      as (Hnext & _ & Hfresh & _).
    split; [exact Hnext|].
    intros c'' Hstep'. by destruct (Hfresh 4 c'' Hstep') as (? & _ & _ & ?).
  - vm_compute in Hadv. injection Hadv as <- <-. by vm_compute in Hstep.
Defined.

(** C2, the code at the failing input: one item and an evaluator that
    answers "need_web" twice and then "sufficient".  [web_search] records
    "sufficient" after the first hydration, but the run goes back to
    [evaluate], which overwrites that verdict with the fresh "need_web", and
    the item is hydrated a second time before it is synthesized. *)
Lemma two_hydration_passes_for_one_item :
  invoke_trace sample_templates world_need_web_twice 20 [item_1a]
  = [ n_plan_research; n_retrieve; n_evaluate;
      n_web_search; n_evaluate;
      n_web_search; n_evaluate;
      n_synthesize; n_generate_latex ] ∧
  is_Some (match invoke sample_templates world_need_web_twice 20 [item_1a] with
           | Finished final => Some final
           | _ => None
           end).
Proof. split; vm_compute; [reflexivity|eauto]. Qed.

(** With an evaluator that keeps answering "need_web" the two nodes
    alternate for ever: no amount of fuel ends the run. *)
Lemma hydration_cycle_step t :
  let after_web := (n_evaluate, hydrated_state) in
  let after_evaluate := (n_web_search, flagged_state) in
  step sample_templates world_always_need_web t after_web = Ok after_evaluate ∧
  step sample_templates world_always_need_web t after_evaluate = Ok after_web.
Proof. split; reflexivity. Qed.

Lemma hydration_cycle_runs fuel : ∀ t,
  RunSpec.is_running (run sample_templates world_always_need_web fuel t
                (n_evaluate, hydrated_state)) = true ∧
  RunSpec.is_running (run sample_templates world_always_need_web fuel t
                (n_web_search, flagged_state)) = true.
Proof.
  induction fuel as [|fuel IH]; intros t; [done|].
  destruct (hydration_cycle_step t) as [Hevaluate Hweb].
  cbn zeta in Hevaluate, Hweb.
  split; cbn [run fst]; [rewrite Hevaluate|rewrite Hweb]; apply IH.
Qed.

Example hydration_can_repeat_for_ever fuel :
  RunSpec.is_running (invoke sample_templates world_always_need_web fuel [item_1a])
  = true.
Proof.
  destruct (decide (fuel < 4)) as [Hlt|Hge].
  - do 4 (destruct fuel as [|fuel]; [reflexivity|]). lia.
  - replace fuel with (4 + (fuel - 4)) by lia.
    generalize (fuel - 4). intros rest. unfold invoke.
    change (run sample_templates world_always_need_web (4 + rest) 0
              (entry_point, create_initial_state [item_1a]))
      with (run sample_templates world_always_need_web rest 4
              (n_evaluate, hydrated_state)).
    apply hydration_cycle_runs.
Qed.

End HydrationRuns.

(** ** The term definitions over a run *)

Section Definitions.
Import Item Latex Agent.
Context (tpl : Templates) (w : World).

Lemma web_search_results_step t c c' :
  step tpl w t c = Ok c' →
  dom (web_search_results c.2) ⊆ dom (web_search_results c'.2).
Proof.
  destruct c as [n state]. intros Hstep. simpl.
  destruct n.
  - by apply step_plan_research in Hstep as (? & ? & _ & _ & ->).
  - by apply step_retrieve in Hstep as (? & _ & ->).
  - by apply step_evaluate in Hstep as (? & ? & ? & _ & ->).
  - apply step_web_search in Hstep as [[_ ->]|[_ (? & _ & ->)]]; simpl; [done|].
    rewrite dom_union_L. apply union_subseteq_r.
  - by apply step_synthesize in Hstep as (? & ? & _ & _ & ->).
  - by apply step_generate_latex in Hstep as (? & _ & ->).
  - unfold step in Hstep. simpl in Hstep. by injection Hstep as <-.
Qed.

Lemma web_search_results_later items hist later : ∀ c c',
  reachable tpl w items hist c →
  reachable tpl w items (hist ++ later) c' →
  dom (web_search_results c.2) ⊆ dom (web_search_results c'.2).
Proof.
  induction later as [|n later IH] using rev_ind; intros c c' Hc Hc'.
  - rewrite app_nil_r in Hc'. by rewrite (reachable_det tpl w _ _ _ _ Hc Hc').
  - rewrite app_assoc in Hc'.
    apply reachable_snoc_inv in Hc' as (state & Hmid & _ & Hstep).
    etrans; [apply (IH _ _ Hc Hmid)|].
    apply (web_search_results_step _ _ _ Hstep).
Qed.

(** In a merge an old definition survives unless the same term is defined
    again, in which case the new text replaces it. *)
Lemma web_search_merge_lookup (new_defs old : gmap key string) k :
  (new_defs ∪ old) !! k = from_option Some (old !! k) (new_defs !! k).
Proof.
  rewrite lookup_union. by destruct (new_defs !! k), (old !! k).
Qed.

(** A definition found in a later configuration is the one the earlier
    configuration had, or one that a hydration in between produced for that
    term. *)
Lemma web_search_results_value_later items hist later : ∀ c c',
  reachable tpl w items hist c →
  reachable tpl w items (hist ++ later) c' →
  ∀ k d,
    web_search_results c'.2 !! k = Some d →
    web_search_results c.2 !! k = Some d ∨
    ∃ m state new_defs,
      m < length later ∧
      reachable tpl w items (hist ++ take m later) (n_web_search, state) ∧
      YouSearch.hydrate_terms (container_str w)
        (you_results w (length hist + m)) (unfamiliar_terms state) = Ok new_defs ∧
      new_defs !! k = Some d.
Proof.
  induction later as [|n later IH] using rev_ind; intros c c' Hc Hc' k d Hd.
  { rewrite app_nil_r in Hc'. left.
    by rewrite (reachable_det tpl w _ _ _ _ Hc Hc'). }
  rewrite app_assoc in Hc'.
  apply reachable_snoc_inv in Hc' as (state & Hmid & _ & Hstep).
  assert (web_search_results state !! k = Some d →
          web_search_results c.2 !! k = Some d ∨
          ∃ m state0 new_defs,
            m < length (later ++ [n]) ∧
            reachable tpl w items (hist ++ take m (later ++ [n]))
              (n_web_search, state0) ∧
            YouSearch.hydrate_terms (container_str w)
              (you_results w (length hist + m)) (unfamiliar_terms state0)
              = Ok new_defs ∧
            new_defs !! k = Some d) as Hearlier.
  { intros Hstate.
    destruct (IH _ _ Hc Hmid k d Hstate)
      as [?|(m & state0 & new_defs & Hm & Hreach & Hdefs & Hk)]; [by left|].
    right. exists m, state0, new_defs. rewrite length_app. simpl.
    split_and!; [lia| |done|done].
    by rewrite take_app_le by lia. }
  destruct n.
  - apply step_plan_research in Hstep as (? & ? & _ & _ & ->). by apply Hearlier.
  - apply step_retrieve in Hstep as (? & _ & ->). by apply Hearlier.
  - apply step_evaluate in Hstep as (? & ? & ? & _ & ->). by apply Hearlier.
  - apply step_web_search in Hstep as [[_ ->]|[_ (new_defs & Hdefs & ->)]];
      [by apply Hearlier|].
    simpl in Hd. apply lookup_union_Some_raw in Hd as [Hnew|[_ Hold]];
      [|by apply Hearlier].
    right. exists (length later), state, new_defs. rewrite length_app. simpl.
    split_and!; [lia| |by rewrite <-length_app|done].
    by rewrite take_app_le, take_ge by lia.
  - apply step_synthesize in Hstep as (? & ? & _ & _ & ->). by apply Hearlier.
  - apply step_generate_latex in Hstep as (? & _ & ->). by apply Hearlier.
  - unfold step in Hstep. simpl in Hstep. injection Hstep as <-.
    by apply Hearlier.
Qed.

(** C10 (amended).  Along a run the mapping is never cleared and the set
    of defined terms only grows.  A definition read in a later configuration
    is the one the term had before, or the one that a hydration of that term
    in between produced: a term keeps its definition until it is hydrated
    again and then takes the newer text.  Every node but [web_search],
    [plan_research] included, hands the mapping on unchanged; [web_search]
    merges the new definitions over it; and [synthesize] sends the whole
    mapping with its request and stores the draft it gets for that
    request. *)
Theorem definitions_persist items hist later c c' :
  reachable tpl w items hist c →
  reachable tpl w items (hist ++ later) c' →
  dom (web_search_results c.2) ⊆ dom (web_search_results c'.2) ∧
  (∀ k d,
     web_search_results c'.2 !! k = Some d →
     web_search_results c.2 !! k = Some d ∨
     ∃ m state new_defs,
       m < length later ∧
       reachable tpl w items (hist ++ take m later) (n_web_search, state) ∧
       YouSearch.hydrate_terms (container_str w)
         (you_results w (length hist + m)) (unfamiliar_terms state)
         = Ok new_defs ∧
       new_defs !! k = Some d) ∧
  (∀ c'', step tpl w (length (hist ++ later)) c' = Ok c'' →
     (c'.1 ≠ n_web_search →
        web_search_results c''.2 = web_search_results c'.2) ∧
     (c'.1 = n_web_search →
        (truthy (unfamiliar_terms c'.2) = false ∧
         web_search_results c''.2 = web_search_results c'.2) ∨
        (truthy (unfamiliar_terms c'.2) = true ∧
         ∃ new_defs,
           YouSearch.hydrate_terms (container_str w)
             (you_results w (length (hist ++ later))) (unfamiliar_terms c'.2)
             = Ok new_defs ∧
           ∀ k, web_search_results c''.2 !! k
                = from_option Some (web_search_results c'.2 !! k)
                    (new_defs !! k))) ∧
     (c'.1 = n_synthesize →
        ∃ item draft,
          current_item c'.2 = Ok item ∧
          chat w (length (hist ++ later)) 0
            (DraftRequest item (take 20 (retrieved_chunks c'.2))
               (web_search_results c'.2)) = Ok draft ∧
          section_drafts c''.2 !! id item = Some draft)).
Proof.
  intros Hc Hc'.
  pose proof (web_search_results_later _ _ _ _ _ Hc Hc') as Hmono.
  pose proof (web_search_results_value_later _ _ _ _ _ Hc Hc') as Hvalue.
  split_and!; [done|done|].
  intros c'' Hstep. destruct c' as [n state]. simpl in *. split_and!.
  - intros Hn. destruct n; [| | |done| | |].
    + by apply step_plan_research in Hstep as (? & ? & _ & _ & ->).
    + by apply step_retrieve in Hstep as (? & _ & ->).
    + by apply step_evaluate in Hstep as (? & ? & ? & _ & ->).
    + by apply step_synthesize in Hstep as (? & ? & _ & _ & ->).
    + by apply step_generate_latex in Hstep as (? & _ & ->).
    + unfold step in Hstep. simpl in Hstep. by injection Hstep as <-.
  - intros ->.
    apply step_web_search in Hstep
      as [[Hterms ->]|[Hterms (new_defs & Hdefs & ->)]]; simpl.
    + by left.
    + right. split; [done|]. exists new_defs. split; [done|].
      intros k. apply web_search_merge_lookup.
  - intros ->.
    apply step_synthesize in Hstep as (item & draft & Hitem & Hdraft & ->).
    exists item, draft. split_and!; [done|done|]. simpl.
    by rewrite lookup_insert_eq.
Qed.

End Definitions.

Section DefinitionsRuns.
Import Item Latex Agent Samples.

(** The definition hydrated for item 1a is the one that the request for
    item 6a carries, no hydration of that term having run in between, and
    the draft of item 6a is the reply to that request. *)
Lemma definitions_persist_witness :
  match advance sample_templates world_need_web_twice 6 []
          (entry_point, create_initial_state [item_1a; item_6a]),
        advance sample_templates world_need_web_twice 11 []
          (entry_point, create_initial_state [item_1a; item_6a]) with
  | Some (hist, c), Some (hist', c') =>
      web_search_results c.2 !! KStr "ANCOVA" = Some "Analysis of covariance." ∧
      c'.1 = n_synthesize ∧ current_item c'.2 = Ok item_6a ∧
      dom (web_search_results c.2) ⊆ dom (web_search_results c'.2) ∧
      web_search_results c'.2 !! KStr "ANCOVA" = Some "Analysis of covariance." ∧
      ∀ c'', step sample_templates world_need_web_twice 11 c' = Ok c'' →
        ∃ draft,
          chat world_need_web_twice 11 0
            (DraftRequest item_6a (take 20 (retrieved_chunks c'.2))
               (web_search_results c'.2)) = Ok draft ∧
          section_drafts c''.2 !! "6a" = Some draft
  | _, _ => False
  end.
Proof.
  destruct (advance sample_templates world_need_web_twice 6 []
              (entry_point, create_initial_state [item_1a; item_6a]))
    as [[hist c]|] eqn:Hadv; [|by vm_compute in Hadv].
  destruct (advance sample_templates world_need_web_twice 11 []
              (entry_point, create_initial_state [item_1a; item_6a]))
    as [[hist' c']|] eqn:Hadv'; [|by vm_compute in Hadv'].
  assert (reachable sample_templates world_need_web_twice [item_1a; item_6a] hist c)
    as Hc by (eapply advance_reachable; [apply reach_init|exact Hadv]).
  assert (reachable sample_templates world_need_web_twice [item_1a; item_6a] hist' c')
    as Hc' by (eapply advance_reachable; [apply reach_init|exact Hadv']).
  assert (hist' = hist ++ drop 6 hist') as Hsplit.
  { vm_compute in Hadv, Hadv'. injection Hadv as <- _. injection Hadv' as <- _.
    reflexivity. }
  assert (length hist' = 11) as Hlen.
  { vm_compute in Hadv'. by injection Hadv' as <- _. }
  rewrite Hsplit in Hc'.
  destruct (definitions_persist sample_templates world_need_web_twice
              [item_1a; item_6a] hist (drop 6 hist') c c' Hc Hc')
    as (Hmono & _ & Hnext).
  rewrite <-Hsplit, Hlen in Hnext.
  assert (c'.1 = n_synthesize ∧ current_item c'.2 = Ok item_6a ∧
          web_search_results c'.2 !! KStr "ANCOVA"
            = Some "Analysis of covariance.") as (Hnode & Hitem & Hvalue).
  { vm_compute in Hadv'. injection Hadv' as _ <-. by vm_compute. }
  split_and!; [|done|done|exact Hmono|done|].
  - vm_compute in Hadv. injection Hadv as _ <-. by vm_compute.
  - intros c'' Hstep.
    destruct (Hnext c'' Hstep) as (_ & _ & Hsynthesize).
    destruct (Hsynthesize Hnode) as (item & draft & Hitem' & Hdraft & Hstored).
    assert (item = item_6a) as -> by congruence.
    by exists draft.
Defined.

(** C10 as written fails: a definition hydrated for item 1a is not part of
    the request for item 6a when the term is flagged again for item 6a and
    the second lookup fails.  The placeholder of the failed lookup replaces
    the definition, and the draft of item 6a is written from the
    placeholder. *)
Lemma rehydration_replaces_definition :
  match advance sample_templates world_rehydrate 4 []
          (entry_point, create_initial_state [item_1a; item_6a]),
        advance sample_templates world_rehydrate 11 []
          (entry_point, create_initial_state [item_1a; item_6a]) with
  | Some (hist, c), Some (hist', c') =>
      hist = [n_plan_research; n_retrieve; n_evaluate; n_web_search] ∧
      current_item c.2 = Ok item_1a ∧
      web_search_results c.2 !! KStr "ANCOVA" = Some "Analysis of covariance." ∧
      c'.1 = n_synthesize ∧ current_item c'.2 = Ok item_6a ∧
      ∃ evidence definitions,
        synthesize_request item_6a c'.2
          = DraftRequest item_6a evidence definitions ∧
        definitions !! KStr "ANCOVA" = Some "No definition found for 'ANCOVA'."
  | _, _ => False
  end ∧
  match invoke sample_templates world_rehydrate 20 [item_1a; item_6a] with
  | Finished final =>
      section_drafts final !! "6a"
      = Some "Draft of item 6a. ANCOVA: No definition found for 'ANCOVA'."
  | _ => False
  end.
Proof.
  split; [|by vm_compute].
  vm_compute. split_and!; [reflexivity..|].
  eexists _, _. split; reflexivity.
Qed.

End DefinitionsRuns.

(** ** Failures of the external collaborators *)

Section UpstreamFailures.
Import Retrieval YouSearch.

Lemma search_term_failure wrapper_reply term e :
  wrapper_reply ("definition of " +:+ term +:+ " in clinical trials") = Raise e →
  search_term wrapper_reply term = Ok [].
Proof. unfold search_term. by intros ->. Qed.

Lemma search_failure embed_reply qdrant_reply query top_k e :
  embed_reply query = Raise e ∨
    (∃ v, embed_reply query = Ok v ∧ qdrant_reply v top_k = Raise e) →
  search embed_reply qdrant_reply query top_k = Raise e.
Proof.
  unfold search. intros [->|(v & -> & Hq)]; simpl; [done|]. by rewrite Hq.
Qed.

Lemma mqs_loop_failure search_at k e qs : ∀ i acc j q,
  qs !! j = Some q →
  (∀ j' q', j' < j → qs !! j' = Some q' → is_ok (search_at (i + j') q' k)) →
  search_at (i + j) q k = Raise e →
  mqs_loop search_at i qs k acc = Raise e.
Proof.
  induction qs as [|q0 qs IH]; intros i acc j q Hq Hearlier Hfail; [done|].
  destruct j as [|j]; simpl in *.
  - injection Hq as ->. rewrite Nat.add_0_r in Hfail. by rewrite Hfail.
  - specialize (Hearlier 0 q0 ltac:(lia) eq_refl) as Hfirst.
    rewrite Nat.add_0_r in Hfirst.
    destruct (search_at i q0 k) as [results|]; [|done]. simpl.
    apply (IH (S i) _ j q); [done| |].
    + intros j' q' Hlt Hq'. replace (S i + j') with (i + S j') by lia.
      apply Hearlier; [lia|done].
    + by replace (S i + j) with (i + S j) by lia.
Qed.

(** C7 (amended).  A failed web lookup leaves [search_term] with the empty
    list, and [hydrate_terms] then records the placeholder definition for
    that term.  A failed embedding or vector search leaves [search] with the
    exception, and [multi_query_search] with it: the Evidence Store side has
    no handler. *)
Theorem upstream_failure_handling
    (container_str : json → string)
    (wrapper_reply : string → outcome raw_results) (term : string)
    (definitions : gmap key string)
    (embed_reply : json → outcome (list Z))
    (qdrant_reply : list Z → nat → outcome (list ScoredPoint))
    (search_at : nat → json → nat → outcome (list RetrievedChunk))
    (queries : json) (qs : list json) (j : nat) (q : json) (k : nat) (e e' : exn) :
  wrapper_reply ("definition of " +:+ term +:+ " in clinical trials") = Raise e →
  embed_reply q = Raise e' ∨
    (∃ v, embed_reply q = Ok v ∧ qdrant_reply v k = Raise e') →
  iter queries = Ok qs →
  qs !! j = Some q →
  (∀ j' q', j' < j → qs !! j' = Some q' → is_ok (search_at j' q' k)) →
  search_at j q k = search embed_reply qdrant_reply q k →
  search_term wrapper_reply term = Ok [] ∧
  hydrate_term container_str wrapper_reply definitions (JStr term)
    = Ok (<[KStr term := placeholder_definition term]> definitions) ∧
  search embed_reply qdrant_reply q k = Raise e' ∧
  multi_query_search search_at queries k = Raise e'.
Proof.
  intros Hweb Hstore Hqs Hq Hearlier Hsearch.
  pose proof (search_term_failure _ _ _ Hweb) as Hterm.
  pose proof (search_failure _ _ _ _ _ Hstore) as Hfail.
  split_and!; [done| |done|].
  - unfold hydrate_term. simpl. by rewrite Hterm.
  - unfold multi_query_search. rewrite Hqs. simpl.
    rewrite (mqs_loop_failure search_at k e' qs 0 _ j q); [done|done|done|].
    simpl. by rewrite Hsearch.
Qed.

End UpstreamFailures.

Section UpstreamFailureRuns.
Import Item Latex Agent Samples.

Lemma upstream_failure_handling_witness :
  let down := UpstreamError "service unavailable" in
  YouSearch.search_term (λ _, Raise down) "ANCOVA" = Ok [] ∧
  YouSearch.hydrate_term sample_container_str (λ _, Raise down) ∅ (JStr "ANCOVA")
    = Ok {[ KStr "ANCOVA" := "No definition found for 'ANCOVA'." ]} ∧
  Retrieval.multi_query_search
    (λ _ q k, Retrieval.search (λ _, Raise down) (λ _ _, Ok []) q k) two_queries 5
    = Raise down.
Proof.
  intros down.
  destruct (upstream_failure_handling sample_container_str
              (λ _, Raise down) "ANCOVA" ∅
              (λ _, Raise down) (λ _ _, Ok [])
              (λ _ q k, Retrieval.search (λ _, Raise down) (λ _ _, Ok []) q k)
              two_queries [JStr "primary outcome"; JStr "sample size"]
              0 (JStr "primary outcome") 5 down down)
    as (Hterm & Hdef & _ & Hmqs).
  - reflexivity.
  - left. reflexivity.
  - reflexivity.
  - reflexivity.
  - intros j' q' Hlt. lia.
  - reflexivity.
  - split; [exact Hterm|]. split; [exact Hdef|exact Hmqs].
Defined.

(** C7 as written fails for the Evidence Store: with the embedding service
    down the first [search] raises, and the run ends with that exception. *)
Lemma evidence_store_failure_aborts_run :
  Retrieval.search (embed world_store_down 1 0) (qdrant_search world_store_down 1 0)
    (JStr "primary outcome") 5
    = Raise (UpstreamError "embeddings unavailable") ∧
  invoke_trace sample_templates world_store_down 20 [item_1a]
    = [n_plan_research; n_retrieve] ∧
  invoke sample_templates world_store_down 20 [item_1a]
    = Failed (UpstreamError "embeddings unavailable").
Proof. split_and!; vm_compute; reflexivity. Qed.

(** The Knowledge Hydrator side does degrade: with the web search down the
    run still completes, the term carrying the placeholder definition. *)
Example web_search_failure_is_absorbed :
  let w := {| json_loads := json_loads world_need_web_twice;
              chat := chat world_need_web_twice;
              embed := embed world_need_web_twice;
              qdrant_search := qdrant_search world_need_web_twice;
              you_results := λ _ _ _, Raise (UpstreamError "web search down");
              container_str := container_str world_need_web_twice |} in
  match invoke sample_templates w 20 [item_1a] with
  | Finished final =>
      web_search_results final !! KStr "ANCOVA"
      = Some "No definition found for 'ANCOVA'."
  | _ => False
  end.
Proof. vm_compute. reflexivity. Qed.

End UpstreamFailureRuns.

(** ** latex/generator.py: the assembled document *)

Section Assembly.
Import Item Latex.
Context (tpl : Templates).

Lemma assemble_item_block latex_sections parts current_section current_topic item :
  assemble_item tpl latex_sections (parts, current_section, current_topic) item
  = (parts ++ item_block tpl latex_sections current_section current_topic item,
     section item, topic item).
Proof.
  unfold assemble_item, item_block, item_body.
  destruct (decide (section item ≠ current_section)) as [Hs|Hs].
  - rewrite (bool_decide_eq_true_2 _ Hs).
    destruct (decide (topic item ≠ "")) as [Ht|Ht].
    + rewrite (bool_decide_eq_true_2 _ Ht).
      case_decide; by rewrite <- !app_assoc.
    + rewrite (bool_decide_eq_false_2 _ Ht). apply dec_stable in Ht.
      case_decide; rewrite <- !app_assoc; simpl; by rewrite Ht.
  - rewrite (bool_decide_eq_false_2 _ Hs). apply dec_stable in Hs.
    destruct (decide (topic item ≠ current_topic)) as [Ht|Ht].
    + rewrite (bool_decide_eq_true_2 _ Ht).
      case_decide; rewrite <- !app_assoc; simpl; by rewrite Hs.
    + rewrite (bool_decide_eq_false_2 _ Ht). apply dec_stable in Ht.
      case_decide; simpl; by rewrite Hs, Ht.
Qed.

Lemma assemble_items_blocks latex_sections items : ∀ parts current_section current_topic,
  (foldl (assemble_item tpl latex_sections) (parts, current_section, current_topic) items).1.1
  = parts ++ body_blocks tpl latex_sections current_section current_topic items.
Proof.
  induction items as [|item items IH]; intros parts cs ct; cbn [foldl body_blocks].
  { simpl. by rewrite app_nil_r. }
  rewrite assemble_item_block, IH. by rewrite <- app_assoc.
Qed.

Lemma table_rows_fold items : ∀ parts,
  foldl (λ parts item, parts ++ [table_row tpl item]) parts items
  = parts ++ (table_row tpl <$> items).
Proof.
  induction items as [|item items IH]; intros parts; simpl.
  { by rewrite app_nil_r. }
  rewrite IH. by rewrite <- app_assoc.
Qed.

(** Every item contributes its fragment or the placeholder, never nothing. *)
Lemma item_block_not_silent latex_sections prev_section prev_topic item :
  (∃ fragment, latex_sections !! id item = Some fragment ∧ fragment ≠ "" ∧
               fragment ∈ item_block tpl latex_sections prev_section prev_topic item) ∨
  ((latex_sections !! id item = None ∨ latex_sections !! id item = Some "") ∧
   placeholder item ∈ item_block tpl latex_sections prev_section prev_topic item).
Proof.
  unfold item_block, item_body.
  destruct (latex_sections !! id item) as [fragment|] eqn:Hfrag; simpl.
  - destruct (decide (fragment ≠ "")) as [Hne|He].
    + left. exists fragment. split_and!; [done..|].
      rewrite !elem_of_app. right; right. unfold fragment_block.
      rewrite !elem_of_cons. auto.
    + right. apply dec_stable in He as ->. split; [by right|].
      rewrite !elem_of_app. right; right. apply list_elem_of_singleton. done.
  - right. split; [by left|].
    rewrite !elem_of_app. right; right. apply list_elem_of_singleton. done.
Qed.

(** C8 (amended).  The assembled lines are: the frame; then one block per
    item, in input order; then the compliance table with one row per item, in
    input order, whatever fragments exist; then the closing frame.  The block
    of an item holds the section marker exactly when its section differs from
    the previous item's section, the topic marker exactly when its topic
    differs from the current topic (the previous item's topic, or the empty
    string when the section marker was just inserted), and then the fragment
    if there is a non-empty one and the explicit placeholder line otherwise;
    no item is skipped. *)
Theorem sections_parts_layout (consort_items : list ConsortItem)
    (latex_sections : gmap string string) :
  sections_parts tpl consort_items latex_sections
  = [PREAMBLE tpl; ""; BEGIN_DOCUMENT tpl; ""] ++
    body_blocks tpl latex_sections "" "" consort_items ++
    [""; CONSORT_TABLE_HEADER tpl] ++
    (table_row tpl <$> consort_items) ++
    [CONSORT_TABLE_FOOTER tpl; ""; END_DOCUMENT tpl] ∧
  ∀ prev_section prev_topic item,
    (∃ fragment, latex_sections !! id item = Some fragment ∧ fragment ≠ "" ∧
                 fragment ∈ item_block tpl latex_sections prev_section prev_topic item) ∨
    ((latex_sections !! id item = None ∨ latex_sections !! id item = Some "") ∧
     placeholder item ∈ item_block tpl latex_sections prev_section prev_topic item).
Proof.
  split; [|intros; apply item_block_not_silent].
  unfold sections_parts.
  pose proof (assemble_items_blocks latex_sections consort_items
                [PREAMBLE tpl; ""; BEGIN_DOCUMENT tpl; ""] "" "") as Hbody.
  destruct (foldl (assemble_item tpl latex_sections) _ consort_items)
    as [[parts cs] ct]. simpl in Hbody. subst parts.
  rewrite table_rows_fold. by rewrite <- !app_assoc.
Qed.

End Assembly.

Section AssemblyRuns.
Import Item Latex Samples.

(** C8 as written fails for the topic marker: two consecutive items with
    the same topic in different sections.  The topic does not change, yet
    the second item gets a topic marker, because entering a section resets
    the current topic. *)
Lemma topic_marker_after_section_change :
  topic item_17a = topic item_6a ∧
  body_blocks sample_templates ∅ "" "" [item_6a; item_17a]
  = [ ""; "\section{Methods}"; "\subsection{Outcomes}"; "\label{sec:6a}";
      placeholder item_6a;
      ""; "\section{Results}"; "\subsection{Outcomes}"; "\label{sec:17a}";
      placeholder item_17a ] ∧
  body_as_specified sample_templates ∅ "" "" [item_6a; item_17a]
  = [ ""; "\section{Methods}"; "\subsection{Outcomes}"; "\label{sec:6a}";
      placeholder item_6a;
      ""; "\section{Results}";
      placeholder item_17a ] ∧
  sections_parts sample_templates [item_6a; item_17a] ∅
  ≠ parts_as_specified sample_templates [item_6a; item_17a] ∅.
Proof.
  split_and!; [reflexivity|vm_compute; reflexivity|vm_compute; reflexivity|].
  vm_compute. discriminate.
Qed.

End AssemblyRuns.

(** * Further properties of the control loop *)

Section RunFacts.
Import Item Latex Agent RunSpec.
Context (tpl : Templates) (w : World).

(** A relation that every step preserves holds between any configuration of
    a run and any later one. *)
Lemma reachable_later (R : relation AgentState) items :
  (∀ s, R s s) →
  (∀ s1 s2 s3, R s1 s2 → R s2 s3 → R s1 s3) →
  (∀ hist c c',
     reachable tpl w items hist c → c.1 ≠ END →
     step tpl w (length hist) c = Ok c' → R c.2 c'.2) →
  ∀ later hist c c',
    reachable tpl w items hist c →
    reachable tpl w items (hist ++ later) c' →
    R c.2 c'.2.
Proof.
  intros Hrefl Htrans Hstep later.
  induction later as [|n later IH] using rev_ind; intros hist c c' Hc Hc'.
  - rewrite app_nil_r in Hc'. rewrite (reachable_det tpl w _ _ _ _ Hc Hc'). apply Hrefl.
  - rewrite app_assoc in Hc'.
    apply reachable_snoc_inv in Hc' as (state & Hmid & Hne & Hstep').
    eapply Htrans; [apply (IH _ _ _ Hc Hmid)|].
    apply (Hstep _ _ _ Hmid Hne Hstep').
Qed.

(** Every run, finished or not, is a path of [reachable] whose history is
    [trace]. *)
Lemma run_trace_reachable items fuel : ∀ hist c,
  reachable tpl w items hist c →
  match run tpl w fuel (length hist) c with
  | Finished final =>
      reachable tpl w items (hist ++ trace tpl w fuel (length hist) c) (END, final)
  | Running c' =>
      reachable tpl w items (hist ++ trace tpl w fuel (length hist) c) c' ∧
      c'.1 ≠ END ∧ length (trace tpl w fuel (length hist) c) = fuel
  | Failed e =>
      ∃ hist' c0,
        trace tpl w fuel (length hist) c = hist' ++ [c0.1] ∧
        reachable tpl w items (hist ++ hist') c0 ∧ c0.1 ≠ END ∧
        step tpl w (length (hist ++ hist')) c0 = Raise e
  end.
Proof.
  induction fuel as [|fuel IH]; intros hist [n state] Hreach.
  - destruct (decide (n = END)) as [->|Hne].
    + simpl. by rewrite app_nil_r.
    + destruct n; simpl; try done; by rewrite app_nil_r.
  - destruct (decide (n = END)) as [->|Hne].
    { rewrite run_END, trace_END, app_nil_r. done. }
    rewrite run_S, trace_S by done.
    destruct (step tpl w (length hist) (n, state)) as [c'|e] eqn:Hstep.
    + assert (reachable tpl w items (hist ++ [n]) c') as Hreach'
        by by apply (reach_step _ _ _ _ (n, state)).
      specialize (IH _ _ Hreach').
      replace (length (hist ++ [n])) with (S (length hist)) in IH
        by (rewrite length_app; simpl; lia).
      simpl. rewrite (cons_middle n), app_assoc.
      destruct (run tpl w fuel (S (length hist)) c') as [final|e|c''].
      * done.
      * destruct IH as (hist' & c0 & Htrace & Hc0 & Hne0 & Hfail).
        exists ([n] ++ hist'), c0. rewrite Htrace.
        rewrite <- !app_assoc in *. done.
      * destruct IH as (Hc'' & Hne'' & Hlen). split_and!; [done|done|].
        simpl. by rewrite Hlen.
    + exists [], (n, state). simpl. rewrite app_nil_r. done.
Qed.

End RunFacts.

(** ** Evidence accumulation *)

Section Evidence.
Import Item Latex Agent RunSpec.
Context (tpl : Templates) (w : World).

Lemma merge_chunk_seen acc cd : seen_consistent acc → seen_consistent (merge_chunk acc cd).
Proof.
  destruct acc as [seen existing]. unfold seen_consistent, merge_chunk. simpl.
  intros ->. case_decide as Hin; [done|]. simpl.
  rewrite fmap_app, list_to_set_app_L. simpl.
  rewrite (right_id_L ∅ (∪)). apply (comm_L (∪)).
Qed.

Lemma merge_chunk_NoDup acc cd :
  seen_consistent acc → NoDup (text <$> acc.2) →
  NoDup (text <$> (merge_chunk acc cd).2).
Proof.
  destruct acc as [seen existing]. unfold seen_consistent, merge_chunk. simpl.
  intros -> Hnd. case_decide as Hin; [done|]. simpl.
  rewrite fmap_app. simpl. apply NoDup_app. split_and!; [done| |apply NoDup_singleton].
  intros x Hx Hx'. apply list_elem_of_singleton in Hx' as ->.
  apply Hin. by apply elem_of_list_to_set.
Qed.

Lemma merge_chunk_grows acc cd :
  acc.2 `prefix_of` (merge_chunk acc cd).2 ∧
  acc.1 ⊆ (merge_chunk acc cd).1 ∧
  text cd ∈ (merge_chunk acc cd).1 ∧
  (∀ d, d ∈ (merge_chunk acc cd).2 → d ∈ acc.2 ∨ d = cd).
Proof.
  destruct acc as [seen existing]. unfold merge_chunk.
  case_decide as Hin; simpl.
  - split_and!; [done|done|done|by left].
  - split_and!.
    + by apply prefix_app_r.
    + apply union_subseteq_r.
    + apply elem_of_union. left. by apply elem_of_singleton.
    + intros d [Hd|Hd%list_elem_of_singleton]%elem_of_app; [by left|by right].
Qed.

Lemma merge_chunks_fold chunk_dicts : ∀ acc,
  seen_consistent acc →
  let acc' := foldl merge_chunk acc chunk_dicts in
  seen_consistent acc' ∧
  (NoDup (text <$> acc.2) → NoDup (text <$> acc'.2)) ∧
  acc.2 `prefix_of` acc'.2 ∧
  acc.1 ⊆ acc'.1 ∧
  (∀ cd, cd ∈ chunk_dicts → text cd ∈ acc'.1) ∧
  (∀ d, d ∈ acc'.2 → d ∈ acc.2 ∨ d ∈ chunk_dicts).
Proof.
  induction chunk_dicts as [|cd rest IH]; intros acc Hok; simpl.
  { split_and!; [done|done|done|done| |by left]. by intros cd ?%elem_of_nil. }
  destruct (merge_chunk_grows acc cd) as (Hpre & Hsub & Hin & Hfrom).
  destruct (IH (merge_chunk acc cd) (merge_chunk_seen _ _ Hok))
    as (Hok' & Hnd' & Hpre' & Hsub' & Hall & Hfrom').
  split_and!; [done| |by etrans|by etrans| |].
  - intros Hnd. by apply Hnd', merge_chunk_NoDup.
  - intros cd' [->|Hcd']%elem_of_cons; [by apply Hsub'|by apply Hall].
  - intros d Hd. apply Hfrom' in Hd as [Hd|Hd]; [|right; by right].
    apply Hfrom in Hd as [Hd| ->]; [by left|right; by left].
Qed.

Lemma merge_chunks_spec existing chunk_dicts :
  (NoDup (text <$> existing) →
   NoDup (text <$> merge_chunks existing chunk_dicts)) ∧
  existing `prefix_of` merge_chunks existing chunk_dicts ∧
  (∀ cd, cd ∈ chunk_dicts → text cd ∈ text <$> merge_chunks existing chunk_dicts) ∧
  (∀ d, d ∈ merge_chunks existing chunk_dicts → d ∈ existing ∨ d ∈ chunk_dicts).
Proof.
  unfold merge_chunks.
  destruct (merge_chunks_fold chunk_dicts (list_to_set (text <$> existing), existing))
    as (Hseen & Hnd' & Hpre & _ & Hall & Hfrom); [done|].
  split_and!; [done|done| |done].
  intros cd Hcd. apply Hall in Hcd. rewrite Hseen in Hcd.
  by apply elem_of_list_to_set in Hcd.
Qed.

Lemma evidence_NoDup_step t c c' :
  NoDup (text <$> retrieved_chunks c.2) →
  step tpl w t c = Ok c' →
  NoDup (text <$> retrieved_chunks c'.2).
Proof.
  destruct c as [n state]. intros Hnd Hstep. simpl in *.
  destruct n.
  - apply step_plan_research in Hstep as (? & ? & _ & _ & ->). apply NoDup_nil_2.
  - apply step_retrieve in Hstep as (? & _ & ->). simpl.
    by apply merge_chunks_spec.
  - by apply step_evaluate in Hstep as (? & ? & ? & _ & ->).
  - by apply step_web_search in Hstep as [[_ ->]|[_ (? & _ & ->)]].
  - by apply step_synthesize in Hstep as (? & ? & _ & _ & ->).
  - by apply step_generate_latex in Hstep as (? & _ & ->).
  - unfold step in Hstep. simpl in Hstep. by injection Hstep as <-.
Qed.

(** X1.  In every configuration of a run the accumulated evidence holds no
    two chunks with the same text. *)
Theorem evidence_never_duplicated items hist c :
  reachable tpl w items hist c →
  NoDup (text <$> retrieved_chunks c.2).
Proof.
  induction 1 as [|hist c c' _ IH _ Hstep].
  - apply NoDup_nil_2.
  - by eapply evidence_NoDup_step.
Qed.

(** X2.  A retrieval keeps the evidence gathered so far as a prefix of the
    new evidence, adds a chunk for every text that the search returned, and
    adds nothing else. *)
Theorem retrieve_accumulates t state c' :
  step tpl w t (n_retrieve, state) = Ok c' →
  ∃ chunks,
    Retrieval.multi_query_search (search_at w t) (research_queries state) 5
      = Ok chunks ∧
    retrieved_chunks state `prefix_of` retrieved_chunks c'.2 ∧
    (∀ c, c ∈ chunks → Retrieval.text c ∈ text <$> retrieved_chunks c'.2) ∧
    (∀ d, d ∈ retrieved_chunks c'.2 →
          d ∈ retrieved_chunks state ∨ d ∈ chunk_dict <$> chunks).
Proof.
  intros Hstep.
  apply step_retrieve in Hstep as (chunks & Hsearch & ->). simpl.
  destruct (merge_chunks_spec (retrieved_chunks state) (chunk_dict <$> chunks))
    as (_ & Hpre & Hall & Hfrom).
  exists chunks. split_and!; [done|done| |done].
  intros c Hc. apply (Hall (chunk_dict c)). by apply list_elem_of_fmap_2.
Qed.

End Evidence.

(** ** Counting the steps of a run *)

Section StepCounts.
Import Item Latex Agent RunSpec.
Context (tpl : Templates) (w : World).

#[local] Arguments Nat.mul : simpl never.

Lemma retrievals_since_plan_snoc hist n :
  retrievals_since_plan (hist ++ [n])
  = if decide (n = n_plan_research) then 0
    else if decide (n = n_retrieve) then S (retrievals_since_plan hist)
    else retrievals_since_plan hist.
Proof. unfold retrievals_since_plan. by rewrite foldl_snoc. Qed.

Lemma hop_count_step hist c c' :
  hop_count c.2 = retrievals_since_plan hist →
  step tpl w (length hist) c = Ok c' →
  hop_count c'.2 = retrievals_since_plan (hist ++ [c.1]).
Proof.
  destruct c as [n state]. intros Hhops Hstep. simpl in *.
  rewrite retrievals_since_plan_snoc.
  destruct n; simpl.
  - by apply step_plan_research in Hstep as (? & ? & _ & _ & ->).
  - apply step_retrieve in Hstep as (? & _ & ->). simpl. lia.
  - by apply step_evaluate in Hstep as (? & ? & ? & _ & ->).
  - by apply step_web_search in Hstep as [[_ ->]|[_ (? & _ & ->)]].
  - by apply step_synthesize in Hstep as (? & ? & _ & _ & ->).
  - by apply step_generate_latex in Hstep as (? & _ & ->).
  - unfold step in Hstep. simpl in Hstep. by injection Hstep as <-.
Qed.

(** X3.  The hop counter is the number of retrievals executed for the
    current item, so no item is retrieved for more than three times. *)
Theorem hop_count_counts_retrievals items hist c :
  reachable tpl w items hist c →
  hop_count c.2 = retrievals_since_plan hist ∧
  retrievals_since_plan hist ≤ 3.
Proof.
  intros Hreach.
  assert (hop_count c.2 = retrievals_since_plan hist) as Heq.
  { induction Hreach as [|hist c c' _ IH _ Hstep]; [done|].
    by apply hop_count_step. }
  split; [done|]. rewrite <- Heq.
  by apply reachable_hop_inv in Hreach as [? _].
Qed.

Lemma count_node_snoc n hist m :
  count_node n (hist ++ [m])
  = count_node n hist + (if decide (m = n) then 1 else 0).
Proof.
  unfold count_node. rewrite filter_app, length_app. f_equal.
  rewrite filter_cons, filter_nil. by case_decide.
Qed.

Lemma count_node_le n hist : count_node n hist ≤ length hist.
Proof. apply length_filter. Qed.

(** The measure grows with every step, except that the return from a
    hydration loses one unit, which the count of hydrations pays for. *)
Lemma progress_step items hist c c' :
  reachable tpl w items hist c →
  c.1 ≠ END →
  step tpl w (length hist) c = Ok c' →
  progress (length items) c + 1
  ≤ progress (length items) c' + 2 * (if decide (c.1 = n_web_search) then 1 else 0).
Proof.
  intros Hreach Hne Hstep.
  pose proof (reachable_hop_inv _ _ _ _ _ Hreach) as [Hhop Hhop'].
  pose proof (reachable_cover_inv _ _ _ _ _ Hreach) as (_ & _ & _ & Hidx).
  destruct c as [n state]. unfold progress. simpl in *.
  destruct n; [| | | | | |done].
  - apply step_plan_research in Hstep as (? & ? & _ & _ & ->). simpl. lia.
  - apply step_retrieve in Hstep as (? & _ & ->). simpl. lia.
  - apply step_evaluate in Hstep as (? & ? & ? & _ & ->). simpl.
    unfold _route_after_evaluate. simpl.
    destruct (eq_str _ "need_more"); [lia|]. destruct (eq_str _ "need_web"); lia.
  - apply step_web_search in Hstep as [[_ ->]|[_ (? & _ & ->)]]; simpl; lia.
  - apply step_synthesize in Hstep as (? & ? & _ & _ & ->). simpl.
    unfold _route_after_synthesize. simpl.
    pose proof (reachable_cover_inv _ _ _ _ _ Hreach) as (Hitems & _). simpl in Hitems.
    rewrite Hitems. case_bool_decide; simpl; lia.
  - apply step_generate_latex in Hstep as (? & _ & ->). simpl. lia.
Qed.

Lemma progress_bound items hist c :
  reachable tpl w items hist c →
  length hist ≤ progress (length items) c + 2 * count_node n_web_search hist.
Proof.
  induction 1 as [|hist c c' Hreach IH Hne Hstep].
  - simpl. lia.
  - pose proof (progress_step _ _ _ _ Hreach Hne Hstep) as Hprog.
    rewrite length_app, count_node_snoc. simpl.
    repeat case_decide; try congruence; lia.
Qed.

Lemma progress_le items hist c :
  reachable tpl w items hist c →
  progress (length items) c ≤ 8 * length items + 1 ∧
  (c.1 ≠ END → progress (length items) c ≤ 8 * length items).
Proof.
  intros Hreach.
  pose proof (reachable_hop_inv _ _ _ _ _ Hreach) as [Hhop Hhop'].
  pose proof (reachable_cover_inv _ _ _ _ _ Hreach) as (_ & _ & _ & Hidx).
  destruct c as [n state]. unfold progress. simpl in *.
  destruct n; (split; [|intros ?]); try done; try lia.
  all: specialize (Hhop' eq_refl); lia.
Qed.

(** X4.  A run executes at most [8 * n + 1] nodes for a checklist of [n]
    items, plus two for every hydration; once the fuel exceeds that number
    the run has ended, finished or failed. *)
Theorem run_length_bounded items fuel :
  let hist := invoke_trace tpl w fuel items in
  length hist ≤ 8 * length items + 1 + 2 * count_node n_web_search hist ∧
  (8 * length items + 2 * count_node n_web_search hist < fuel →
   is_running (invoke tpl w fuel items) = false).
Proof.
  intros hist. subst hist. unfold invoke_trace, invoke.
  pose proof (run_trace_reachable tpl w items fuel [] _ (reach_init tpl w items)) as Hrun.
  simpl in Hrun.
  destruct (run tpl w fuel 0 (entry_point, create_initial_state items))
    as [final|e|c] eqn:Heq.
  - split; [|done].
    pose proof (progress_bound _ _ _ Hrun) as Hb.
    pose proof (progress_le _ _ _ Hrun) as [Hle _]. lia.
  - split; [|done].
    destruct Hrun as (hist' & c0 & -> & Hc0 & Hne & _). simpl in Hc0.
    pose proof (progress_bound _ _ _ Hc0) as Hb.
    pose proof (progress_le _ _ _ Hc0) as [_ Hle]. specialize (Hle Hne).
    rewrite length_app, count_node_snoc. simpl. lia.
  - destruct Hrun as (Hc & Hne & Hlen).
    pose proof (progress_bound _ _ _ Hc) as Hb.
    pose proof (progress_le _ _ _ Hc) as [_ Hle]. specialize (Hle Hne).
    split; [lia|]. intros Hfuel. exfalso. lia.
Qed.

End StepCounts.

(** ** The run-level state *)

Section RunState.
Import Item Latex Agent RunSpec.
Context (tpl : Templates) (w : World).

Lemma NoDup_lookup_not_in_take {A} (l : list A) i x :
  NoDup l → l !! i = Some x → x ∉ take i l.
Proof.
  intros Hnd Hi [j Hj]%list_elem_of_lookup.
  apply lookup_take_Some in Hj as [Hj Hlt].
  pose proof (NoDup_lookup _ _ _ _ Hnd Hi Hj). lia.
Qed.

Lemma section_drafts_step items hist c c' :
  NoDup (id <$> items) →
  reachable tpl w items hist c → c.1 ≠ END →
  step tpl w (length hist) c = Ok c' →
  section_drafts c.2 ⊆ section_drafts c'.2.
Proof.
  intros Hnd Hreach Hne Hstep.
  pose proof (reachable_cover_inv _ _ _ _ _ Hreach) as (Hitems & _ & Hdom & _).
  destruct c as [n state]. simpl in *.
  destruct n; [| | | | | |done].
  - by apply step_plan_research in Hstep as (? & ? & _ & _ & ->).
  - by apply step_retrieve in Hstep as (? & _ & ->).
  - by apply step_evaluate in Hstep as (? & ? & ? & _ & ->).
  - by apply step_web_search in Hstep as [[_ ->]|[_ (? & _ & ->)]].
  - apply step_synthesize in Hstep as (item & draft & Hitem & _ & ->). simpl.
    apply insert_subseteq, not_elem_of_dom. rewrite Hdom.
    apply current_item_lookup in Hitem. rewrite Hitems in Hitem.
    rewrite elem_of_list_to_set, fmap_take.
    apply NoDup_lookup_not_in_take; [done|].
    by rewrite list_lookup_fmap, Hitem.
  - by apply step_generate_latex in Hstep as (? & _ & ->).
Qed.

(** X5.  With unique item ids a draft, once written, stays as it is for the
    rest of the run: the drafts of any configuration are among the drafts of
    every later one. *)
Theorem drafts_are_immutable items hist later c c' :
  NoDup (id <$> items) →
  reachable tpl w items hist c →
  reachable tpl w items (hist ++ later) c' →
  section_drafts c.2 ⊆ section_drafts c'.2.
Proof.
  intros Hnd.
  apply (reachable_later tpl w (λ s s', section_drafts s ⊆ section_drafts s') items).
  - done.
  - intros s1 s2 s3 H12 H23. by etrans.
  - intros. by eapply section_drafts_step.
Qed.

Lemma cursor_step t c c' :
  step tpl w t c = Ok c' →
  current_item_index c.2 ≤ current_item_index c'.2.
Proof.
  destruct c as [n state]. intros Hstep. simpl.
  destruct n.
  - by apply step_plan_research in Hstep as (? & ? & _ & _ & ->).
  - by apply step_retrieve in Hstep as (? & _ & ->).
  - by apply step_evaluate in Hstep as (? & ? & ? & _ & ->).
  - by apply step_web_search in Hstep as [[_ ->]|[_ (? & _ & ->)]].
  - apply step_synthesize in Hstep as (? & ? & _ & _ & ->). simpl. lia.
  - by apply step_generate_latex in Hstep as (? & _ & ->).
  - unfold step in Hstep. simpl in Hstep. by injection Hstep as <-.
Qed.

(** X6.  The checklist never changes during a run; the cursor into it never
    decreases and never passes its end; it points at an item whenever a node
    that works on the current item is about to run after planning, and it is
    at the end when the document is generated. *)
Theorem cursor_monotone_and_bounded items hist later c c' :
  reachable tpl w items hist c →
  reachable tpl w items (hist ++ later) c' →
  consort_items c'.2 = items ∧
  current_item_index c.2 ≤ current_item_index c'.2 ∧
  current_item_index c'.2 ≤ length items ∧
  (c'.1 ∈ [n_retrieve; n_evaluate; n_web_search; n_synthesize] →
     current_item_index c'.2 < length items) ∧
  (c'.1 ∈ [n_generate_latex; END] → current_item_index c'.2 = length items).
Proof.
  intros Hc Hc'.
  pose proof (reachable_cover_inv _ _ _ _ _ Hc') as (Hitems & Hcount & _ & Hidx).
  split_and!.
  - done.
  - revert Hc Hc'.
    apply (reachable_later tpl w (λ s s', current_item_index s ≤ current_item_index s') items).
    + done.
    + intros s1 s2 s3 H12 H23. lia.
    + intros ? ? ? _ _. apply cursor_step.
  - destruct c' as [[] state]; simpl in *; lia.
  - destruct c' as [n state]. simpl in *.
    rewrite !elem_of_cons, elem_of_nil. intros [->|[->|[->|[->|[]]]]]; done.
  - destruct c' as [n state]. simpl in *.
    rewrite !elem_of_cons, elem_of_nil. intros [->|[->|[]]]; done.
Qed.

End RunState.

(** ** The document and the [generate] command *)

Section Document.
Import Item Latex Agent RunSpec Cli.
Context (tpl : Templates) (w : World).

Lemma concat_two_nonempty sep x y rest :
  sep ≠ "" → String.concat sep (x :: y :: rest) ≠ "".
Proof.
  intros Hsep. simpl. destruct x as [|a x]; simpl; [|done].
  destruct sep; [done|]. simpl. done.
Qed.

Lemma sections_to_latex_nonempty items latex_sections :
  sections_to_latex tpl items latex_sections ≠ "".
Proof.
  unfold sections_to_latex, sections_parts.
  destruct (foldl (assemble_item tpl latex_sections) _ items) as [[parts cs] ct].
  set (body := foldl _ _ items ++ _).
  destruct body as [|x [|y body]]; simpl app.
  - by apply concat_two_nonempty.
  - by apply concat_two_nonempty.
  - by apply concat_two_nonempty.
Qed.

Lemma document_step t c c' :
  c.1 ≠ END →
  final_latex c.2 = "" ∧ latex_sections c.2 = ∅ →
  step tpl w t c = Ok c' →
  (c'.1 ≠ END → final_latex c'.2 = "" ∧ latex_sections c'.2 = ∅) ∧
  (c'.1 = END →
     c.1 = n_generate_latex ∧
     final_latex c'.2 = sections_to_latex tpl (consort_items c'.2) (latex_sections c'.2)).
Proof.
  destruct c as [n state]. intros Hne [Hdoc Hsec] Hstep. simpl in *.
  destruct n; [| | | | | |done].
  - by apply step_plan_research in Hstep as (? & ? & _ & _ & ->).
  - by apply step_retrieve in Hstep as (? & _ & ->).
  - apply step_evaluate in Hstep as (? & ? & ? & _ & ->). simpl. split; [done|].
    unfold _route_after_evaluate. by repeat case_match.
  - by apply step_web_search in Hstep as [[_ ->]|[_ (? & _ & ->)]].
  - apply step_synthesize in Hstep as (? & ? & _ & _ & ->). simpl. split; [done|].
    unfold _route_after_synthesize. by case_bool_decide.
  - by apply step_generate_latex in Hstep as (? & _ & ->).
Qed.

Lemma reachable_document items hist c :
  reachable tpl w items hist c →
  (c.1 ≠ END → final_latex c.2 = "" ∧ latex_sections c.2 = ∅) ∧
  (c.1 = END →
     final_latex c.2 = sections_to_latex tpl (consort_items c.2) (latex_sections c.2)).
Proof.
  induction 1 as [|hist c c' _ [IH _] Hne Hstep].
  - split; [done|]. by intros [=].
  - destruct (document_step _ _ _ Hne (IH Hne) Hstep) as [Hbefore Hend].
    split; [done|]. intros Hc'. by apply Hend.
Qed.

(** X7.  No document exists before the run reaches its end: [final_latex]
    and [latex_sections] stay empty through every node of the item loop.  At
    the end [final_latex] is the assembled document over the whole checklist,
    and it is never the empty string. *)
Theorem document_written_exactly_at_end items hist c :
  reachable tpl w items hist c →
  (c.1 ≠ END → final_latex c.2 = "" ∧ latex_sections c.2 = ∅) ∧
  (c.1 = END →
     final_latex c.2 = sections_to_latex tpl items (latex_sections c.2) ∧
     final_latex c.2 ≠ "").
Proof.
  intros Hreach.
  destruct (reachable_document _ _ _ Hreach) as [Hbefore Hend].
  pose proof (reachable_cover_inv _ _ _ _ _ Hreach) as (Hitems & _).
  split; [done|]. intros Hc. rewrite (Hend Hc), Hitems.
  split; [done|]. apply sections_to_latex_nonempty.
Qed.

(** X8.  [cmd_generate] never takes its "No LaTeX output produced" exit: a
    finished run always writes the report, which is the assembled document;
    a node that raises leaves the command with that exception. *)
Theorem cmd_generate_never_exits_empty items fuel :
  (∀ status, cmd_generate tpl w fuel items ≠ Exit status) ∧
  (∀ final, invoke tpl w fuel items = Finished final →
     cmd_generate tpl w fuel items
     = Written (sections_to_latex tpl items (latex_sections final))) ∧
  (∀ e, invoke tpl w fuel items = Failed e →
     cmd_generate tpl w fuel items = Uncaught e).
Proof.
  assert (∀ final, invoke tpl w fuel items = Finished final →
            final_latex final = sections_to_latex tpl items (latex_sections final) ∧
            final_latex final ≠ "") as Hdoc.
  { intros final Hrun.
    pose proof (run_reachable tpl w items fuel [] _ final (reach_init tpl w items) Hrun)
      as Hreach.
    destruct (reachable_document _ _ _ Hreach) as [_ Hend].
    pose proof (reachable_cover_inv _ _ _ _ _ Hreach) as (Hitems & _).
    simpl in *. rewrite (Hend eq_refl), Hitems.
    split; [done|]. apply sections_to_latex_nonempty. }
  unfold cmd_generate. split_and!.
  - intros status. destruct (invoke tpl w fuel items) as [final| |] eqn:Hrun; [|done..].
    destruct (Hdoc final eq_refl) as [_ Hne]. by rewrite decide_False.
  - intros final Hrun. rewrite Hrun.
    destruct (Hdoc final Hrun) as [Heq Hne]. by rewrite decide_False, Heq.
  - intros e Hrun. by rewrite Hrun.
Qed.

(** The formatting loop of [generate_latex]. *)
Lemma latex_loop_spec t drafts items : ∀ k acc sections,
  latex_loop w t k drafts items acc = Ok sections →
  dom sections = dom acc ∪ list_to_set (id <$> items) ∧
  ∀ i,
    (i ∈ id <$> items →
       (default "" (drafts !! i) = "" →
          sections !! i = Some (no_evidence_comment i)) ∧
       (default "" (drafts !! i) ≠ "" →
          ∃ k' fragment,
            k ≤ k' < k + length items ∧
            chat w t k' (LatexRequest (default "" (drafts !! i))) = Ok fragment ∧
            sections !! i = Some fragment)) ∧
    (i ∉ id <$> items → sections !! i = acc !! i).
Proof.
  induction items as [|item rest IH]; intros k acc sections Hloop; simpl in Hloop.
  { injection Hloop as <-. split.
    - simpl. by rewrite (right_id_L ∅ (∪)).
    - intros i. split; [by intros ?%elem_of_nil|done]. }
  assert (∃ fragment,
            latex_loop w t (S k) drafts rest (<[id item := fragment]> acc) = Ok sections ∧
            (default "" (drafts !! id item) = "" → fragment = no_evidence_comment (id item)) ∧
            (default "" (drafts !! id item) ≠ "" →
               chat w t k (LatexRequest (default "" (drafts !! id item))) = Ok fragment))
    as (fragment & Hrest & Hempty & Hfull).
  { case_decide as Hd.
    - exists (no_evidence_comment (id item)). by split_and!.
    - apply bind_Ok in Hloop as (fragment & Hchat & Hloop).
      exists fragment. by split_and!. }
  destruct (IH _ _ _ Hrest) as [Hdom Hlook].
  split.
  - rewrite Hdom, dom_insert_L, fmap_cons, list_to_set_cons.
    rewrite (comm_L (∪) {[id item]} (dom acc)). by rewrite (assoc_L (∪)).
  - intros i. destruct (Hlook i) as [Hin Hout].
    destruct (decide (i ∈ id <$> rest)) as [Hi|Hi].
    + split; [|intros Hni; exfalso; apply Hni; rewrite fmap_cons; by right].
      intros _. destruct (Hin Hi) as [He Hf]. split; [done|].
      intros Hne. destruct (Hf Hne) as (k' & frag & Hk & Hchat & Hs).
      exists k', frag. simpl. split_and!; [lia|lia|done|done].
    + rewrite (Hout Hi). rewrite fmap_cons, elem_of_cons. split.
      * intros [->|?]; [|done]. rewrite lookup_insert_eq. split.
        -- intros He. by rewrite (Hempty He).
        -- intros Hne. exists k, fragment. simpl.
           split_and!; [lia|lia|by apply Hfull|done].
      * intros Hni. rewrite lookup_insert_ne; [done|]. intros Heq. apply Hni. by left.
Qed.

(** X9.  When a run finishes, [latex_sections] has exactly the ids of the
    checklist as its keys.  An item whose draft is empty carries the "No
    evidence found" comment; any other item carries a reply of the
    formatting model to its draft. *)
Theorem latex_sections_cover_checklist items fuel final :
  invoke tpl w fuel items = Finished final →
  dom (latex_sections final) = list_to_set (id <$> items) ∧
  ∀ item, item ∈ items →
    let draft := default "" (section_drafts final !! id item) in
    (draft = "" →
       latex_sections final !! id item = Some (no_evidence_comment (id item))) ∧
    (draft ≠ "" →
       ∃ t k fragment,
         chat w t k (LatexRequest draft) = Ok fragment ∧
         latex_sections final !! id item = Some fragment).
Proof.
  intros Hrun.
  pose proof (run_trace_reachable tpl w items fuel [] _ (reach_init tpl w items)) as Hreach.
  simpl in Hreach. unfold invoke in Hrun. rewrite Hrun in Hreach.
  destruct (trace tpl w fuel 0 (entry_point, create_initial_state items))
    as [|n hist _] using rev_ind.
  { inversion Hreach as [|h0 ? ? ? ? ? Heq]. by destruct h0. }
  apply reachable_snoc_inv in Hreach as (state & Hstate & Hne & Hstep).
  pose proof (reachable_cover_inv _ _ _ _ _ Hstate) as (Hitems & _).
  destruct (reachable_document _ _ _ Hstate) as [Hbefore _].
  destruct (document_step _ (n, state) _ Hne (Hbefore Hne) Hstep) as [_ Hend].
  destruct (Hend eq_refl) as [Hn _]. simpl in Hn, Hitems. subst n.
  apply step_generate_latex in Hstep as (sections & Hloop & [= ->]). simpl.
  rewrite Hitems in Hloop.
  destruct (latex_loop_spec _ _ _ _ _ _ Hloop) as [Hdom Hlook].
  split.
  - rewrite Hdom, dom_empty_L. by rewrite (left_id_L ∅ (∪)).
  - intros item Hitem.
    destruct (Hlook (id item)) as [Hin _].
    destruct (Hin (list_elem_of_fmap_2 id _ _ Hitem)) as [He Hf].
    split; [done|]. intros Hd.
    destruct (Hf Hd) as (k & fragment & _ & Hchat & Hs). eauto.
Qed.

End Document.

(** ** Fallbacks of planning and evaluation, seen from the next node *)

Section Fallbacks.
Import Item Latex Agent RunSpec.
Context (tpl : Templates) (w : World).

(** X10.  An evaluator reply that is not JSON sends the item to synthesis:
    the step records "sufficient", empties the unfamiliar terms, and leaves
    evidence, queries, hop count and all run-level fields as they were. *)
Theorem unparsable_verdict_goes_to_synthesis t state item raw :
  current_item state = Ok item →
  chat w t 0 (EvaluateRequest item (truncate_text <$> take 15 (retrieved_chunks state)))
    = Ok raw →
  json_loads w raw = None →
  step tpl w t (n_evaluate, state)
  = Ok (n_synthesize,
        {| consort_items := consort_items state;
           current_item_index := current_item_index state;
           research_queries := research_queries state;
           retrieved_chunks := retrieved_chunks state;
           unfamiliar_terms := JList [];
           web_search_results := web_search_results state;
           evaluation_result := JStr "sufficient";
           hop_count := hop_count state;
           section_drafts := section_drafts state;
           latex_sections := latex_sections state;
           final_latex := final_latex state |}).
Proof.
  intros Hitem Hraw Hloads. unfold step, node_fn.
  rewrite (evaluate_unparsable w t state item raw Hitem Hraw Hloads).
  by destruct state.
Qed.

(** X11.  A planner reply that is not a JSON list makes the next retrieval
    issue exactly one search, with the raw reply as the query. *)
Theorem unparsable_plan_is_one_query raw search_at k :
  (∀ l, json_loads w raw ≠ Some (JList l)) →
  Retrieval.multi_query_search search_at (parse_queries w raw) k
  = results ← search_at 0 (JStr raw) k;
    Ok (Retrieval.sort_by_score_desc (Retrieval.first_seen results)).
Proof.
  intros Hnot.
  assert (parse_queries w raw = JList [JStr raw]) as ->.
  { unfold parse_queries. destruct (json_loads w raw) as [[]|]; try done.
    by destruct (Hnot l). }
  unfold Retrieval.multi_query_search. simpl.
  by destruct (search_at 0 (JStr raw) k).
Qed.

(** X12.  With an empty query list a retrieval calls no collaborator and
    cannot fail: it leaves the evidence as it is and still counts one hop. *)
Theorem retrieve_without_queries t state :
  research_queries state = JList [] →
  step tpl w t (n_retrieve, state)
  = Ok (n_evaluate, assign state (Set_hop_count (hop_count state + 1))).
Proof.
  intros Hq. unfold step, node_fn, retrieve. rewrite Hq. simpl.
  unfold merge_chunks. simpl. by destruct state.
Qed.

End Fallbacks.

(** ** search/you_client.py: hydration *)

Section HydrationFacts.
Import YouSearch HydrationSpec.
Context (container_str : json → string).

(** The loop over the entries raises exactly when one of them has no
    [get]. *)
Lemma results_of_items query items :
  (ItemObject ∉ items → is_ok (mapM (result_of_item query) items) = true) ∧
  (ItemObject ∈ items → mapM (result_of_item query) items = Raise AttributeError).
Proof.
  induction items as [|item items [IHok IHraise]]; simpl.
  { split; [done|by intros ?%elem_of_nil]. }
  split.
  - intros Hnot. destruct item as [item|]; [|exfalso; apply Hnot; by left].
    simpl. specialize (IHok ltac:(intros ?; apply Hnot; by right)).
    by destruct (mapM _ items).
  - intros [<-|Hin]%elem_of_cons; [done|].
    destruct item as [item|]; [|done]. simpl. by rewrite (IHraise Hin).
Qed.

Lemma search_term_ok wrapper_reply name :
  (∀ items,
     wrapper_reply ("definition of " +:+ name +:+ " in clinical trials")
       = Ok (RawList items) → ItemObject ∉ items) →
  ∃ results, search_term wrapper_reply name = Ok results.
Proof.
  intros Hitems. unfold search_term.
  destruct (wrapper_reply _) as [[items|text|]|e]; [|eauto..].
  destruct (results_of_items
              ("definition of " +:+ name +:+ " in clinical trials") items)
    as [Hok _].
  specialize (Hok (Hitems items eq_refl)).
  destruct (mapM _ items); [eauto|done].
Qed.

Lemma search_term_raises wrapper_reply name items :
  wrapper_reply ("definition of " +:+ name +:+ " in clinical trials")
    = Ok (RawList items) →
  ItemObject ∈ items →
  search_term wrapper_reply name = Raise AttributeError.
Proof.
  intros Hreply Hin. unfold search_term. rewrite Hreply.
  by apply results_of_items.
Qed.

Lemma hydrate_term_str wrapper_reply definitions name results :
  search_term wrapper_reply name = Ok results →
  hydrate_term container_str wrapper_reply definitions (JStr name)
  = Ok (<[KStr name := definition_of results name]> definitions).
Proof.
  intros Hresults. unfold hydrate_term, definition_of. simpl.
  rewrite Hresults. simpl. by case_bool_decide.
Qed.

Lemma hydrate_loop_strings wrapper_at names : ∀ i definitions,
  (∀ j name items,
     names !! j = Some name →
     wrapper_at (i + j) ("definition of " +:+ name +:+ " in clinical trials")
       = Ok (RawList items) → ItemObject ∉ items) →
  ∃ result,
    hydrate_loop container_str wrapper_at i (JStr <$> names) definitions
      = Ok result ∧
    dom result = dom definitions ∪ list_to_set (KStr <$> names) ∧
    (∀ name, name ∈ names →
       ∃ j results,
         names !! j = Some name ∧
         search_term (wrapper_at (i + j)) name = Ok results ∧
         result !! KStr name = Some (definition_of results name)) ∧
    (∀ k, k ∉ KStr <$> names → result !! k = definitions !! k).
Proof.
  induction names as [|name names IH]; intros i definitions Hitems; simpl.
  { exists definitions. split_and!; [done| |by intros ? ?%elem_of_nil|done].
    by rewrite (right_id_L ∅ (∪)). }
  destruct (search_term_ok (wrapper_at i) name) as [results Hresults].
  { intros items Hreply. apply (Hitems 0 name items); [done|].
    by rewrite Nat.add_0_r. }
  rewrite (hydrate_term_str _ _ _ _ Hresults). simpl.
  destruct (IH (S i) (<[KStr name := definition_of results name]> definitions))
    as (result & Hloop & Hdom & Hin & Hout).
  { intros j name' items Hj Hreply. apply (Hitems (S j) name' items); [done|].
    by replace (i + S j) with (S i + j) by lia. }
  exists result. split_and!; [done| | |].
  - rewrite Hdom, dom_insert_L.
    rewrite (comm_L (∪) {[KStr name]} (dom definitions)). by rewrite (assoc_L (∪)).
  - intros name' Hname'.
    destruct (decide (name' ∈ names)) as [Hlater|Hnot].
    + destruct (Hin _ Hlater) as (j & results' & Hj & Hsearch & Hres).
      exists (S j), results'. split_and!; [done| |done].
      by replace (i + S j) with (S i + j) by lia.
    + apply elem_of_cons in Hname' as [->|?]; [|done].
      exists 0, results. rewrite Nat.add_0_r. split_and!; [done|done|].
      rewrite Hout; [by rewrite lookup_insert_eq|].
      intros (name' & [= <-] & ?)%list_elem_of_fmap. done.
  - intros k Hk. rewrite Hout.
    + rewrite lookup_insert_ne; [done|]. intros <-. apply Hk. by left.
    + intros ?. apply Hk. by right.
Qed.

Lemma hydrate_loop_raises wrapper_at names : ∀ i definitions j name items,
  names !! j = Some name →
  (∀ j' name' items',
     j' < j → names !! j' = Some name' →
     wrapper_at (i + j') ("definition of " +:+ name' +:+ " in clinical trials")
       = Ok (RawList items') → ItemObject ∉ items') →
  wrapper_at (i + j) ("definition of " +:+ name +:+ " in clinical trials")
    = Ok (RawList items) →
  ItemObject ∈ items →
  hydrate_loop container_str wrapper_at i (JStr <$> names) definitions
    = Raise AttributeError.
Proof.
  induction names as [|name0 names IH]; intros i definitions j name items
    Hj Hearlier Hreply Hobject; [done|].
  destruct j as [|j]; simpl in *.
  - injection Hj as ->. rewrite Nat.add_0_r in Hreply.
    unfold hydrate_term. simpl.
    by rewrite (search_term_raises _ _ _ Hreply Hobject).
  - destruct (search_term_ok (wrapper_at i) name0) as [results Hresults].
    { intros items' Hreply'. apply (Hearlier 0 name0 items'); [lia|done|].
      by rewrite Nat.add_0_r. }
    rewrite (hydrate_term_str _ _ _ _ Hresults). simpl.
    apply (IH (S i) _ j name items); [done| | |done].
    + intros j' name' items' Hlt Hj' Hreply'.
      apply (Hearlier (S j') name' items'); [lia|done|].
      by replace (i + S j') with (S i + j') by lia.
    + by replace (S i + j) with (i + S j) by lia.
Qed.

(** X13.  For a list of strings, [hydrate_terms] returns whenever no
    lookup delivers a list with an entry that lacks [get] (a failed lookup
    counts as one without results), and the mapping it returns then has
    exactly the requested terms as keys, the definition of a term being the
    one computed from one of that term's lookups (joined snippets, or the
    placeholder text when the lookup gave nothing).  The first lookup that
    delivers such an entry, a [Document] object say, makes [hydrate_terms]
    raise [AttributeError] instead. *)
Theorem hydrate_terms_covers_every_term wrapper_at (names : list string) :
  ((∀ j name items,
      names !! j = Some name →
      wrapper_at j ("definition of " +:+ name +:+ " in clinical trials")
        = Ok (RawList items) → ItemObject ∉ items) →
   ∃ definitions,
     hydrate_terms container_str wrapper_at (JList (JStr <$> names))
       = Ok definitions ∧
     dom definitions = list_to_set (KStr <$> names) ∧
     ∀ name, name ∈ names →
       ∃ j results,
         names !! j = Some name ∧
         search_term (wrapper_at j) name = Ok results ∧
         definitions !! KStr name = Some (definition_of results name)) ∧
  (∀ j name items,
     names !! j = Some name →
     (∀ j' name' items',
        j' < j → names !! j' = Some name' →
        wrapper_at j' ("definition of " +:+ name' +:+ " in clinical trials")
          = Ok (RawList items') → ItemObject ∉ items') →
     wrapper_at j ("definition of " +:+ name +:+ " in clinical trials")
       = Ok (RawList items) →
     ItemObject ∈ items →
     hydrate_terms container_str wrapper_at (JList (JStr <$> names))
       = Raise AttributeError).
Proof.
  split.
  - intros Hitems.
    destruct (hydrate_loop_strings wrapper_at names 0 ∅ Hitems)
      as (result & Hloop & Hdom & Hin & _).
    exists result. unfold hydrate_terms. simpl. split_and!; [done| |done].
    rewrite Hdom, dom_empty_L. by rewrite (left_id_L ∅ (∪)).
  - intros j name items Hj Hearlier Hreply Hobject.
    unfold hydrate_terms. simpl.
    by apply (hydrate_loop_raises wrapper_at names 0 ∅ j name items).
Qed.

(** X14.  The placeholder text is used only when a lookup gives no result
    at all: results whose first two snippets are empty give the empty
    definition. *)
Theorem results_without_snippets_give_empty_definition
    wrapper_reply definitions (name : string) results :
  search_term wrapper_reply name = Ok results →
  results ≠ [] →
  Forall (λ r, snippet r = "") (take 2 results) →
  hydrate_term container_str wrapper_reply definitions (JStr name)
  = Ok (<[KStr name := ""]> definitions).
Proof.
  intros Hresults Hne Hblank. unfold hydrate_term. simpl.
  rewrite Hresults. simpl.
  rewrite bool_decide_eq_true_2 by done. do 2 f_equal.
  unfold combine_snippets.
  assert (filter (λ s, s ≠ "") (snippet <$> take 2 results) = [])
    as ->; [|done].
  induction Hblank as [|r rs Hr _ IH]; [done|].
  rewrite fmap_cons, filter_cons, Hr. by rewrite decide_False by (by intros ?).
Qed.

End HydrationFacts.

(** ** latex/generator.py: escaping *)

Section Escaping.
Import Latex LatexSpec.

Lemma append_cons a (x y : string) : String a x +:+ y = String a (x +:+ y).
Proof. reflexivity. Qed.

Lemma append_assoc_s (x y z : string) : (x +:+ y) +:+ z = x +:+ (y +:+ z).
Proof. induction x as [|a x IH]; [done|]. by rewrite !append_cons, IH. Qed.

Lemma replace_app char escaped s1 s2 :
  replace char escaped (s1 +:+ s2)
  = replace char escaped s1 +:+ replace char escaped s2.
Proof.
  induction s1 as [|a s1 IH]; [done|].
  rewrite append_cons. simpl. by rewrite IH, append_assoc_s.
Qed.

Lemma escape_fold_app reps : ∀ s1 s2,
  foldl (λ text '(char, escaped), replace char escaped text) (s1 +:+ s2) reps
  = foldl (λ text '(char, escaped), replace char escaped text) s1 reps
    +:+ foldl (λ text '(char, escaped), replace char escaped text) s2 reps.
Proof.
  induction reps as [|[char escaped] reps IH]; intros s1 s2; simpl; [done|].
  by rewrite replace_app, IH.
Qed.

Lemma escape_latex_app s1 s2 :
  _escape_latex (s1 +:+ s2) = _escape_latex s1 +:+ _escape_latex s2.
Proof. apply escape_fold_app. Qed.

Lemma replace_other char escaped a :
  a ≠ char → replace char escaped (String a EmptyString) = String a EmptyString.
Proof. intros Hne. simpl. by rewrite decide_False. Qed.

Lemma escape_latex_char a :
  _escape_latex (String a EmptyString) = escape_char a.
Proof.
  unfold escape_char.
  destruct (decide (a = "&"%char)) as [->|?]; [reflexivity|].
  destruct (decide (a = "%"%char)) as [->|?]; [reflexivity|].
  destruct (decide (a = "$"%char)) as [->|?]; [reflexivity|].
  destruct (decide (a = "#"%char)) as [->|?]; [reflexivity|].
  destruct (decide (a = "_"%char)) as [->|?]; [reflexivity|].
  destruct (decide (a = "{"%char)) as [->|?]; [reflexivity|].
  destruct (decide (a = "}"%char)) as [->|?]; [reflexivity|].
  destruct (decide (a = "~"%char)) as [->|?]; [reflexivity|].
  destruct (decide (a = "^"%char)) as [->|?]; [reflexivity|].
  unfold _escape_latex, replacements. cbn [foldl].
  by rewrite !replace_other.
Qed.

(** X15.  [_escape_latex] acts on each character by itself: the nine
    replacements made one after the other amount to one pass that replaces
    every special character once (no escape is escaped again), so escaping
    distributes over concatenation and leaves text without special characters
    unchanged.  The backslash is not among the characters it escapes. *)
Theorem escape_latex_is_one_pass :
  (∀ a s, _escape_latex (String a s) = escape_char a +:+ _escape_latex s) ∧
  (∀ s1 s2, _escape_latex (s1 +:+ s2) = _escape_latex s1 +:+ _escape_latex s2) ∧
  (∀ s, Forall (λ a, ¬ special a) (string_to_list s) → _escape_latex s = s) ∧
  escape_char "\"%char = "\".
Proof.
  assert (∀ a s, _escape_latex (String a s) = escape_char a +:+ _escape_latex s) as Hcons.
  { intros a s. change (String a s) with (String a EmptyString +:+ s).
    by rewrite escape_latex_app, escape_latex_char. }
  split_and!; [done|apply escape_latex_app| |reflexivity].
  intros s. induction s as [|a s IH]; simpl; [done|].
  intros [Ha Hs]%Forall_cons. rewrite Hcons, (IH Hs).
  unfold escape_char, special in *.
  rewrite !elem_of_cons, elem_of_nil in Ha.
  repeat (destruct (decide (a = _)) as [Heq|?]; [exfalso; apply Ha; tauto|]).
  done.
Qed.

End Escaping.

(** ** Sample runs for the properties above *)

Section MoreRuns.
Import Item Latex Agent RunSpec Cli Samples.

Ltac run_to k world items hist c Hadv Hreach :=
  destruct (advance sample_templates world k [] (entry_point, create_initial_state items))
    as [[hist c]|] eqn:Hadv; [|by vm_compute in Hadv];
  assert (reachable sample_templates world items hist c) as Hreach
    by (eapply advance_reachable; [apply reach_init|exact Hadv]).

(** Three retrievals that all return the same passage leave one chunk. *)
Lemma evidence_never_duplicated_witness :
  match advance sample_templates world_same_passage 6 []
          (entry_point, create_initial_state [item_1a]) with
  | Some (hist, c) =>
      hop_count c.2 = 3 ∧ length (retrieved_chunks c.2) = 1 ∧
      NoDup (text <$> retrieved_chunks c.2)
  | None => False
  end.
Proof.
  run_to 6 world_same_passage [item_1a] hist c Hadv Hreach.
  pose proof (evidence_never_duplicated sample_templates world_same_passage
                [item_1a] hist c Hreach) as Hnd.
  vm_compute in Hadv. injection Hadv as <- <-.
  split; [reflexivity|]. split; [reflexivity|exact Hnd].
Defined.

Lemma retrieve_accumulates_witness :
  match advance sample_templates world_need_more 3 []
          (entry_point, create_initial_state [item_1a]) with
  | Some (hist, (n, state)) =>
      n = n_retrieve ∧
      match step sample_templates world_need_more 3 (n, state) with
      | Ok c' =>
          length (retrieved_chunks state) = 2 ∧
          retrieved_chunks state `prefix_of` retrieved_chunks c'.2
      | Raise _ => False
      end
  | None => False
  end.
Proof.
  run_to 3 world_need_more [item_1a] hist c Hadv Hreach.
  destruct c as [n state].
  assert (n = n_retrieve) as -> by (vm_compute in Hadv; by injection Hadv as <- <- <-).
  split; [done|].
  destruct (step sample_templates world_need_more 3 (n_retrieve, state)) as [c'|] eqn:Hstep.
  - destruct (retrieve_accumulates sample_templates world_need_more 3 state c' Hstep)
      as (chunks & _ & Hprefix & _).
    split; [|exact Hprefix].
    vm_compute in Hadv. by injection Hadv as <- <-.
  - vm_compute in Hadv. injection Hadv as <- <-. by vm_compute in Hstep.
Defined.

Lemma hop_count_counts_retrievals_witness :
  match advance sample_templates world_need_more 6 []
          (entry_point, create_initial_state [item_1a]) with
  | Some (hist, c) =>
      hop_count c.2 = 3 ∧ hop_count c.2 = retrievals_since_plan hist
  | None => False
  end.
Proof.
  run_to 6 world_need_more [item_1a] hist c Hadv Hreach.
  destruct (hop_count_counts_retrievals sample_templates world_need_more
              [item_1a] hist c Hreach) as [Heq _].
  split; [|exact Heq].
  vm_compute in Hadv. by injection Hadv as <- <-.
Defined.

(** A checklist of one item with an evaluator that never asks for hydration:
    nine steps at most, and ten units of fuel end the run. *)
Lemma run_length_bounded_witness :
  length (invoke_trace sample_templates world_need_more 10 [item_1a]) ≤ 9 ∧
  is_running (invoke sample_templates world_need_more 10 [item_1a]) = false.
Proof.
  destruct (run_length_bounded sample_templates world_need_more [item_1a] 10)
    as [Hlen Hend].
  assert (count_node n_web_search
            (invoke_trace sample_templates world_need_more 10 [item_1a]) = 0)
    as Hw by (vm_compute; reflexivity).
  rewrite Hw in Hlen, Hend. simpl in Hlen, Hend.
  split; [exact Hlen|]. apply Hend. lia.
Defined.

Lemma drafts_are_immutable_witness :
  match advance sample_templates world_sufficient 4 []
          (entry_point, create_initial_state [item_1a; item_6a]),
        advance sample_templates world_sufficient 8 []
          (entry_point, create_initial_state [item_1a; item_6a]) with
  | Some (hist, c), Some (hist', c') =>
      section_drafts c.2 !! "1a" = Some "Draft of item 1a" ∧
      section_drafts c.2 ⊆ section_drafts c'.2
  | _, _ => False
  end.
Proof.
  run_to 4 world_sufficient [item_1a; item_6a] hist c Hadv Hc.
  run_to 8 world_sufficient [item_1a; item_6a] hist' c' Hadv' Hc'.
  assert (hist' = hist ++ drop 4 hist') as Hsplit.
  { vm_compute in Hadv, Hadv'. injection Hadv as <- _. injection Hadv' as <- _.
    reflexivity. }
  rewrite Hsplit in Hc'.
  assert (NoDup (id <$> [item_1a; item_6a])) as Hnd
    by (apply (bool_decide_unpack _); vm_compute; exact I).
  pose proof (drafts_are_immutable sample_templates world_sufficient
                [item_1a; item_6a] hist (drop 4 hist') c c' Hnd Hc Hc') as Hsub.
  split; [|exact Hsub].
  vm_compute in Hadv. injection Hadv as _ <-. by vm_compute.
Defined.

Lemma cursor_monotone_and_bounded_witness :
  match advance sample_templates world_sufficient 2 []
          (entry_point, create_initial_state [item_1a; item_6a]),
        advance sample_templates world_sufficient 9 []
          (entry_point, create_initial_state [item_1a; item_6a]) with
  | Some (hist, c), Some (hist', c') =>
      current_item_index c.2 = 0 ∧ c'.1 = END ∧
      current_item_index c.2 ≤ current_item_index c'.2 ∧
      current_item_index c'.2 = 2
  | _, _ => False
  end.
Proof.
  run_to 2 world_sufficient [item_1a; item_6a] hist c Hadv Hc.
  run_to 9 world_sufficient [item_1a; item_6a] hist' c' Hadv' Hc'.
  assert (hist' = hist ++ drop 2 hist') as Hsplit.
  { vm_compute in Hadv, Hadv'. injection Hadv as <- _. injection Hadv' as <- _.
    reflexivity. }
  rewrite Hsplit in Hc'.
  destruct (cursor_monotone_and_bounded sample_templates world_sufficient
              [item_1a; item_6a] hist (drop 2 hist') c c' Hc Hc')
    as (_ & Hmono & _ & _ & Hend).
  assert (c'.1 = END) as Hnode
    by (vm_compute in Hadv'; by injection Hadv' as _ <-).
  split_and!; [|exact Hnode|exact Hmono|].
  - vm_compute in Hadv. by injection Hadv as _ <-.
  - apply Hend. rewrite Hnode. set_solver.
Defined.

Lemma document_written_exactly_at_end_witness :
  match advance sample_templates world_sufficient 4 []
          (entry_point, create_initial_state [item_1a]),
        advance sample_templates world_sufficient 5 []
          (entry_point, create_initial_state [item_1a]) with
  | Some (hist, c), Some (hist', c') =>
      c.1 = n_generate_latex ∧ final_latex c.2 = "" ∧
      c'.1 = END ∧ final_latex c'.2 ≠ ""
  | _, _ => False
  end.
Proof.
  run_to 4 world_sufficient [item_1a] hist c Hadv Hc.
  run_to 5 world_sufficient [item_1a] hist' c' Hadv' Hc'.
  destruct (document_written_exactly_at_end sample_templates world_sufficient
              [item_1a] hist c Hc) as [Hbefore _].
  destruct (document_written_exactly_at_end sample_templates world_sufficient
              [item_1a] hist' c' Hc') as [_ Hend].
  assert (c.1 = n_generate_latex) as Hn
    by (vm_compute in Hadv; by injection Hadv as _ <-).
  assert (c'.1 = END) as Hn'
    by (vm_compute in Hadv'; by injection Hadv' as _ <-).
  split_and!; [exact Hn| |exact Hn'|].
  - apply Hbefore. by rewrite Hn.
  - by apply Hend.
Defined.

Lemma latex_sections_cover_checklist_witness :
  match invoke sample_templates world_sufficient 20 [item_1a; item_6a] with
  | Finished final =>
      dom (latex_sections final) = list_to_set ["1a"; "6a"] ∧
      latex_sections final !! "6a" = Some "Draft of item 6a"
  | _ => False
  end.
Proof.
  destruct (invoke sample_templates world_sufficient 20 [item_1a; item_6a])
    as [final| |] eqn:Hrun; [|by vm_compute in Hrun..].
  destruct (latex_sections_cover_checklist sample_templates world_sufficient
              [item_1a; item_6a] 20 final Hrun) as [Hdom _].
  split; [exact Hdom|].
  vm_compute in Hrun. injection Hrun as <-. by vm_compute.
Defined.

Lemma unparsable_verdict_goes_to_synthesis_witness :
  match advance sample_templates world_garbage 2 []
          (entry_point, create_initial_state [item_1a]) with
  | Some (hist, (n, state)) =>
      n = n_evaluate ∧
      match step sample_templates world_garbage 2 (n, state) with
      | Ok c' => c'.1 = n_synthesize ∧ evaluation_result c'.2 = JStr "sufficient"
      | Raise _ => False
      end
  | None => False
  end.
Proof.
  run_to 2 world_garbage [item_1a] hist c Hadv Hreach.
  destruct c as [n state].
  assert (n = n_evaluate) as -> by (vm_compute in Hadv; by injection Hadv as <- <- <-).
  split; [done|].
  rewrite (unparsable_verdict_goes_to_synthesis sample_templates world_garbage 2 state
             item_1a "I think the evidence is fine.").
  - done.
  - vm_compute in Hadv. injection Hadv as <- <-. reflexivity.
  - vm_compute in Hadv. injection Hadv as <- <-. reflexivity.
  - reflexivity.
Defined.

Lemma unparsable_plan_is_one_query_witness :
  Retrieval.multi_query_search (store [[chunk "alpha" 7; chunk "beta" 9]])
    (parse_queries world_sufficient "look for the primary outcome") 5
  = Ok [chunk "beta" 9; chunk "alpha" 7].
Proof.
  rewrite (unparsable_plan_is_one_query world_sufficient
             "look for the primary outcome"
             (store [[chunk "alpha" 7; chunk "beta" 9]]) 5).
  - vm_compute. reflexivity.
  - intros l. vm_compute. discriminate.
Defined.

Lemma retrieve_without_queries_witness :
  match advance sample_templates world_empty_plan 1 []
          (entry_point, create_initial_state [item_1a]) with
  | Some (hist, (n, state)) =>
      n = n_retrieve ∧ research_queries state = JList [] ∧
      step sample_templates world_store_down 1 (n, state)
      = Ok (n_evaluate, assign state (Set_hop_count 1))
  | None => False
  end.
Proof.
  run_to 1 world_empty_plan [item_1a] hist c Hadv Hreach.
  destruct c as [n state].
  assert (n = n_retrieve ∧ research_queries state = JList [] ∧ hop_count state = 0)
    as (-> & Hq & Hhop).
  { vm_compute in Hadv. by injection Hadv as <- <- <-. }
  split; [done|]. split; [exact Hq|].
  rewrite (retrieve_without_queries sample_templates world_store_down 1 state Hq).
  by rewrite Hhop.
Defined.

Lemma results_without_snippets_give_empty_definition_witness :
  YouSearch.hydrate_term sample_container_str silent_wrapper ∅ (JStr "ANCOVA")
  = Ok {[ KStr "ANCOVA" := "" ]}.
Proof.
  destruct (YouSearch.search_term silent_wrapper "ANCOVA")
    as [results|] eqn:Hresults; [|by vm_compute in Hresults].
  apply (results_without_snippets_give_empty_definition sample_container_str
           silent_wrapper ∅ "ANCOVA" results Hresults).
  - vm_compute in Hresults. injection Hresults as <-. discriminate.
  - vm_compute in Hresults. injection Hresults as <-. repeat constructor.
Defined.

(** Two terms looked up through a wrapper that delivers mappings, and
    through the wrapper that delivers [Document] objects. *)
Lemma hydrate_terms_covers_every_term_witness :
  (∃ definitions,
     YouSearch.hydrate_terms sample_container_str (λ _, silent_wrapper)
       (JList [JStr "ANCOVA"; JStr "ITT"]) = Ok definitions ∧
     dom definitions = {[ KStr "ANCOVA"; KStr "ITT" ]}) ∧
  YouSearch.hydrate_terms sample_container_str (λ _, document_wrapper)
    (JList [JStr "ANCOVA"; JStr "ITT"]) = Raise AttributeError.
Proof.
  split.
  - destruct (hydrate_terms_covers_every_term sample_container_str
                (λ _, silent_wrapper) ["ANCOVA"; "ITT"]) as [Hok _].
    destruct Hok as (definitions & Hrun & Hdom & _).
    + intros j name items _ [= <-] Hin. vm_compute in Hin.
      apply elem_of_cons in Hin as [?|?%elem_of_nil]; done.
    + exists definitions. split; [exact Hrun|]. rewrite Hdom. simpl.
      by rewrite (right_id_L ∅ (∪)).
  - destruct (hydrate_terms_covers_every_term sample_container_str
                (λ _, document_wrapper) ["ANCOVA"; "ITT"]) as [_ Hraise].
    apply (Hraise 0 "ANCOVA" [YouSearch.ItemObject]); [done| |done|by left].
    intros j' name' items' Hlt. lia.
Defined.

End MoreRuns.

(** ** file_reader.py: chunking *)

Section Chunking.
Import FileReader.
Context {C : Type} (isspace : C → bool).

Lemma lstrip_nil (s : list C) :
  lstrip isspace s = [] → Forall (λ c, isspace c = true) s.
Proof.
  induction s as [|c s IH]; simpl; [constructor|].
  destruct (isspace c) eqn:Hc; [|done]. intros ?. constructor; auto.
Qed.

Lemma lstrip_spaces (s : list C) :
  Forall (λ c, isspace c = true) s → lstrip isspace s = [].
Proof. induction 1 as [|c s Hc _ IH]; simpl; [done|]. by rewrite Hc. Qed.

Lemma lstrip_suffix (s : list C) : lstrip isspace s `suffix_of` s.
Proof.
  induction s as [|c s IH]; simpl; [done|].
  destruct (isspace c); [by apply suffix_cons_r|done].
Qed.

Lemma lstrip_head (s : list C) c s' :
  lstrip isspace s = c :: s' → isspace c = false.
Proof.
  induction s as [|d s IH]; simpl; [done|].
  destruct (isspace d) eqn:Hd; [done|]. by intros [= <- _].
Qed.

Lemma strip_length (s : list C) : length (strip isspace s) ≤ length s.
Proof.
  unfold strip, rstrip. rewrite length_reverse.
  etrans; [apply suffix_length, lstrip_suffix|]. rewrite length_reverse.
  apply suffix_length, lstrip_suffix.
Qed.

Lemma blank_spaces (s : list C) :
  blank isspace s = true ↔ Forall (λ c, isspace c = true) s.
Proof.
  unfold blank, strip, rstrip. split.
  - destruct (reverse _) as [|c r] eqn:Hr; [intros _|done].
    apply (f_equal reverse) in Hr. rewrite reverse_involutive in Hr.
    apply lstrip_nil in Hr. apply Forall_reverse in Hr.
    rewrite reverse_involutive in Hr.
    destruct (lstrip isspace s) as [|d s'] eqn:Hs; [by apply lstrip_nil|].
    apply lstrip_head in Hs. apply Forall_cons_1 in Hr as [Hd _]. congruence.
  - intros Hs. by rewrite (lstrip_spaces s Hs).
Qed.

Lemma filter_none {A} (P : A → Prop) `{!∀ x, Decision (P x)} (l : list A) :
  Forall (λ x, ¬ P x) l → filter P l = [].
Proof.
  induction 1 as [|x l Hx _ IH]; [done|]. by rewrite filter_cons_False.
Qed.

Lemma blank_nil : blank isspace [] = true.
Proof. done. Qed.

Lemma slice_window (text : list C) (chunk_size overlap : Z) (k : nat) :
  (0 ≤ overlap < chunk_size)%Z →
  slice text (Z.of_nat (k * Z.to_nat (chunk_size - overlap)))
    (Z.of_nat (k * Z.to_nat (chunk_size - overlap)) + chunk_size) =
  window text chunk_size overlap k.
Proof.
  intros Hov. unfold slice, window, slice_index.
  set (a := k * Z.to_nat (chunk_size - overlap)).
  rewrite !bool_decide_eq_false_2 by lia.
  destruct (decide (a ≤ length text)) as [Hle|Hgt].
  - replace (Z.to_nat (Z.of_nat a `min` Z.of_nat (length text))) with a by lia.
    destruct (decide (a + Z.to_nat chunk_size ≤ length text)).
    + f_equal. lia.
    + rewrite !take_ge; [done|rewrite length_drop; lia..].
  - rewrite !drop_ge by lia. by rewrite !take_nil.
Qed.

(** The loop, once it ends, has appended the non-blank windows from the
    current one on. *)
Lemma chunk_loop_windows fuel (text : list C) chunk_size overlap k m acc chunks :
  (0 ≤ overlap < chunk_size)%Z →
  length text ≤ m →
  chunk_loop isspace fuel text chunk_size overlap
    (Z.of_nat (k * Z.to_nat (chunk_size - overlap))) acc = Some chunks →
  chunks = acc ++ filter (λ w, blank isspace w = false)
                    (window text chunk_size overlap <$> seq k (m - k)).
Proof.
  intros Hov Hm. revert k acc.
  induction fuel as [|fuel IH]; intros k acc; cbn [chunk_loop]; [done|].
  rewrite slice_window by done.
  set (stride := Z.to_nat (chunk_size - overlap)).
  assert (1 ≤ stride) by lia.
  case_bool_decide as Hlt.
  - assert (k < m) by nia.
    replace (m - k) with (S (m - S k)) by lia.
    replace (Z.of_nat (k * stride) + chunk_size - overlap)%Z
      with (Z.of_nat (S k * stride)) by lia.
    cbn [seq fmap list_fmap]. rewrite filter_cons.
    destruct (blank isspace (window text chunk_size overlap k)) eqn:Hb.
    + rewrite decide_False by done. apply IH.
    + rewrite decide_True by done. intros Hloop%IH.
      by rewrite Hloop, <-(assoc_L (++)).
  - intros [= <-]. symmetry. rewrite <-(right_id_L [] (++) acc) at 2. f_equal.
    apply filter_none, Forall_fmap, Forall_forall.
    intros j Hj%elem_of_seq. simpl.
    unfold window. rewrite drop_ge, take_nil by nia. by rewrite blank_nil.
Qed.

Lemma chunk_loop_ends fuel (text : list C) chunk_size overlap k acc :
  (0 ≤ overlap < chunk_size)%Z →
  0 < fuel →
  length text < k * Z.to_nat (chunk_size - overlap) + fuel →
  is_Some (chunk_loop isspace fuel text chunk_size overlap
    (Z.of_nat (k * Z.to_nat (chunk_size - overlap))) acc).
Proof.
  intros Hov. revert k acc.
  induction fuel as [|fuel IH]; intros k acc Hpos Hfuel; cbn [chunk_loop].
  - lia.
  - set (stride := Z.to_nat (chunk_size - overlap)) in *.
    case_bool_decide as Hlt; [|done].
    replace (Z.of_nat (k * stride) + chunk_size - overlap)%Z
      with (Z.of_nat (S k * stride)) by lia.
    destruct (blank _ _); apply IH; lia.
Qed.

Lemma chunk_text_closed fuel (text : list C) chunk_size overlap chunks :
  (0 ≤ overlap < chunk_size)%Z →
  chunk_text isspace fuel text chunk_size overlap = Some chunks →
  chunks = filter (λ w, blank isspace w = false)
             (window (strip isspace text) chunk_size overlap <$>
              seq 0 (length (strip isspace text))).
Proof.
  intros Hov. unfold chunk_text.
  destruct (_ || _) eqn:Hblank.
  - intros [= <-].
    assert (strip isspace text = []) as ->; [|done].
    destruct text as [|c text]; [done|]. simpl in Hblank.
    unfold blank in Hblank. by destruct (strip isspace (c :: text)).
  - intros Hloop.
    apply (chunk_loop_windows _ _ _ _ 0 (length (strip isspace text)))
      in Hloop; [|done..].
    by rewrite Nat.sub_0_r in Hloop.
Qed.

Lemma window_split (text : list C) chunk_size overlap k :
  text = take (k * Z.to_nat (chunk_size - overlap)) text ++
         window text chunk_size overlap k ++
         drop (k * Z.to_nat (chunk_size - overlap) + Z.to_nat chunk_size) text.
Proof.
  unfold window. rewrite <-drop_drop.
  by rewrite (take_drop (Z.to_nat chunk_size)), take_drop.
Qed.

(** X16. With [0 <= overlap < chunk_size], [chunk_text] ends within
    [len(text) + 1] iterations and returns, in order, exactly the windows
    [text[k*stride : k*stride + chunk_size]] of the stripped text that are
    not blank, where [stride = chunk_size - overlap] and [k = 0, 1, 2, ...]
    (windows that start at or after the end are empty). *)
Theorem chunk_text_windows fuel (text : list C) chunk_size overlap :
  (0 ≤ overlap < chunk_size)%Z →
  length text < fuel →
  chunk_text isspace fuel text chunk_size overlap =
    Some (filter (λ w, blank isspace w = false)
            (window (strip isspace text) chunk_size overlap <$>
             seq 0 (length (strip isspace text)))).
Proof.
  intros Hov Hfuel.
  destruct (chunk_text isspace fuel text chunk_size overlap) as [chunks|] eqn:Hc.
  - f_equal. by eapply chunk_text_closed.
  - exfalso. unfold chunk_text in Hc. destruct (_ || _); [done|].
    pose proof (strip_length text).
    destruct (chunk_loop_ends fuel (strip isspace text) chunk_size overlap 0 [])
      as [r Hr]; [done|lia|lia|].
    change (Z.of_nat (0 * _)) with 0%Z in Hr. congruence.
Qed.

(** X17. With [0 <= overlap < chunk_size], every chunk that [chunk_text]
    returns is a contiguous piece of the stripped text, is not blank and has
    at most [chunk_size] characters; and every character of the stripped
    text that is not white space lies, at its own position, in one of the
    returned chunks: no text is lost. *)
Theorem chunk_text_loses_no_text fuel (text : list C) chunk_size overlap chunks :
  (0 ≤ overlap < chunk_size)%Z →
  chunk_text isspace fuel text chunk_size overlap = Some chunks →
  (∀ chunk, chunk ∈ chunks →
     blank isspace chunk = false ∧
     length chunk ≤ Z.to_nat chunk_size ∧
     ∃ before after, strip isspace text = before ++ chunk ++ after) ∧
  (∀ p c, strip isspace text !! p = Some c → isspace c = false →
     ∃ chunk before after,
       chunk ∈ chunks ∧
       strip isspace text = before ++ chunk ++ after ∧
       length before ≤ p < length before + length chunk).
Proof.
  intros Hov Hc. apply chunk_text_closed in Hc as ->; [|done].
  set (stripped := strip isspace text).
  set (stride := Z.to_nat (chunk_size - overlap)).
  assert (1 ≤ stride ≤ Z.to_nat chunk_size) by lia.
  split.
  - intros chunk [Hb (k & -> & _)%list_elem_of_fmap]%list_elem_of_filter.
    split; [done|]. split.
    + unfold window. rewrite length_take. lia.
    + eexists _, _. apply window_split.
  - intros p c Hp Hc.
    pose proof (lookup_lt_Some _ _ _ Hp) as Hlt.
    set (k := p / stride).
    assert (k * stride ≤ p < k * stride + stride) as Hk.
    { pose proof (Nat.div_mod_eq p stride).
      pose proof (Nat.mod_upper_bound p stride). unfold k. lia. }
    assert (window stripped chunk_size overlap k !! (p - k * stride) = Some c)
      as Hw.
    { unfold window. fold stride. rewrite lookup_take_lt by lia.
      rewrite lookup_drop. by replace (k * stride + (p - k * stride)) with p by lia. }
    exists (window stripped chunk_size overlap k), (take (k * stride) stripped),
      (drop (k * stride + Z.to_nat chunk_size) stripped).
    split; [|split].
    + apply list_elem_of_filter. split.
      * destruct (blank isspace _) eqn:Hb; [|done].
        apply blank_spaces in Hb.
        eapply Forall_lookup_1 in Hb; [|exact Hw]. simpl in Hb. congruence.
      * apply list_elem_of_fmap. exists k. split; [done|].
        apply elem_of_seq. nia.
    + apply window_split.
    + apply lookup_lt_Some in Hw. rewrite length_take. lia.
Qed.

Lemma chunk_loop_stuck fuel (text : list C) chunk_size overlap start acc :
  (chunk_size ≤ overlap)%Z → (start ≤ 0)%Z → 0 < length text →
  chunk_loop isspace fuel text chunk_size overlap start acc = None.
Proof.
  intros Hov. revert start acc.
  induction fuel as [|fuel IH]; intros start acc Hstart Hlen; cbn [chunk_loop].
  - done.
  - rewrite bool_decide_eq_true_2 by lia.
    destruct (blank _ _); apply IH; lia.
Qed.

(** X18. When [overlap >= chunk_size] and the text is not blank, the loop
    of [chunk_text] never ends: [start] never moves forward, so no number of
    iterations produces a result. *)
Theorem chunk_text_never_ends fuel (text : list C) chunk_size overlap :
  (chunk_size ≤ overlap)%Z →
  blank isspace text = false →
  chunk_text isspace fuel text chunk_size overlap = None.
Proof.
  intros Hov Hb. unfold chunk_text. rewrite Hb.
  destruct text as [|c text]; [done|]. simpl.
  apply chunk_loop_stuck; [done..|].
  unfold blank in Hb. destruct (strip isspace (c :: text)); [done|simpl; lia].
Qed.

End Chunking.

Section ChunkingRuns.
Import FileReader Samples.

Lemma chunk_text_windows_witness :
  chunk_text Ascii.is_space 20 sample_text 4 1 =
    Some (filter (λ w, blank Ascii.is_space w = false)
            (window (strip Ascii.is_space sample_text) 4 1 <$>
             seq 0 (length (strip Ascii.is_space sample_text)))).
Proof. apply chunk_text_windows; [lia|simpl; lia]. Defined.

Lemma chunk_text_loses_no_text_witness :
  ∃ chunks,
    chunk_text Ascii.is_space 20 sample_text 4 1 = Some chunks ∧
    length chunks = 4 ∧
    (∀ chunk, chunk ∈ chunks →
       blank Ascii.is_space chunk = false ∧
       length chunk ≤ 4 ∧
       ∃ before after,
         strip Ascii.is_space sample_text = before ++ chunk ++ after) ∧
    (∀ p c, strip Ascii.is_space sample_text !! p = Some c →
       Ascii.is_space c = false →
       ∃ chunk before after,
         chunk ∈ chunks ∧
         strip Ascii.is_space sample_text = before ++ chunk ++ after ∧
         length before ≤ p < length before + length chunk).
Proof.
  destruct (chunk_text Ascii.is_space 20 sample_text 4 1) as [chunks|] eqn:Hc;
    [|by vm_compute in Hc].
  exists chunks. split; [done|]. split.
  - vm_compute in Hc. by injection Hc as <-.
  - apply (chunk_text_loses_no_text Ascii.is_space 20 sample_text 4 1);
      [lia|done].
Defined.

Lemma chunk_text_never_ends_witness :
  chunk_text Ascii.is_space 1000 sample_text 4 4 = None.
Proof. apply chunk_text_never_ends; [lia|reflexivity]. Defined.

End ChunkingRuns.

(** ** ingest/chunker.py and ingest/uploader.py *)

Section IngestFacts.
Import Ingest.
Context (s : Services) (settings : Settings).

Lemma fst_zip_take {A B} (l : list A) (k : list B) :
  (zip l k).*1 = take (length k) l.
Proof.
  revert k. induction l as [|x l IH]; intros [|y k]; simpl; [done..|].
  by rewrite IH.
Qed.

Lemma points_of_payload drawn batch embeddings :
  payload <$> points_of s drawn batch embeddings =
  payload_of <$> take (length embeddings) batch.
Proof.
  unfold points_of. rewrite fmap_imap, <-fst_zip_take, <-list_fmap_compose.
  rewrite <-imap_const. by apply imap_ext.
Qed.

Lemma points_of_length drawn batch embeddings :
  length (points_of s drawn batch embeddings) =
  length batch `min` length embeddings.
Proof. unfold points_of. by rewrite length_imap, length_zip. Qed.

Lemma points_of_id drawn batch embeddings :
  id <$> points_of s drawn batch embeddings =
  uuid4 s <$> seq drawn (length (points_of s drawn batch embeddings)).
Proof.
  rewrite points_of_length. unfold points_of.
  rewrite fmap_imap, <-length_zip.
  revert drawn. induction (zip batch embeddings) as [|ce l IH]; intros drawn;
    [done|].
  rewrite imap_cons. simpl. rewrite Nat.add_0_r. f_equal.
  rewrite <-IH. apply imap_ext. intros i x _. simpl. f_equal. lia.
Qed.

Lemma sent_app calls1 calls2 : sent (calls1 ++ calls2) = sent calls1 ++ sent calls2.
Proof. apply bind_app. Qed.

Lemma embedded_app calls1 calls2 :
  embedded (calls1 ++ calls2) = embedded calls1 ++ embedded calls2.
Proof. apply bind_app. Qed.

Lemma take_batches {A} (l : list A) j m :
  take BATCH_SIZE (drop (j * BATCH_SIZE) l) ++
    take (m * BATCH_SIZE) (drop (S j * BATCH_SIZE) l) =
  take (S m * BATCH_SIZE) (drop (j * BATCH_SIZE) l).
Proof.
  replace (S m * BATCH_SIZE) with (BATCH_SIZE + m * BATCH_SIZE) by lia.
  rewrite <-take_take_drop, drop_drop. do 3 f_equal. lia.
Qed.

(** What holds of every upload, whatever the services answer. *)
Lemma upload_batches_inv chunks m j total :
  let r := upload_batches s settings chunks
             ((λ k, k * BATCH_SIZE) <$> seq j m) j total in
  payload <$> sent r.1 `sublist_of` payload_of <$> drop (j * BATCH_SIZE) chunks ∧
  concat (embedded r.1) `prefix_of` text <$> drop (j * BATCH_SIZE) chunks ∧
  id <$> sent r.1 = uuid4 s <$> seq total (length (sent r.1)) ∧
  Forall (λ texts, length texts ≤ BATCH_SIZE) (embedded r.1) ∧
  (∀ n, r.2 = Ok n →
     n = total + length (sent r.1) ∧
     concat (embedded r.1) =
       text <$> take (m * BATCH_SIZE) (drop (j * BATCH_SIZE) chunks)).
Proof.
  revert j total. induction m as [|m IH]; intros j total.
  { simpl. split_and!; [apply sublist_nil_l|apply prefix_nil|done|done|].
    intros n [= <-]. split; [lia|done]. }
  cbn [seq fmap list_fmap upload_batches].
  set (batch := take BATCH_SIZE (drop (j * BATCH_SIZE) chunks)).
  assert (length batch ≤ BATCH_SIZE) as Hbatch.
  { unfold batch. rewrite length_take. lia. }
  assert (text <$> batch `prefix_of` text <$> drop (j * BATCH_SIZE) chunks)
    as Htexts.
  { unfold batch. rewrite fmap_take. apply prefix_take. }
  assert (batch = take BATCH_SIZE (drop (j * BATCH_SIZE) chunks)) as Hb by done.
  clearbody batch.
  destruct (embeddings_create s j (text <$> batch)) as [embeddings|e].
  2:{ cbn. rewrite app_nil_r. split_and!;
        [apply sublist_nil_l|done|done| |done].
      constructor; [by rewrite length_fmap|done]. }
  set (points := points_of s total batch embeddings).
  assert (payload <$> points `sublist_of` payload_of <$> batch) as Hpoints.
  { unfold points. rewrite points_of_payload, fmap_take. apply sublist_take. }
  assert (points = points_of s total batch embeddings) as Hpts by done.
  clearbody points.
  destruct (upsert s j points) as [[]|e].
  2:{ cbn. rewrite !app_nil_r. split_and!.
      - etrans; [exact Hpoints|]. rewrite Hb, fmap_take.
        apply sublist_take.
      - done.
      - rewrite Hpts. apply points_of_id.
      - constructor; [by rewrite length_fmap|done].
      - done. }
  destruct (IH (S j) (total + length points)) as (Hs & Hp & Hid & Hle & Hn).
  cbn [fst snd]. rewrite sent_app, embedded_app. cbn.
  rewrite !app_nil_r. cbn.
  replace (S j * BATCH_SIZE) with (j * BATCH_SIZE + BATCH_SIZE) in Hs, Hp
    by lia.
  rewrite <-drop_drop in Hs, Hp. split_and!.
  - rewrite fmap_app, <-(take_drop BATCH_SIZE (drop (j * BATCH_SIZE) chunks)).
    rewrite fmap_app, <-Hb. by apply sublist_app.
  - rewrite <-(take_drop BATCH_SIZE (drop (j * BATCH_SIZE) chunks)), fmap_app.
    rewrite <-Hb. by apply prefix_app.
  - rewrite fmap_app, length_app, seq_app, fmap_app, Hid.
    f_equal. rewrite Hpts. apply points_of_id.
  - constructor; [by rewrite length_fmap|done].
  - intros n Hok. destruct (Hn n Hok) as [-> Hall]. split.
    + rewrite length_app. lia.
    + rewrite Hall, <-fmap_app, Hb. f_equal. apply take_batches.
Qed.

(** As long as the services answer, the loop sends every chunk. *)
Lemma upload_batches_ok chunks m rest j total :
  (∀ n texts, j ≤ n < j + m →
     ∃ vs, embeddings_create s n texts = Ok vs ∧ length texts ≤ length vs) →
  (∀ n points, j ≤ n < j + m → upsert s n points = Ok ()) →
  ∃ calls,
    upload_batches s settings chunks
      (((λ k, k * BATCH_SIZE) <$> seq j m) ++ rest) j total =
      (calls ++ (upload_batches s settings chunks rest (j + m)
                   (total + length (sent calls))).1,
       (upload_batches s settings chunks rest (j + m)
          (total + length (sent calls))).2) ∧
    payload <$> sent calls =
      payload_of <$> take (m * BATCH_SIZE) (drop (j * BATCH_SIZE) chunks) ∧
    length (embedded calls) = m.
Proof.
  revert j total. induction m as [|m IH]; intros j total Hembed Hupsert.
  { exists []. simpl. rewrite !Nat.add_0_r. split_and!; [|done..].
    by destruct (upload_batches _ _ _ _ _ _). }
  cbn [seq fmap list_fmap app upload_batches].
  set (batch := take BATCH_SIZE (drop (j * BATCH_SIZE) chunks)).
  assert (batch = take BATCH_SIZE (drop (j * BATCH_SIZE) chunks)) as Hb by done.
  clearbody batch.
  destruct (Hembed j (text <$> batch)) as (vs & -> & Hvs); [lia|].
  rewrite length_fmap in Hvs.
  set (points := points_of s total batch vs).
  assert (points = points_of s total batch vs) as Hpts by done.
  clearbody points.
  rewrite (Hupsert j points) by lia.
  destruct (IH (S j) (total + length points)) as (calls & -> & Hpay & Hlen).
  { intros n texts ?. apply Hembed. lia. }
  { intros n pts ?. apply Hupsert. lia. }
  exists ([EmbeddingsCreate (text <$> batch);
           Upsert (qdrant_collection_name settings) points] ++ calls).
  cbn [fst snd]. rewrite sent_app, embedded_app. cbn.
  rewrite !app_nil_r, length_app.
  replace (S (j + m)) with (j + S m) by lia.
  replace (total + length points + length (sent calls))
    with (total + (length points + length (sent calls))) by lia.
  split_and!; [done| |by rewrite Hlen].
  rewrite fmap_app, Hpay, Hpts, points_of_payload, take_ge by lia.
  rewrite <-fmap_app, Hb. f_equal. apply take_batches.
Qed.

Lemma batch_count_covers n : n ≤ (n + BATCH_SIZE - 1) / BATCH_SIZE * BATCH_SIZE.
Proof.
  unfold BATCH_SIZE.
  pose proof (Nat.div_mod_eq (n + 10 - 1) 10).
  pose proof (Nat.mod_upper_bound (n + 10 - 1) 10). lia.
Qed.

Lemma ensure_collection_quiet name size :
  sent (_ensure_collection s name size).1 = [] ∧
  embedded (_ensure_collection s name size).1 = [].
Proof.
  unfold _ensure_collection. destruct (get_collections s); [|done].
  by case_bool_decide.
Qed.

Lemma ensure_collection_ok name size names :
  get_collections s = Ok names → create_collection s = Ok () →
  (_ensure_collection s name size).2 = Ok ().
Proof.
  unfold _ensure_collection. intros -> Hc. by case_bool_decide.
Qed.

Lemma upload_chunks_inv_ids chunks :
  id <$> sent (upload_chunks s settings chunks).1 =
  uuid4 s <$> seq 0 (length (sent (upload_chunks s settings chunks).1)).
Proof.
  unfold upload_chunks.
  destruct (ensure_collection_quiet (qdrant_collection_name settings)
              (embedding_dimensions settings)) as [Hs He].
  destruct (_ensure_collection _ _ _).2 as [[]|e]; cbn [fst snd].
  2:{ by rewrite Hs. }
  rewrite sent_app, Hs. cbn [app].
  by destruct (upload_batches_inv chunks
                 ((length chunks + BATCH_SIZE - 1) / BATCH_SIZE) 0 0)
    as (_ & _ & Hid & _).
Qed.

(** X19. Whatever the store and the embedding service answer,
    [upload_chunks] hands chunks over in their order and each at most once:
    the payloads sent are a sub-sequence of the chunks' payloads, the texts
    embedded are a prefix of the chunks' texts in batches of at most
    [BATCH_SIZE], and the identifiers are fresh draws in order.  When it
    returns, every text was embedded and the number returned is the number of
    points sent, which is at most the number of chunks. *)
Theorem upload_chunks_sends_in_order chunks :
  let r := upload_chunks s settings chunks in
  payload <$> sent r.1 `sublist_of` payload_of <$> chunks ∧
  concat (embedded r.1) `prefix_of` text <$> chunks ∧
  Forall (λ texts, length texts ≤ BATCH_SIZE) (embedded r.1) ∧
  id <$> sent r.1 = uuid4 s <$> seq 0 (length (sent r.1)) ∧
  (∀ n, r.2 = Ok n →
     n = length (sent r.1) ∧ n ≤ length chunks ∧
     concat (embedded r.1) = text <$> chunks).
Proof.
  unfold upload_chunks.
  destruct (ensure_collection_quiet (qdrant_collection_name settings)
              (embedding_dimensions settings)) as [Hs He].
  destruct (_ensure_collection _ _ _).2 as [[]|e]; cbn [fst snd].
  2:{ rewrite Hs, He. split_and!;
        [apply sublist_nil_l|apply prefix_nil|done|done|done]. }
  rewrite sent_app, embedded_app, Hs, He. cbn [app].
  destruct (upload_batches_inv chunks ((length chunks + BATCH_SIZE - 1) / BATCH_SIZE) 0 0)
    as (Hsub & Hpre & Hid & Hle & Hn).
  fold (batch_starts (length chunks)) in Hsub, Hpre, Hid, Hle, Hn.
  split_and!; [done..|].
  intros n Hok. destruct (Hn n Hok) as [-> Hall]. split_and!; [done| |].
  - apply sublist_length in Hsub. by rewrite !length_fmap in Hsub.
  - rewrite Hall. cbn [Nat.mul drop].
    by rewrite take_ge by apply batch_count_covers.
Qed.

(** X20. When the collection can be ensured, every embedding call returns at
    least one vector per text and every upsert succeeds, [upload_chunks]
    returns [len(chunks)]: it has sent one point per chunk, in order, with
    the chunk's payload and a fresh identifier, in [ceil(len(chunks) /
    BATCH_SIZE)] embedding calls. *)
Theorem upload_chunks_uploads_every_chunk chunks names :
  get_collections s = Ok names →
  create_collection s = Ok () →
  (∀ n texts, ∃ vs,
     embeddings_create s n texts = Ok vs ∧ length texts ≤ length vs) →
  (∀ n points, upsert s n points = Ok ()) →
  let r := upload_chunks s settings chunks in
  r.2 = Ok (length chunks) ∧
  payload <$> sent r.1 = payload_of <$> chunks ∧
  id <$> sent r.1 = uuid4 s <$> seq 0 (length chunks) ∧
  length (embedded r.1) = (length chunks + BATCH_SIZE - 1) / BATCH_SIZE.
Proof.
  intros Hget Hcreate Hembed Hupsert.
  pose proof (upload_chunks_inv_ids chunks) as Hids.
  unfold upload_chunks in *.
  destruct (ensure_collection_quiet (qdrant_collection_name settings)
              (embedding_dimensions settings)) as [Hs He].
  rewrite (ensure_collection_ok _ _ _ Hget Hcreate) in *. cbn [fst snd] in *.
  rewrite sent_app, embedded_app, Hs, He in *. cbn [app] in *.
  destruct (upload_batches_ok chunks
              ((length chunks + BATCH_SIZE - 1) / BATCH_SIZE) [] 0 0)
    as (calls & Hrun & Hpay & Hlen); [by intros; apply Hembed|done|].
  rewrite app_nil_r in Hrun. fold (batch_starts (length chunks)) in Hrun.
  rewrite Hrun in *. cbn [upload_batches fst snd Nat.add] in *.
  rewrite app_nil_r in *. cbn [Nat.mul drop] in Hpay.
  rewrite take_ge in Hpay by apply batch_count_covers.
  assert (length (sent calls) = length chunks) as Hn.
  { apply (f_equal length) in Hpay. by rewrite !length_fmap in Hpay. }
  rewrite Hn in *. done.
Qed.

(** X21. A failure of the embedding service at batch [j], after [j] batches
    went through, leaves [upload_chunks] as that exception; the first
    [j * BATCH_SIZE] chunks have been sent to the store by then and stay
    there, and no later chunk is sent. *)
Theorem upload_chunks_failure_is_partial chunks names j e :
  get_collections s = Ok names →
  create_collection s = Ok () →
  (∀ n texts, n < j → ∃ vs,
     embeddings_create s n texts = Ok vs ∧ length texts ≤ length vs) →
  (∀ n points, n < j → upsert s n points = Ok ()) →
  j * BATCH_SIZE < length chunks →
  embeddings_create s j
    (text <$> take BATCH_SIZE (drop (j * BATCH_SIZE) chunks)) = Raise e →
  let r := upload_chunks s settings chunks in
  r.2 = Raise e ∧
  payload <$> sent r.1 = payload_of <$> take (j * BATCH_SIZE) chunks ∧
  length (embedded r.1) = S j.
Proof.
  intros Hget Hcreate Hembed Hupsert Hj Hfail.
  unfold upload_chunks.
  destruct (ensure_collection_quiet (qdrant_collection_name settings)
              (embedding_dimensions settings)) as [Hs He].
  rewrite (ensure_collection_ok _ _ _ Hget Hcreate). cbn [fst snd].
  rewrite sent_app, embedded_app, Hs, He. cbn [app].
  pose proof (batch_count_covers (length chunks)) as Hcover.
  set (batches := (length chunks + BATCH_SIZE - 1) / BATCH_SIZE) in *.
  assert (j < batches) as Hlt by (unfold BATCH_SIZE in *; nia).
  unfold batch_starts. fold batches.
  replace batches with (j + S (batches - S j)) by lia.
  rewrite seq_app, fmap_app. cbn [seq fmap list_fmap Nat.add].
  destruct (upload_batches_ok chunks j
              (j * BATCH_SIZE ::
               ((λ k, k * BATCH_SIZE) <$> seq (S j) (batches - S j))) 0 0)
    as (calls & -> & Hpay & Hlen).
  { intros n texts ?. apply Hembed. lia. }
  { intros n pts ?. apply Hupsert. lia. }
  cbn [upload_batches Nat.add fst snd]. rewrite Hfail. cbn [fst snd].
  rewrite sent_app, embedded_app, length_app, Hlen. cbn.
  rewrite app_nil_r. split_and!; [done|done|lia].
Qed.

Lemma chunk_documents_bind (split_text : string → list string) documents :
  chunk_documents split_text documents = documents ≫= chunks_of split_text.
Proof.
  unfold chunk_documents.
  rewrite <-(app_nil_l (documents ≫= _)). generalize (@nil Segment).
  induction documents as [|doc documents IH]; intros acc; simpl.
  - by rewrite app_nil_r.
  - by rewrite IH, <-(assoc_L (++)).
Qed.

(** X22. [chunk_documents] keeps the pieces of every document in order,
    and the payload [upload_chunks] builds for a chunk carries the piece's
    position within its document under ["chunk_index"], the document's other
    metadata unchanged, and under ["text"] the piece itself, unless the
    document's metadata has a ["text"] entry, which then replaces it. *)
Theorem ingested_payload (split_text : string → list string) documents :
  text <$> chunk_documents split_text documents =
    documents ≫= (λ doc, split_text (text doc)) ∧
  ∀ chunk, chunk ∈ chunk_documents split_text documents →
    ∃ doc idx,
      doc ∈ documents ∧
      split_text (text doc) !! idx = Some (text chunk) ∧
      payload_of chunk !! "chunk_index" = Some (JNum (Z.of_nat idx)) ∧
      payload_of chunk !! "text" =
        Some (default (JStr (text chunk)) (metadata doc !! "text")) ∧
      ∀ key, key ≠ "text" → key ≠ "chunk_index" →
        payload_of chunk !! key = metadata doc !! key.
Proof.
  rewrite chunk_documents_bind. split.
  - induction documents as [|doc documents IH]; [done|].
    rewrite !bind_cons, fmap_app. f_equal; [|exact IH].
    unfold chunks_of. rewrite fmap_imap.
    rewrite (imap_ext _ (const (λ x, x))) by done.
    by rewrite imap_const, list_fmap_id.
  - intros chunk (doc & Hchunk & Hdoc)%list_elem_of_bind.
    apply elem_of_lookup_imap_1 in Hchunk as (idx & piece & -> & Hpiece).
    exists doc, idx. unfold payload_of. cbn [text metadata].
    split_and!; [done|done| | |].
    + apply lookup_union_Some_raw. left. by rewrite lookup_insert_eq.
    + rewrite lookup_union, lookup_insert_ne by done.
      rewrite lookup_singleton_eq. by destruct (metadata doc !! "text").
    + intros key Ht Hi. rewrite lookup_union, lookup_insert_ne by done.
      rewrite lookup_singleton_ne by done. by destruct (metadata doc !! key).
Qed.

End IngestFacts.

Section IngestRuns.
Import Ingest Samples.

Lemma upload_chunks_uploads_every_chunk_witness :
  (upload_chunks services_up sample_settings twelve_chunks).2 = Ok 12 ∧
  payload <$> sent (upload_chunks services_up sample_settings twelve_chunks).1 =
    payload_of <$> twelve_chunks ∧
  id <$> sent (upload_chunks services_up sample_settings twelve_chunks).1 =
    pretty <$> seq 0 12 ∧
  length (embedded (upload_chunks services_up sample_settings twelve_chunks).1)
    = 2.
Proof.
  apply (upload_chunks_uploads_every_chunk services_up sample_settings
           twelve_chunks ["trials"]); [reflexivity|reflexivity| |reflexivity].
  intros n texts. eexists. split; [reflexivity|]. by rewrite length_fmap.
Defined.

Lemma upload_chunks_failure_is_partial_witness :
  (upload_chunks services_rate_limited sample_settings twelve_chunks).2 =
    Raise (UpstreamError "rate limit") ∧
  payload <$>
    sent (upload_chunks services_rate_limited sample_settings twelve_chunks).1 =
    payload_of <$> take 10 twelve_chunks ∧
  length
    (embedded
       (upload_chunks services_rate_limited sample_settings twelve_chunks).1)
    = 2.
Proof.
  apply (upload_chunks_failure_is_partial services_rate_limited sample_settings
           twelve_chunks [] 1 (UpstreamError "rate limit"));
    [reflexivity|reflexivity| | |simpl; lia|reflexivity].
  - intros n texts Hn. exists ((λ _, [1; 0; 0]%Z) <$> texts).
    split; [|by rewrite length_fmap].
    simpl. by rewrite bool_decide_eq_false_2 by lia.
  - done.
Defined.

End IngestRuns.

(** ** data_generator/orchestrator.py: checkpoints *)

Section Checkpoints.
Import Orchestrator.
Context (words_per_page : Z) (env : Environment).

Lemma sum_words_cons (run_trial : Z → outcome Z) i words called :
  run_trial i = Ok words →
  foldr Z.add 0%Z (words_of run_trial <$> (i :: called)) =
  (words + foldr Z.add 0%Z (words_of run_trial <$> called))%Z.
Proof. intros Hi. simpl. unfold words_of at 1. by rewrite Hi. Qed.

Lemma contains_list l name :
  existsb (λ v, eq_str v name) l = true ↔ JStr name ∈ l.
Proof.
  induction l as [|v l IH]; simpl.
  { split; [done|by intros ?%elem_of_nil]. }
  rewrite orb_true_iff, IH, elem_of_cons. split.
  - intros [Hv|?]; [left|by right].
    destruct v; try done. simpl in Hv. by apply bool_decide_eq_true in Hv as ->.
  - intros [<-|?]; [left|by right]. simpl. by apply bool_decide_eq_true.
Qed.

Lemma contains_append trials_done trials_done' name name' :
  append trials_done name' = Ok trials_done' →
  (contains trials_done name = Ok true → contains trials_done' name = Ok true) ∧
  contains trials_done' name' = Ok true.
Proof.
  destruct trials_done as [| | | |l|]; try done. intros [= <-]. simpl.
  split.
  - intros [= Hin]. f_equal. apply contains_list in Hin.
    apply contains_list, elem_of_app. by left.
  - f_equal. apply contains_list, elem_of_app. right. by left.
Qed.

(** What the loop keeps when it starts from a list and a number, whatever
    the trials do. *)
Lemma run_loop_inv (run_trial : Z → outcome Z) indices f l n :
  get (load_checkpoint f) "trials_done" (JList []) = Ok (JList l) →
  get (load_checkpoint f) "total_words" (JNum 0) = Ok (JNum n) →
  let r := run_loop run_trial words_per_page indices f (JList l) (JNum n) in
  let listed := l ++ ids (generated run_trial (called r)) in
  let words := (n + foldr Z.add 0%Z (words_of run_trial <$> called r))%Z in
  NoDup (trial_id <$> called r) ∧
  (∀ i, i ∈ called r → i ∈ indices ∧ JStr (trial_id i) ∉ l) ∧
  get (load_checkpoint (disk r)) "trials_done" (JList []) = Ok (JList listed) ∧
  get (load_checkpoint (disk r)) "total_words" (JNum 0) = Ok (JNum words) ∧
  match ended r with
  | Returned trials_done total_words total_pages =>
      trials_done = JList listed ∧
      total_words = JNum words ∧
      total_pages = (words `div` words_per_page)%Z ∧
      words_per_page ≠ 0%Z ∧
      (∀ i, i ∈ indices → JStr (trial_id i) ∈ listed) ∧
      generated run_trial (called r) = called r
  | ValueError => False
  | Raised e => False
  | TrialFailed e =>
      ∃ i, last (called r) = Some i ∧ run_trial i = Raise e
  | ZeroDivisionError => words_per_page = 0%Z
  end.
Proof.
  revert f l n.
  induction indices as [|i indices IH]; intros f l n Hlisted Hwords;
    cbn [run_loop].
  { cbn zeta. cbn [called disk ended fmap list_fmap foldr].
    unfold generated, ids. rewrite filter_nil. cbn [fmap list_fmap].
    rewrite app_nil_r, Z.add_0_r.
    split_and!; [constructor|by intros i ?%elem_of_nil|done|done|].
    unfold return_dictionary, floor_div. simpl.
    case_bool_decide; [done|]. split_and!; try done.
    by intros i ?%elem_of_nil. }
  cbn [contains].
  destruct (existsb _ l) eqn:Hin.
  { apply contains_list in Hin.
    destruct (IH f l n Hlisted Hwords) as (Hnd & Hcalled & Htd & Htw & Hend).
    cbn zeta in *. split_and!; [done| |done|done|].
    - intros j Hj. destruct (Hcalled j Hj). split; [by right|done].
    - destruct (ended _) as [trials_done total_words total_pages| | |e|];
        [|done..].
      destruct Hend as (-> & -> & -> & ? & Hall & ?). split_and!; try done.
      intros j [->|Hj]%elem_of_cons; [|by apply Hall].
      apply elem_of_app. by left. }
  assert (JStr (trial_id i) ∉ l) as Hnot.
  { intros ?%contains_list. congruence. }
  destruct (run_trial i) as [w|e] eqn:Hi.
  2:{ cbn zeta. cbn [called disk ended fmap list_fmap foldr last].
      unfold generated, ids. rewrite filter_cons_False, filter_nil
        by (rewrite Hi; done).
      cbn [fmap list_fmap]. rewrite app_nil_r.
      unfold words_of. rewrite Hi, !Z.add_0_r.
      split_and!; [apply NoDup_singleton| |done|done|by exists i].
      intros j ->%list_elem_of_singleton. split; [by left|done]. }
  cbn [add_words as_int append]. unfold floor_div. cbn [as_int].
  case_bool_decide as Hwpp.
  { cbn zeta. cbn [called disk ended fmap list_fmap foldr last].
    unfold generated, ids.
    rewrite filter_cons_True, filter_nil by (by rewrite Hi).
    cbn [fmap list_fmap load_checkpoint save_checkpoint get dict_get].
    unfold words_of. rewrite Hi, Z.add_0_r.
    split_and!; [apply NoDup_singleton| |done|done|done].
    intros j ->%list_elem_of_singleton. split; [by left|done]. }
  destruct (IH (save_checkpoint (JList (l ++ [JStr (trial_id i)]))
                  (JNum (n + w)) (trial_id i))
               (l ++ [JStr (trial_id i)]) (n + w)%Z)
    as (Hnd & Hcalled & Htd & Htw & Hend); [done..|].
  cbn zeta in *. cbn [called disk ended].
  set (r := run_loop _ _ _ _ _ _) in *. clearbody r.
  assert (generated run_trial (i :: called r) =
          i :: generated run_trial (called r)) as Hgen.
  { unfold generated. by rewrite filter_cons_True by (by rewrite Hi). }
  assert (l ++ ids (generated run_trial (i :: called r)) =
          (l ++ [JStr (trial_id i)]) ++ ids (generated run_trial (called r)))
    as Hids.
  { rewrite Hgen. unfold ids. by rewrite fmap_cons, <-(assoc_L (++)). }
  assert ((n + foldr Z.add 0 (words_of run_trial <$> i :: called r))%Z =
          (n + w + foldr Z.add 0 (words_of run_trial <$> called r))%Z)
    as Hsum.
  { rewrite (sum_words_cons _ _ w) by done. lia. }
  rewrite Hids, Hsum.
  split_and!; [| |done|done|].
  - rewrite fmap_cons. apply NoDup_cons. split; [|done].
    intros (j & Hj & Hjc)%list_elem_of_fmap.
    destruct (Hcalled j Hjc) as [_ Hnew]. apply Hnew.
    rewrite <-Hj. apply elem_of_app. right. by left.
  - intros j [->|Hj]%elem_of_cons; [split; [by left|done]|].
    destruct (Hcalled j Hj) as [? Hnew]. split; [by right|].
    intros ?. apply Hnew, elem_of_app. by left.
  - destruct (ended r) as [trials_done total_words total_pages| | |e|];
      [|done|done| |done].
    + destruct Hend as (-> & -> & -> & ? & Hall & Hg). split_and!; try done.
      * intros j [->|Hj]%elem_of_cons; [|by apply Hall].
        apply elem_of_app. left. apply elem_of_app. right. by left.
      * by rewrite Hgen, Hg.
    + destruct Hend as (j & Hlast & Hj). exists j. split; [|done].
      destruct (called r); [done|]. exact Hlast.
Qed.

Lemma floor_div_raises total_words raised :
  floor_div words_per_page total_words = inl raised →
  raised = Raised TypeError ∨ raised = ZeroDivisionError.
Proof.
  unfold floor_div. destruct (as_int total_words); [|intros [= <-]; by left].
  case_bool_decide; [intros [= <-]; by right|done].
Qed.

(** What a returned dictionary says of the checkpoint left behind, for
    any content of the checkpoint the run started from. *)
Lemma run_loop_returned (run_trial : Z → outcome Z) indices :
  ∀ f trials_done total_words trials_done' total_words' total_pages,
  get (load_checkpoint f) "trials_done" (JList []) = Ok trials_done →
  get (load_checkpoint f) "total_words" (JNum 0) = Ok total_words →
  ended (run_loop run_trial words_per_page indices f trials_done total_words)
    = Returned trials_done' total_words' total_pages →
  let r := run_loop run_trial words_per_page indices f trials_done total_words in
  get (load_checkpoint (disk r)) "trials_done" (JList []) = Ok trials_done' ∧
  get (load_checkpoint (disk r)) "total_words" (JNum 0) = Ok total_words' ∧
  return_dictionary words_per_page trials_done' total_words'
    = Returned trials_done' total_words' total_pages ∧
  (∀ name, contains trials_done name = Ok true →
           contains trials_done' name = Ok true) ∧
  (∀ i, i ∈ indices → contains trials_done' (trial_id i) = Ok true).
Proof.
  induction indices as [|i indices IH];
    intros f trials_done total_words trials_done' total_words' total_pages
      Hlisted Hwords; cbn [run_loop].
  { cbn [ended disk]. unfold return_dictionary.
    destruct (floor_div _ _) as [raised|pages] eqn:Hdiv.
    { by destruct (floor_div_raises _ _ Hdiv) as [-> | ->]. }
    intros [= <- <- <-]. cbn zeta. rewrite Hdiv.
    split_and!; [done..|]. by intros i ?%elem_of_nil. }
  destruct (contains trials_done (trial_id i)) as [[]|e] eqn:Hin; [| |done].
  { intros Hend. destruct (IH _ _ _ _ _ _ Hlisted Hwords Hend)
      as (? & ? & ? & Hmono & Hall).
    cbn zeta. split_and!; [done..|].
    intros j [->|Hj]%elem_of_cons; [by apply Hmono|by apply Hall]. }
  destruct (run_trial i) as [w|e]; [|done].
  destruct (add_words total_words w) as [total_words2|e]; [|done].
  destruct (append trials_done (trial_id i)) as [trials_done2|e] eqn:Happend;
    [|done].
  destruct (floor_div words_per_page total_words2) as [raised|pages] eqn:Hdiv.
  { cbn [ended]. by destruct (floor_div_raises _ _ Hdiv) as [-> | ->]. }
  cbn [ended disk]. intros Hend.
  destruct (IH (save_checkpoint trials_done2 total_words2 (trial_id i))
              _ _ _ _ _ eq_refl eq_refl Hend) as (? & ? & ? & Hmono & Hall).
  destruct (contains_append _ _ (trial_id i) _ Happend) as [_ Hnew].
  cbn zeta. split_and!; [done..| |].
  - intros name Hname. apply Hmono.
    by apply (contains_append _ _ name _ Happend).
  - intros j [->|Hj]%elem_of_cons; [by apply Hmono|by apply Hall].
Qed.

(** When every requested trial is in the list already, nothing runs. *)
Lemma run_loop_skips (run_trial : Z → outcome Z) indices f trials_done total_words :
  (∀ i, i ∈ indices → contains trials_done (trial_id i) = Ok true) →
  run_loop run_trial words_per_page indices f trials_done total_words =
    {| disk := f; called := [];
       ended := return_dictionary words_per_page trials_done total_words |}.
Proof.
  induction indices as [|i indices IH]; intros Hall; cbn [run_loop]; [done|].
  rewrite (Hall i) by (by left).
  apply IH. intros j Hj. apply Hall. by right.
Qed.

(** From a list and a number, the file the loop starts from matters only
    until the first trial is generated. *)
Lemma run_loop_disk (run_trial : Z → outcome Z) indices f f' : ∀ l n,
  let r := run_loop run_trial words_per_page indices f (JList l) (JNum n) in
  let r' := run_loop run_trial words_per_page indices f' (JList l) (JNum n) in
  called r' = called r ∧ ended r' = ended r ∧
  (generated run_trial (called r) ≠ [] → disk r' = disk r) ∧
  (generated run_trial (called r) = [] → disk r = f).
Proof.
  induction indices as [|i indices IH]; intros l n; cbn [run_loop].
  { by cbn. }
  cbn [contains]. destruct (existsb _ l); [apply IH|].
  unfold generated.
  destruct (run_trial i) as [w|e] eqn:Hi.
  - cbn [add_words as_int append].
    destruct (floor_div _ _); cbn zeta; cbn [called disk ended];
      rewrite filter_cons_True by (by rewrite Hi); done.
  - cbn zeta. cbn [called disk ended].
    by rewrite filter_cons_False by (by rewrite Hi).
Qed.

(** The loop on a checkpoint whose list is no list or whose total is no
    number never writes the file. *)
Lemma run_loop_unusable (run_trial : Z → outcome Z) indices f
    trials_done total_words :
  (∀ l, trials_done ≠ JList l) ∨ as_int total_words = None →
  let r := run_loop run_trial words_per_page indices f trials_done total_words in
  disk r = f ∧ length (called r) ≤ 1 ∧
  match ended r with
  | Returned trials_done' total_words' _ =>
      called r = [] ∧ trials_done' = trials_done ∧ total_words' = total_words
  | ValueError => False
  | Raised e => e = AttributeError ∨ e = TypeError
  | TrialFailed e => ∃ i, called r = [i] ∧ run_trial i = Raise e
  | ZeroDivisionError => called r = []
  end.
Proof.
  intros Hbad. induction indices as [|i indices IH]; cbn [run_loop].
  { cbn zeta. cbn [disk called ended length]. split_and!; [done|lia|].
    unfold return_dictionary.
    destruct (floor_div _ _) as [raised|pages] eqn:Hdiv; [|done].
    destruct (floor_div_raises _ _ Hdiv) as [-> | ->]; [by right|done]. }
  destruct (contains trials_done (trial_id i)) as [[]|e] eqn:Hin; [done| |].
  - destruct (run_trial i) as [w|e] eqn:Hi;
      [|cbn zeta; cbn [disk called ended length]; split_and!; [done|lia|eauto]].
    unfold add_words.
    destruct (as_int total_words) as [n|] eqn:Hn;
      [|cbn zeta; cbn [disk called ended length]; split_and!;
        [done|lia|by right]].
    destruct Hbad as [Hlist|?]; [|done].
    destruct trials_done; try done; try (by destruct (Hlist l));
      (cbn zeta; cbn [disk called ended length append]; split_and!;
       [done|lia|by left]).
  - cbn zeta. cbn [disk called ended length]. split_and!; [done|lia|].
    destruct trials_done; try done; injection Hin as <-; by right.
Qed.

(** X23.  A run that returns, made with [resume] or having generated at
    least one trial, leaves a checkpoint from which the same request with
    [resume] does nothing: run again in the same environment, it calls
    [run_trial] for no trial, leaves the checkpoint file as it is and returns
    the same dictionary, whatever the trials would now produce and whatever
    the checkpoint file held before the first run. *)
Theorem resumed_run_does_nothing (run_trial run_trial' : Z → outcome Z)
    f num_trials resume start_index trials_done total_words total_pages :
  let r := run run_trial words_per_page env f num_trials resume start_index in
  ended r = Returned trials_done total_words total_pages →
  resume = true ∨ generated run_trial (called r) ≠ [] →
  run run_trial' words_per_page env (disk r) num_trials true start_index =
    {| disk := disk r; called := [];
       ended := Returned trials_done total_words total_pages |}.
Proof.
  cbn zeta. unfold run.
  assert (∀ f0 listed words,
    get (load_checkpoint f0) "trials_done" (JList []) = Ok listed →
    get (load_checkpoint f0) "total_words" (JNum 0) = Ok words →
    let r := run_loop run_trial words_per_page
               (seqZ start_index num_trials) f0 listed words in
    ended r = Returned trials_done total_words total_pages →
    match get (load_checkpoint (disk r)) "trials_done" (JList []) with
    | Raise e => {| disk := disk r; called := []; ended := Raised e |}
    | Ok listed' =>
        match get (load_checkpoint (disk r)) "total_words" (JNum 0) with
        | Raise e => {| disk := disk r; called := []; ended := Raised e |}
        | Ok words' =>
            run_loop run_trial' words_per_page (seqZ start_index num_trials)
              (disk r) listed' words'
        end
    end = {| disk := disk r; called := [];
             ended := Returned trials_done total_words total_pages |})
    as Hresumed.
  { intros f0 listed words Hlisted Hwords r Hend. subst r.
    destruct (run_loop_returned run_trial _ _ _ _ _ _ _ Hlisted Hwords Hend)
      as (Hl & Hw & Hreturn & _ & Hall).
    cbn zeta in Hl, Hw. rewrite Hl, Hw.
    rewrite run_loop_skips by done. by rewrite Hreturn. }
  destruct (api_key env) as [key|].
  2:{ by destruct resume, (get _ _ _), (get _ "total_words" _). }
  destruct resume.
  - destruct (get (load_checkpoint f) "trials_done" (JList []))
      as [listed|e] eqn:Hlisted; [|done].
    destruct (get (load_checkpoint f) "total_words" (JNum 0))
      as [words|e] eqn:Hwords; [|done].
    intros Hend _. by apply (Hresumed f listed words).
  - cbn [get dict_get]. intros Hend [?|Hgenerated]; [done|].
    destruct (run_loop_disk run_trial (seqZ start_index num_trials) f Absent
                [] 0%Z) as (Hcalled & Hended & Hdisk & _).
    cbn zeta in Hcalled, Hended, Hdisk.
    rewrite <-(Hdisk Hgenerated). apply (Hresumed Absent); [done..|].
    by rewrite Hended.
Qed.

(** X24.  A run with [resume] from a checkpoint that is missing,
    unreadable, or an object with a list of trials and an integer total:
    whatever the trials do, no trial is generated twice, none that the
    checkpoint lists is generated again, and the checkpoint file always
    records exactly the progress made, the listed trials followed by the
    trials generated in this run, with the sum of their words.  The run ends
    in one of four ways: it returns a dictionary that repeats the checkpoint
    and lists every requested trial; it raises the [ValueError] of a missing
    API key before any trial, even when every requested trial is listed
    already; it raises the exception of the trial called last, the earlier
    trials being checkpointed; or, when [words_per_page] is zero, it raises
    [ZeroDivisionError].  It never raises the [AttributeError] or
    [TypeError] of an ill-typed checkpoint. *)
Theorem checkpoint_records_progress (run_trial : Z → outcome Z)
    f num_trials start_index l n :
  get (load_checkpoint f) "trials_done" (JList []) = Ok (JList l) →
  get (load_checkpoint f) "total_words" (JNum 0) = Ok (JNum n) →
  let r := run run_trial words_per_page env f num_trials true start_index in
  let listed := l ++ ids (generated run_trial (called r)) in
  let words := (n + foldr Z.add 0%Z (words_of run_trial <$> called r))%Z in
  NoDup (trial_id <$> called r) ∧
  (∀ i, i ∈ called r →
     (start_index ≤ i < start_index + num_trials)%Z ∧
     JStr (trial_id i) ∉ l) ∧
  get (load_checkpoint (disk r)) "trials_done" (JList []) = Ok (JList listed) ∧
  get (load_checkpoint (disk r)) "total_words" (JNum 0) = Ok (JNum words) ∧
  match ended r with
  | Returned trials_done total_words total_pages =>
      trials_done = JList listed ∧ total_words = JNum words ∧
      total_pages = (words `div` words_per_page)%Z ∧
      (∀ i, (start_index ≤ i < start_index + num_trials)%Z →
         JStr (trial_id i) ∈ listed) ∧
      generated run_trial (called r) = called r
  | ValueError => api_key env = None ∧ called r = [] ∧ disk r = f
  | Raised e => False
  | TrialFailed e => ∃ i, last (called r) = Some i ∧ run_trial i = Raise e
  | ZeroDivisionError => words_per_page = 0%Z
  end.
Proof.
  intros Hlisted Hwords. cbn zeta. unfold run. rewrite Hlisted, Hwords.
  destruct (api_key env) as [key|] eqn:Hkey.
  2:{ cbn [called disk ended fmap list_fmap foldr]. unfold generated, ids.
      rewrite filter_nil. cbn [fmap list_fmap]. rewrite app_nil_r, Z.add_0_r.
      split_and!; [constructor|by intros i ?%elem_of_nil|done..]. }
  destruct (run_loop_inv run_trial (seqZ start_index num_trials) f l n
              Hlisted Hwords) as (Hnd & Hcalled & Htd & Htw & Hend).
  cbn zeta in *.
  split_and!; [done| |done|done|].
  - intros i Hi. destruct (Hcalled i Hi) as [Hrange ?]. split; [|done].
    apply elem_of_seqZ in Hrange. lia.
  - destruct (ended _) as [trials_done total_words total_pages| | |e|];
      [|done..].
    destruct Hend as (? & ? & ? & ? & Hall & ?). split_and!; try done.
    intros i Hi. apply Hall, elem_of_seqZ. lia.
Qed.

(** X25.  Without [resume] the checkpoint file is not read: the run calls
    the trials and ends as a run on a missing checkpoint does, generating
    again the trials the file lists, and as soon as one trial is generated
    the file holds the progress of this run only; if none is generated the
    file is left as it was. *)
Theorem run_without_resume_starts_over (run_trial : Z → outcome Z)
    f num_trials start_index :
  let r := run run_trial words_per_page env f num_trials false start_index in
  let fresh :=
    run run_trial words_per_page env Absent num_trials true start_index in
  called r = called fresh ∧ ended r = ended fresh ∧
  (generated run_trial (called r) ≠ [] →
     disk r = disk fresh ∧
     get (load_checkpoint (disk r)) "trials_done" (JList [])
       = Ok (JList (ids (generated run_trial (called r))))) ∧
  (generated run_trial (called r) = [] → disk r = f).
Proof.
  cbn zeta. unfold run. cbn [get load_checkpoint empty_checkpoint dict_get].
  cbn.
  destruct (api_key env); [|done].
  destruct (run_loop_disk run_trial (seqZ start_index num_trials) Absent f
              [] 0%Z) as (Hc & He & Hd & Hf).
  cbn zeta in Hc, He, Hd, Hf. rewrite Hc, He. split_and!; [done|done| |].
  - intros Hg. rewrite Hd by done. split; [done|].
    by destruct (run_loop_inv run_trial (seqZ start_index num_trials) Absent
                   [] 0%Z eq_refl eq_refl) as (_ & _ & -> & _).
  - intros Hg. destruct (run_loop_disk run_trial
      (seqZ start_index num_trials) f Absent [] 0%Z) as (Hc' & _ & _ & Hf').
    cbn zeta in Hc', Hf'. apply Hf'. by rewrite Hc.
Qed.

(** X26.  A checkpoint file whose JSON is not an object makes a resumed
    run raise [AttributeError] at [checkpoint.get], before the API key is
    read and before any trial.  When the file is an object whose list of
    trials is no list or whose total is no number, the run never writes the
    checkpoint: it calls at most one trial, it returns only when it had no
    trial to call, and otherwise it raises the [TypeError] or
    [AttributeError] of its bookkeeping (after the trial was generated, whose
    result is then not recorded), the exception of that trial, the
    [ValueError] of a missing API key, or [ZeroDivisionError]. *)
Theorem unusable_checkpoint_is_never_written (run_trial : Z → outcome Z)
    f num_trials start_index :
  let r := run run_trial words_per_page env f num_trials true start_index in
  ((∀ kvs, load_checkpoint f ≠ JDict kvs) →
   r = {| disk := f; called := []; ended := Raised AttributeError |}) ∧
  (∀ trials_done total_words,
     get (load_checkpoint f) "trials_done" (JList []) = Ok trials_done →
     get (load_checkpoint f) "total_words" (JNum 0) = Ok total_words →
     (∀ l, trials_done ≠ JList l) ∨ as_int total_words = None →
     disk r = f ∧ length (called r) ≤ 1 ∧
     match ended r with
     | Returned trials_done' total_words' _ =>
         called r = [] ∧ trials_done' = trials_done ∧
         total_words' = total_words
     | ValueError => api_key env = None ∧ called r = []
     | Raised e => e = AttributeError ∨ e = TypeError
     | TrialFailed e => ∃ i, called r = [i] ∧ run_trial i = Raise e
     | ZeroDivisionError => called r = []
     end).
Proof.
  cbn zeta. unfold run. split.
  - intros Hobject. destruct (load_checkpoint f); try done.
    by destruct (Hobject kvs).
  - intros trials_done total_words -> -> Hbad.
    destruct (api_key env); [|cbn; split_and!; [done|lia|done..]].
    destruct (run_loop_unusable run_trial (seqZ start_index num_trials) f
                trials_done total_words Hbad) as (Hdisk & Hcalled & Hend).
    cbn zeta in *. split_and!; [done..|].
    by destruct (ended _).
Qed.

End Checkpoints.

Section CheckpointRuns.
Import Orchestrator Samples.

(** A first run without [resume] over an old checkpoint, two trials
    generated; the resumed run repeats its dictionary. *)
Lemma resumed_run_does_nothing_witness :
  run trials_offline 300 sample_environment
      (disk (run sample_trials 300 sample_environment old_checkpoint 2 false 0))
      2 true 0 =
    {| disk := disk (run sample_trials 300 sample_environment old_checkpoint
                       2 false 0);
       called := [];
       ended := Returned (JList [JStr "trial_001"; JStr "trial_002"])
                  (JNum 2500) 8 |}.
Proof.
  apply (resumed_run_does_nothing 300 sample_environment sample_trials
           trials_offline old_checkpoint 2 false 0).
  - vm_compute. reflexivity.
  - right. vm_compute. discriminate.
Defined.

(** Three trials requested, the first listed already, the third
    failing. *)
Lemma checkpoint_records_progress_witness :
  called (run trials_third_fails 300 sample_environment
            first_trial_checkpoint 3 true 0) = [1; 2]%Z ∧
  ended (run trials_third_fails 300 sample_environment
           first_trial_checkpoint 3 true 0)
    = TrialFailed (UpstreamError "offline") ∧
  get (load_checkpoint
         (disk (run trials_third_fails 300 sample_environment
                  first_trial_checkpoint 3 true 0)))
      "trials_done" (JList [])
    = Ok (JList [JStr "trial_001"; JStr "trial_002"]) ∧
  get (load_checkpoint
         (disk (run trials_third_fails 300 sample_environment
                  first_trial_checkpoint 3 true 0)))
      "total_words" (JNum 0)
    = Ok (JNum 2500).
Proof.
  pose proof (checkpoint_records_progress 300 sample_environment
                trials_third_fails first_trial_checkpoint 3 0
                [JStr "trial_001"] 1000 eq_refl eq_refl) as Hrun.
  cbn zeta in Hrun. destruct Hrun as (_ & _ & Hlisted & Hwords & _).
  split_and!; [by vm_compute|by vm_compute| |].
  - etrans; [exact Hlisted|]. by vm_compute.
  - etrans; [exact Hwords|]. by vm_compute.
Defined.

(** A checkpoint that is a JSON list, and one whose list of trials is a
    string: the first fails at once, the second after generating a trial
    that it cannot record. *)
Lemma unusable_checkpoint_is_never_written_witness :
  run sample_trials 300 sample_environment array_checkpoint 1 true 0
    = {| disk := array_checkpoint; called := [];
         ended := Raised AttributeError |} ∧
  disk (run sample_trials 300 sample_environment string_checkpoint 1 true 0)
    = string_checkpoint ∧
  called (run sample_trials 300 sample_environment string_checkpoint 1 true 0)
    = [0%Z] ∧
  ended (run sample_trials 300 sample_environment string_checkpoint 1 true 0)
    = Raised AttributeError.
Proof.
  destruct (unusable_checkpoint_is_never_written 300 sample_environment
              sample_trials array_checkpoint 1 0) as [Harray _].
  destruct (unusable_checkpoint_is_never_written 300 sample_environment
              sample_trials string_checkpoint 1 0) as [_ Hstring].
  cbn zeta in Harray, Hstring.
  destruct (Hstring (JStr "none") (JNum 0) eq_refl eq_refl) as (Hdisk & _ & _).
  { left. intros l. discriminate. }
  split_and!; [|exact Hdisk|by vm_compute|by vm_compute].
  apply Harray. intros kvs. discriminate.
Defined.

End CheckpointRuns.
